(** * Zenith block builder: auction service, bid evaluation, block packing
    and validator-set caches.

    A shallow embedding of the Go packages [store], [store/memstore],
    [block], [chain], [cryptoutil] and [api], followed by the properties
    that the specification states about them and by further properties of
    the code. *)

From Stdlib Require Import ZArith QArith Qabs List Floats.
From stdpp Require Import base option gmap list strings pretty.
From Stdlib Require OrdersEx.
From stdpp Require Import sorting.

Local Open Scope Z_scope.

(* The decimal constants of the source are not binary64 values; they denote
   the nearest ones, as they do in Go. *)
Set Warnings "-inexact-float".

(** ** Machine integers

    Go's [int64] is a two's complement 64-bit integer; additions and
    subtractions wrap around silently. *)

Definition min_int64 : Z := - 2 ^ 63.
Definition max_int64 : Z := 2 ^ 63 - 1.

Definition wrap64 (z : Z) : Z := (z + 2 ^ 63) mod 2 ^ 64 - 2 ^ 63.
Definition add64 (a b : Z) : Z := wrap64 (a + b).
Definition sub64 (a b : Z) : Z := wrap64 (a - b).

Definition in_int64 (z : Z) : Prop := min_int64 <= z <= max_int64.

(** ** Floating point

    [float64(x)] for an [int64] x rounds to the nearest binary64 value, ties
    to even: this is [binary_normalize] of the integer with exponent 0. *)

Definition float64_of_int64 (z : Z) : float :=
  SF2Prim (SpecFloat.binary_normalize prec emax z 0 false).


(** ** Byte strings, identifiers, time *)

Definition bytes := list Byte.byte.

(** A [uuid.UUID] is sixteen bytes; it is kept as the number those bytes
    spell in big-endian order, so that [bytes.Compare] on two identifiers is
    the comparison of the numbers. The nil UUID is 0. *)
Definition UUID := N.

(** A [time.Time] as an instant on a discrete line; 0 is Go's zero value,
    the one for which [IsZero] holds. *)
Definition Time := Z.
Definition IsZero (t : Time) : bool := (t =? 0)%Z.

(** ** Errors

    The sentinel errors of packages [block], [store] and [chain], and error
    values built with [fmt.Errorf]: either around an existing error (verb
    [%w]) or from a message alone. *)

Inductive sentinel : Type :=
  | ErrInvalidRequest
  | ErrAuctionUnavailable
  | ErrAuctionTooOld
  | ErrAuctionTooNew
  | ErrAuctionFinished
  | ErrNotFound
  | ErrInvalidKey
  | ErrBadSignature
  | ErrNoPayment.

#[global] Instance sentinel_eq_dec : EqDecision sentinel.
Proof. solve_decision. Defined.

Inductive error : Type :=
  | Sentinel (s : sentinel)
  | Errorf (msg : string)
  | Wrapf (msg : string) (e : error).

(** [errors.Is]: walk the chain of wrapped errors. *)
Fixpoint errors_Is (e : error) (target : sentinel) : bool :=
  match e with
  | Sentinel s => bool_decide (s = target)
  | Errorf _ => false
  | Wrapf _ e' => errors_Is e' target
  end.

Inductive result (A : Type) : Type :=
  | Ok (a : A)
  | Err (e : error).
Arguments Ok {A} a.
Arguments Err {A} e.

Definition is_Err {A} (r : result A) : bool :=
  match r with Ok _ => false | Err _ => true end.

Definition fails_with {A} (r : result A) (s : sentinel) : bool :=
  match r with Ok _ => false | Err e => errors_Is e s end.

(** ** package store: types.go *)

Inductive BidKind : Type := BidKindTop | BidKindBlock.

(** [BidState] is a string type; [BidStateUnset] is the empty string that a
    bid carries before it has been evaluated. *)
Inductive BidState : Type :=
  | BidStateUnset
  | BidStatePending
  | BidStateAccepted
  | BidStateRejected.

#[global] Instance BidKind_eq_dec : EqDecision BidKind.
Proof. solve_decision. Defined.
#[global] Instance BidState_eq_dec : EqDecision BidState.
Proof. solve_decision. Defined.

Record StoreChain : Type := mkStoreChain {
  sc_ID : string;
  sc_Network : string;
  sc_PaymentDenom : string;
  sc_MekatekPaymentAddress : string;
  sc_CreatedAt : Time;
  sc_UpdatedAt : Time
}.

Record Auction : Type := mkAuction {
  ChainID : string;
  Height : Z;
  ValidatorAddress : string;
  ValidatorAllocation : float;
  ValidatorPaymentAddress : string;
  MekatekPaymentAddress : string;
  PaymentDenom : string;
  RegisteredPower : Z;
  TotalPower : Z;
  CreatedAt : Time;
  FinishedAt : Time
}.

Record Payment : Type := mkPayment {
  pay_From : string;
  pay_To : string;
  pay_Amount : Z
}.

Record Bid : Type := mkBid {
  bid_ID : UUID;
  bid_ChainID : string;
  bid_Height : Z;
  Kind : BidKind;
  Txs : list bytes;
  Priority : Z;
  MekatekPayment : Z;
  ValidatorPayment : Z;
  Payments : list Payment;
  State : BidState;
  bid_CreatedAt : Time;
  bid_UpdatedAt : Time
}.

Record Challenge : Type := mkChallenge {
  ch_ID : UUID;
  ch_ChainID : string;
  ch_ValidatorAddress : string;
  ch_PubKeyBytes : bytes;
  ch_PubKeyType : string;
  ch_PaymentAddress : string;
  ch_Challenge : bytes;
  ch_CreatedAt : Time
}.

Record Validator : Type := mkValidator {
  val_ChainID : string;
  val_Address : string;
  val_Moniker : string;
  val_PubKeyBytes : bytes;
  val_PubKeyType : string;
  val_PaymentAddress : string;
  val_CreatedAt : Time;
  val_UpdatedAt : Time
}.

(** ** package chain: chain.go *)

Record ChainValidator : Type := mkChainValidator {
  cv_Address : string;
  cv_Moniker : string;
  cv_PaymentAddress : string;
  cv_PubKeyType : string;
  cv_PubKeyBytes : bytes;
  cv_VotingPower : Z;
  cv_ProposerPriority : Z
}.

Record ValidatorSet : Type := mkValidatorSet {
  vs_Height : Z;
  vs_Validators : list ChainValidator;
  vs_Set : gmap string ChainValidator;
  vs_TotalPower : Z
}.

(** ** What the repository takes from outside

    [strings.ToLower], [strings.ToUpper], [strings.EqualFold] and
    [hex.EncodeToString] of the Go library, the hashing and the signing
    blobs of package [mekabuild], the rendering of a UUID as text, and the
    type of chain messages, which the service only ever hands back to the
    chain ([Message] is an empty interface). *)

Class External : Type := {
  strings_ToLower : string -> string;
  strings_ToUpper : string -> string;
  strings_EqualFold : string -> string -> bool;
  hex_EncodeToString : bytes -> string;
  mekabuild_HashTxs : list bytes -> bytes;
  mekabuild_RegisterChallengeSignBytes : string -> bytes -> bytes;
  mekabuild_BuildBlockRequestSignBytes :
    string -> Z -> string -> Z -> Z -> bytes -> bytes;
  UUID_String : UUID -> string;
  Message : Type
}.

Section Zenith.

Context {ext : External}.

Record Transaction : Type := mkTransaction {
  Messages : list Message;
  ByteCount : result Z;
  GasAmount : result Z
}.

(** The [Chain] interface. A value of this record is the chain as one
    request observes it. *)
Record Chain : Type := mkChain {
  ID : string;
  ValidatePaymentAddress : string -> option error;
  VerifySignature : string -> bytes -> bytes -> bytes -> option error;
  LatestHeight : result Z;
  DecodeTransaction : bytes -> result Transaction;
  EncodeTransaction : Transaction -> result bytes;
  AccountBalance : Z -> string -> string -> result Z;
  GetValidatorSet : Z -> result ValidatorSet;
  PredictProposer : ValidatorSet -> Z -> result ChainValidator;
  GetPayment : Message -> string -> result (string * string * Z)
}.

(** ** package store: ParseBidKind *)

Definition ParseBidKind (s : string) : BidKind :=
  if bool_decide (strings_ToLower s = "block"%string)
  then BidKindBlock
  else BidKindTop.

(** ** package block: util.go *)

Definition FixedAllocation : float := 0.97%float.

Definition getTxBytes (c : Chain) (tx : bytes) : result Z :=
  match DecodeTransaction c tx with
  | Err e => Err (Wrapf "decode transaction" e)
  | Ok transaction =>
      match ByteCount transaction with
      | Err e => Err (Wrapf "get transaction gas" e)
      | Ok nbytes => Ok nbytes
      end
  end.

Definition getTxGas (c : Chain) (tx : bytes) : result Z :=
  match DecodeTransaction c tx with
  | Err e => Err (Wrapf "decode transaction" e)
  | Ok transaction =>
      match GasAmount transaction with
      | Err e => Err (Wrapf "get transaction gas" e)
      | Ok gas => Ok gas
      end
  end.

Definition sameAddr (a b : string) : bool := strings_EqualFold a b.

(** ** package block: evaluateBid *)

(** The three accumulators of [evaluateBid]. *)
Record payAcc : Type := mkPayAcc {
  validatorPayment : Z;
  mekatekPayment : Z;
  payments : list Payment
}.

Definition payAcc0 : payAcc := mkPayAcc 0 0 [].

(** The body of the loop over the messages of one transaction. *)
Definition evalMsg (c : Chain) (auction : Auction) (acc : payAcc) (msg : Message)
  : payAcc :=
  match GetPayment c msg (PaymentDenom auction) with
  | Err _ => acc
  | Ok (src, dst, amount) =>
      let toValidator := sameAddr dst (ValidatorPaymentAddress auction) in
      let toMekatek := sameAddr dst (MekatekPaymentAddress auction) in
      if toValidator then
        mkPayAcc (add64 (validatorPayment acc) amount) (mekatekPayment acc)
                 (payments acc ++ [mkPayment src dst amount])
      else if toMekatek then
        mkPayAcc (validatorPayment acc) (add64 (mekatekPayment acc) amount)
                 (payments acc ++ [mkPayment src dst amount])
      else acc
  end.

(** The loop over [bid.Txs]: the transactions as the loop leaves them (each
    one that decodes and re-encodes replaced by its normalization, the others
    left alone) and the accumulators. *)
Fixpoint evalTxs (c : Chain) (auction : Auction) (txs : list bytes) (acc : payAcc)
  : list bytes * payAcc :=
  match txs with
  | [] => ([], acc)
  | txb :: rest =>
      match DecodeTransaction c txb with
      | Err _ =>
          let '(rest', acc') := evalTxs c auction rest acc in (txb :: rest', acc')
      | Ok tx =>
          match EncodeTransaction c tx with
          | Err _ =>
              let '(rest', acc') := evalTxs c auction rest acc in
              (txb :: rest', acc')
          | Ok txbNormalized =>
              let acc1 := fold_left (evalMsg c auction) (Messages tx) acc in
              let '(rest', acc') := evalTxs c auction rest acc1 in
              (txbNormalized :: rest', acc')
          end
      end
  end.

Definition allocationTolerance : float := 0.01%float.

Definition isCorrectAllocation (alloc : float) (vp mp total : Z) : bool :=
  let wantValidatorAllocation := alloc in
  let wantMekatekAllocation := (1 - alloc)%float in
  let haveValidatorAllocation :=
    (float64_of_int64 vp / float64_of_int64 total)%float in
  let haveMekatekAllocation :=
    (float64_of_int64 mp / float64_of_int64 total)%float in
  let validatorAllocationDiff :=
    PrimFloat.abs (wantValidatorAllocation - haveValidatorAllocation)%float in
  let mekatekAllocationDiff :=
    PrimFloat.abs (wantMekatekAllocation - haveMekatekAllocation)%float in
  PrimFloat.ltb validatorAllocationDiff allocationTolerance
  && PrimFloat.ltb mekatekAllocationDiff allocationTolerance.

(** [evaluateBid] works on the bid through a pointer: the transactions are
    overwritten as the loop goes, the other fields only once the allocation
    has been found correct. The bid is returned as the call leaves it,
    together with the error, if any. *)
Definition evaluateBid (c : Chain) (auction : Auction) (bid : Bid)
  : Bid * option error :=
  let '(txs', acc) := evalTxs c auction (Txs bid) payAcc0 in
  let bid1 :=
    mkBid (bid_ID bid) (bid_ChainID bid) (bid_Height bid) (Kind bid) txs'
          (Priority bid) (MekatekPayment bid) (ValidatorPayment bid)
          (Payments bid) (State bid) (bid_CreatedAt bid) (bid_UpdatedAt bid) in
  let totalPayment := add64 (validatorPayment acc) (mekatekPayment acc) in
  if (totalPayment <=? 0)%Z then
    (bid1, Some (Wrapf "no payments" (Sentinel ErrInvalidRequest)))
  else if negb (isCorrectAllocation (ValidatorAllocation auction)
                  (validatorPayment acc) (mekatekPayment acc) totalPayment) then
    (bid1, Some (Errorf "payment allocation doesn't satisfy"))
  else
    (mkBid (bid_ID bid) (bid_ChainID bid) (bid_Height bid) (Kind bid) txs'
           totalPayment (mekatekPayment acc) (validatorPayment acc)
           (payments acc) (State bid) (bid_CreatedAt bid) (bid_UpdatedAt bid),
     None).

(** ** package cryptoutil *)

Definition HashTx (txb : bytes) : string :=
  strings_ToUpper (hex_EncodeToString (mekabuild_HashTxs [txb])).

(** ** sort.SliceStable

    A stable sort by insertion: an element goes in front of the first one
    that is not less than it, so elements that compare equal keep their
    order. *)

Fixpoint insertStable {A} (less : A -> A -> bool) (x : A) (l : list A) : list A :=
  match l with
  | [] => [x]
  | y :: l' => if less y x then y :: insertStable less x l' else x :: y :: l'
  end.

Fixpoint SliceStable {A} (less : A -> A -> bool) (l : list A) : list A :=
  match l with
  | [] => []
  | x :: l' => insertStable less x (SliceStable less l')
  end.

(** ** package memstore

    The maps of the in-memory store. Go maps of pointers are kept as maps of
    values: a pointer handed out by a [Select] function aliases the stored
    value, which the callers below only ever change through [Upsert] and
    [Update] calls (see [Build] for the one place that writes through such a
    pointer first). *)

Record Store : Type := mkStore {
  bids : gmap (string * Z) (list Bid);
  auctions : gmap (string * Z) Auction;
  challenges : gmap string Challenge;
  validators : gmap (string * string) Validator;
  chains : gmap string StoreChain
}.

Definition NewStore : Store := mkStore ∅ ∅ ∅ ∅ ∅.

Definition set_bids (s : Store) (m : gmap (string * Z) (list Bid)) : Store :=
  mkStore m (auctions s) (challenges s) (validators s) (chains s).
Definition set_auctions (s : Store) (m : gmap (string * Z) Auction) : Store :=
  mkStore (bids s) m (challenges s) (validators s) (chains s).
Definition set_challenges (s : Store) (m : gmap string Challenge) : Store :=
  mkStore (bids s) (auctions s) m (validators s) (chains s).
Definition set_validators (s : Store) (m : gmap (string * string) Validator)
  : Store :=
  mkStore (bids s) (auctions s) (challenges s) m (chains s).

Definition bid_set_ID_CreatedAt (b : Bid) (id : UUID) (t : Time) : Bid :=
  mkBid id (bid_ChainID b) (bid_Height b) (Kind b) (Txs b) (Priority b)
        (MekatekPayment b) (ValidatorPayment b) (Payments b) (State b)
        t (bid_UpdatedAt b).

Definition bid_set_State (b : Bid) (st : BidState) : Bid :=
  mkBid (bid_ID b) (bid_ChainID b) (bid_Height b) (Kind b) (Txs b) (Priority b)
        (MekatekPayment b) (ValidatorPayment b) (Payments b) st
        (bid_CreatedAt b) (bid_UpdatedAt b).

Definition bid_set_State_UpdatedAt (b : Bid) (st : BidState) (t : Time) : Bid :=
  mkBid (bid_ID b) (bid_ChainID b) (bid_Height b) (Kind b) (Txs b) (Priority b)
        (MekatekPayment b) (ValidatorPayment b) (Payments b) st
        (bid_CreatedAt b) t.

Definition auction_set_CreatedAt (a : Auction) (t : Time) : Auction :=
  mkAuction (ChainID a) (Height a) (ValidatorAddress a) (ValidatorAllocation a)
            (ValidatorPaymentAddress a) (MekatekPaymentAddress a)
            (PaymentDenom a) (RegisteredPower a) (TotalPower a) t (FinishedAt a).

Definition auction_set_FinishedAt (a : Auction) (t : Time) : Auction :=
  mkAuction (ChainID a) (Height a) (ValidatorAddress a) (ValidatorAllocation a)
            (ValidatorPaymentAddress a) (MekatekPaymentAddress a)
            (PaymentDenom a) (RegisteredPower a) (TotalPower a) (CreatedAt a) t.

(** The store's methods take the store, and the readings of the clock and
    of the UUID generator that the call makes, and give back the store as
    the call leaves it. *)

Definition InsertBid (s : Store) (b : Bid) (newV4 : result UUID) (now : Time)
  : Store * result Bid :=
  match newV4 with
  | Err e => (s, Err (Wrapf "generate bid ID" e))
  | Ok id =>
      let newBid := bid_set_ID_CreatedAt b id now in
      let key := (bid_ChainID b, bid_Height b) in
      (set_bids s (<[key := default [] (bids s !! key) ++ [newBid]]> (bids s)),
       Ok newBid)
  end.

(** The inner loop of [UpdateBids]: the first stored bid with the identifier
    of [b] takes its state. *)
Fixpoint updateFirst (b : Bid) (now : Time) (os : list Bid) : list Bid :=
  match os with
  | [] => []
  | o :: os' =>
      if bool_decide (bid_ID b = bid_ID o)
      then bid_set_State_UpdatedAt o (State b) now :: os'
      else o :: updateFirst b now os'
  end.

Definition UpdateBids (s : Store) (bs : list Bid) (now : Time) : Store :=
  fold_left
    (fun s b =>
       set_bids s (alter (updateFirst b now) (bid_ChainID b, bid_Height b) (bids s)))
    bs s.

Definition ListBids (s : Store) (chainID : string) (height : Z) : list Bid :=
  default [] (bids s !! (chainID, height)).

(** [UpsertAuction] also stamps [CreatedAt] on the caller's auction when it
    creates the row: the second component is the caller's auction after the
    call. *)
Definition UpsertAuction (s : Store) (a : Auction) (now : Time)
  : Store * Auction :=
  let key := (ChainID a, Height a) in
  match auctions s !! key with
  | Some existing =>
      (set_auctions s
         (<[key := auction_set_FinishedAt existing (FinishedAt a)]> (auctions s)),
       a)
  | None =>
      let a' := auction_set_CreatedAt a now in
      (set_auctions s (<[key := a']> (auctions s)), a')
  end.

Definition SelectAuction (s : Store) (chainID : string) (height : Z)
  : result Auction :=
  match auctions s !! (chainID, height) with
  | Some a => Ok a
  | None => Err (Sentinel ErrNotFound)
  end.

Definition challenge_set_ID_CreatedAt (c : Challenge) (id : UUID) (t : Time)
  : Challenge :=
  mkChallenge id (ch_ChainID c) (ch_ValidatorAddress c) (ch_PubKeyBytes c)
              (ch_PubKeyType c) (ch_PaymentAddress c) (ch_Challenge c) t.

Definition InsertChallenge (s : Store) (c : Challenge) (newV4 : result UUID)
    (now : Time) : Store * result Challenge :=
  match newV4 with
  | Err e => (s, Err (Wrapf "uuid gen failed" e))
  | Ok id =>
      let cc := challenge_set_ID_CreatedAt c id now in
      (set_challenges s (<[UUID_String id := cc]> (challenges s)), Ok cc)
  end.

Definition SelectChallenge (s : Store) (id : string) : result Challenge :=
  match challenges s !! id with
  | Some c => Ok c
  | None => Err (Sentinel ErrNotFound)
  end.

Definition DeleteChallenge (s : Store) (id : string) : Store * option error :=
  match challenges s !! id with
  | None => (s, Some (Sentinel ErrNotFound))
  | Some _ => (set_challenges s (delete id (challenges s)), None)
  end.

Definition UpsertValidator (s : Store) (v : Validator) (now : Time) : Store :=
  let key := (val_ChainID v, val_Address v) in
  match validators s !! key with
  | Some existing =>
      set_validators s
        (<[key := mkValidator (val_ChainID existing) (val_Address existing)
                    (val_Moniker v) (val_PubKeyBytes existing)
                    (val_PubKeyType existing) (val_PaymentAddress v)
                    (val_CreatedAt existing) now]> (validators s))
  | None =>
      set_validators s
        (<[key := mkValidator (val_ChainID v) (val_Address v) (val_Moniker v)
                    (val_PubKeyBytes v) (val_PubKeyType v) (val_PaymentAddress v)
                    now (val_UpdatedAt v)]> (validators s))
  end.

Definition SelectValidator (s : Store) (chainID addr : string)
  : result Validator :=
  match validators s !! (chainID, addr) with
  | Some v => Ok v
  | None => Err (Sentinel ErrNotFound)
  end.

(** The validators of a chain, sorted by address. *)
Definition ListValidators (s : Store) (chainID : string) : list Validator :=
  SliceStable (fun v1 v2 => String.ltb (val_Address v1) (val_Address v2))
    (filter (fun v => val_ChainID v = chainID)
            (snd <$> map_to_list (validators s))).

Definition SelectChain (s : Store) (id : string) : result StoreChain :=
  match chains s !! id with
  | Some c => Ok c
  | None => Err (Sentinel ErrNotFound)
  end.

(** ** package block: the service

    The in-memory store has no roll-back ([Transact] runs its function on
    the store itself), so a request is a function from the store to the
    store it leaves and its result; an error stops the request and keeps
    whatever had been written. *)

Definition M (A : Type) : Type := Store -> Store * result A.

Definition ret {A} (a : A) : M A := fun s => (s, Ok a).
Definition fail {A} (e : error) : M A := fun s => (s, Err e).
Definition bind {A B} (m : M A) (k : A -> M B) : M B :=
  fun s => match m s with
           | (s', Ok a) => k a s'
           | (s', Err e) => (s', Err e)
           end.
Definition lift {A} (r : result A) : M A := fun s => (s, r).
Definition read {A} (f : Store -> A) : M A := fun s => (s, Ok (f s)).
Definition readR {A} (f : Store -> result A) : M A := fun s => (s, f s).
Definition write (f : Store -> Store) : M unit := fun s => (f s, Ok tt).

(** [fmt.Errorf("msg: %w", err)] around the error of a computation. *)
Definition wrapErr {A} (msg : string) (m : M A) : M A :=
  fun s => match m s with
           | (s', Ok a) => (s', Ok a)
           | (s', Err e) => (s', Err (Wrapf msg e))
           end.

Definition liftE (o : option error) : M unit :=
  fun s => match o with None => (s, Ok tt) | Some e => (s, Err e) end.

Notation "'let*' x ':=' m 'in' k" := (bind m (fun x => k))
  (at level 10, x name, m at level 100, k at level 200, only parsing).
Notation "'let*' ' p ':=' m 'in' k" :=
  (bind m (fun x => match x with p => k end))
  (at level 10, p pattern, m at level 100, k at level 200, only parsing).
Notation "'run' m 'in' k" := (bind m (fun _ => k))
  (at level 10, m at level 100, k at level 200, only parsing).

Definition Transact {A} (tx : M A) : M A := tx.

(** The voting power, in the validator set, of the validators that the store
    has registered. *)
Definition sumRegisteredPower (vs : ValidatorSet) (registered : list Validator)
  : Z :=
  fold_left
    (fun registeredPower v =>
       match vs_Set vs !! val_Address v with
       | Some cv => add64 registeredPower (cv_VotingPower cv)
       | None => registeredPower
       end)
    registered 0.

(** The auction of a height: the stored one, or a new one that is stored.
    Shared by [verifyAuction] and [BuildV1], which differ in where the
    proposer's addresses come from. *)
Definition findOrCreateAuction (chainID : string) (height : Z)
    (vs : ValidatorSet) (proposerAddr proposerPaymentAddr : string)
    (mekatekPaymentAddress paymentDenom : string) (now : Time) : M Auction :=
  fun s =>
    match SelectAuction s chainID height with
    | Ok a => (s, Ok a)
    | Err e =>
        if errors_Is e ErrNotFound then
          let registered := ListValidators s chainID in
          let registeredPower := sumRegisteredPower vs registered in
          let a := mkAuction chainID height proposerAddr FixedAllocation
                     proposerPaymentAddr mekatekPaymentAddress paymentDenom
                     registeredPower (vs_TotalPower vs) 0 0 in
          let '(s', a') := UpsertAuction s a now in
          (s', Ok a')
        else (s, Err (Wrapf "fetch auction" e))
    end.

(** The test of the height against the latest height of the chain, as
    [verifyAuction] and [BuildV1] both spell it out. *)
Definition checkHeightWindow (chainID : string)
    (latestHeight maxHeightOffset height : Z) : option error :=
  let minHeight := latestHeight in
  let maxHeight := add64 latestHeight maxHeightOffset in
  if height <? minHeight then Some (Wrapf chainID (Sentinel ErrAuctionTooOld))
  else if height >? maxHeight then
    Some (Wrapf chainID (Sentinel ErrAuctionTooNew))
  else None.

Definition verifyAuction (c : Chain) (height maxHeightOffset : Z) (now : Time)
  : M (Auction * Validator) :=
  let chainID := ID c in
  let* ch := wrapErr "query for chain" (readR (fun s => SelectChain s chainID)) in
  let* latestHeight := wrapErr "get latest height" (lift (LatestHeight c)) in
  let* vs := wrapErr "get validator set" (lift (GetValidatorSet c latestHeight)) in
  if negb (vs_Height vs =? latestHeight) then
    fail (Errorf "mismatch: latest height, validator set height")
  else
    run liftE (checkHeightWindow chainID latestHeight maxHeightOffset height) in
    let* p := wrapErr "failed to predict proposer"
                (lift (PredictProposer c vs height)) in
    let* auctionProposer :=
      (fun s =>
         match SelectValidator s chainID (cv_Address p) with
         | Ok v => (s, Ok v)
         | Err e =>
             let e' := if errors_Is e ErrNotFound
                       then Sentinel ErrAuctionUnavailable else e in
             (s, Err (Wrapf "proposer not registered" e'))
         end) in
    let* a := findOrCreateAuction chainID height vs (val_Address auctionProposer)
                (val_PaymentAddress auctionProposer)
                (sc_MekatekPaymentAddress ch) (sc_PaymentDenom ch) now in
    if negb (IsZero (FinishedAt a)) then fail (Sentinel ErrAuctionFinished)
    else if negb (bool_decide (val_Address auctionProposer = ValidatorAddress a))
    then fail (Errorf "mismatched validators")
    else ret (a, auctionProposer).

(** *** CoreService.Auction *)
Definition ServiceAuction (c : Chain) (height : Z) (now : Time) : M Auction :=
  Transact (let* '(a, _) := verifyAuction c height 10 now in ret a).

(** *** CoreService.Bid *)
Definition ServiceBid (c : Chain) (height : Z) (kind : string)
    (txs : list bytes) (newV4 : result UUID) (now : Time) : M Bid :=
  let* auction := wrapErr "fetch auction" (ServiceAuction c height now) in
  let bid := mkBid 0%N (ChainID auction) (Height auction) (ParseBidKind kind)
               txs 0 0 0 [] BidStatePending 0 0 in
  match evaluateBid c auction bid with
  | (_, Some e) => fail (Wrapf "evaluate bid" e)
  | (bid', None) =>
      wrapErr "place bid" (fun s => InsertBid s bid' newV4 now)
  end.

(** *** CoreService.Apply *)
Definition ServiceApply (c : Chain) (validatorAddr paymentAddr : string)
    (random32 : bytes) (newV4 : result UUID) (now : Time) : M Challenge :=
  run wrapErr "payment address" (liftE (ValidatePaymentAddress c paymentAddr)) in
  let* latestHeight := wrapErr "get latest height" (lift (LatestHeight c)) in
  let* vs := wrapErr "get validator set" (lift (GetValidatorSet c latestHeight)) in
  if negb (vs_Height vs =? latestHeight) then
    fail (Errorf "mismatch: latest height, validator set height")
  else
    match vs_Set vs !! validatorAddr with
    | None => fail (Errorf "validator not in latest validator set")
    | Some val =>
        let ch := mkChallenge 0%N (ID c) (cv_Address val) (cv_PubKeyBytes val)
                    (cv_PubKeyType val) paymentAddr random32 0 in
        wrapErr "insert challenge" (fun s => InsertChallenge s ch newV4 now)
    end.

(** *** CoreService.Register

    The function passed to [Transact] registers the deletion of the
    challenge with [defer] as soon as the challenge has been read: it runs
    when that function returns, on every path. The error of the deletion is
    only traced. *)
Definition registerTx (c : Chain) (validatorSet : ValidatorSet)
    (challenge : Challenge) (signature : bytes) (now : Time) : M Validator :=
  let msg := mekabuild_RegisterChallengeSignBytes (ch_ChainID challenge)
               (ch_Challenge challenge) in
  run liftE (VerifySignature c (ch_PubKeyType challenge) (ch_PubKeyBytes challenge)
           msg signature) in
  match vs_Set validatorSet !! ch_ValidatorAddress challenge with
  | None => fail (Errorf "validator not present in validator set")
  | Some validatorSetValidator =>
      let validator :=
        mkValidator (ch_ChainID challenge) (ch_ValidatorAddress challenge)
          (cv_Moniker validatorSetValidator) (ch_PubKeyBytes challenge)
          (ch_PubKeyType challenge) (ch_PaymentAddress challenge) 0 0 in
      run write (fun s => UpsertValidator s validator now) in
      ret validator
  end.

Definition ServiceRegister (c : Chain) (challengeID : string)
    (signature : bytes) (now : Time) : M Validator :=
  let* latestHeight := wrapErr "get latest height" (lift (LatestHeight c)) in
  let* validatorSet :=
    wrapErr "get validator set" (lift (GetValidatorSet c latestHeight)) in
  Transact
    (let* challenge := wrapErr "retrieve challenge"
                    (readR (fun s => SelectChallenge s challengeID)) in
     fun s =>
       let '(s1, r) := registerTx c validatorSet challenge signature now s in
       let '(s2, _) := DeleteChallenge s1 (UUID_String (ch_ID challenge)) in
       (s2, r)).

(** ** package block: computeOrder *)

(** The first loop: bids that were never evaluated are evaluated now, and a
    failure ends the computation. *)
Fixpoint evaluateUnevaluated (c : Chain) (auction : Auction) (bs : list Bid)
  : result (list Bid) :=
  match bs with
  | [] => Ok []
  | bid :: rest =>
      let continue (bid' : Bid) :=
        match evaluateUnevaluated c auction rest with
        | Ok rest' => Ok (bid' :: rest')
        | Err e => Err e
        end in
      if bool_decide (State bid = BidStateUnset) then
        match evaluateBid c auction bid with
        | (_, Some e) => Err (Wrapf "evaluate un-evaluated bid" e)
        | (bid', None) => continue bid'
        end
      else continue bid
  end.

(** The balances of the senders of all payments, as of the height before
    the auction; an address whose balance cannot be read gets no entry. *)
Definition querySenderBalances (c : Chain) (auction : Auction)
    (evaluatedBids : list Bid) : gmap string Z :=
  fold_left
    (fun senderBalances addr =>
       match AccountBalance c (sub64 (Height auction) 1) addr
               (PaymentDenom auction) with
       | Err _ => senderBalances
       | Ok balance => <[addr := balance]> senderBalances
       end)
    (pay_From <$> concat (Payments <$> evaluatedBids)) ∅.

(** The order of the sort: higher priority first, then smaller identifier. *)
Definition bidLess (b1 b2 : Bid) : bool :=
  if negb (Priority b1 =? Priority b2) then Priority b1 >? Priority b2
  else (bid_ID b1 <? bid_ID b2)%N.

(** The payments of a bid taken from a copy of the balances; [None] as soon
    as one of them would leave a negative balance. A missing entry reads as
    0, as a Go map does. *)
Fixpoint debit (senderBalancesCopy : gmap string Z) (ps : list Payment)
  : option (gmap string Z) :=
  match ps with
  | [] => Some senderBalancesCopy
  | p :: ps' =>
      let balance := default 0 (senderBalancesCopy !! pay_From p) in
      let result := sub64 balance (pay_Amount p) in
      if result <? 0 then None
      else debit (<[pay_From p := result]> senderBalancesCopy) ps'
  end.

Definition hasClaimedTransactions (claimedTxs : gset string) (txs : list bytes)
  : bool :=
  existsb (fun tx => bool_decide (HashTx tx ∈ claimedTxs)) txs.

Definition claimAll (claimedTxs : gset string) (txs : list bytes) : gset string :=
  fold_left (fun claimed tx => {[HashTx tx]} ∪ claimed) txs claimedTxs.

Record walkState : Type := mkWalkState {
  winningBids : list Bid;
  rejectedBids : list Bid;
  claimedTxs : gset string;
  senderBalances : gmap string Z
}.

(** The body of the loop over the sorted bids. *)
Definition walkStep (st : walkState) (eb : Bid) : walkState :=
  let reject :=
    mkWalkState (winningBids st)
                (rejectedBids st ++ [bid_set_State eb BidStateRejected])
                (claimedTxs st) (senderBalances st) in
  if bool_decide (Kind eb = BidKindTop)
     && (0 <? Z.of_nat (length (winningBids st)))
  then reject
  else if hasClaimedTransactions (claimedTxs st) (Txs eb) then reject
  else
    match debit (senderBalances st) (Payments eb) with
    | None => reject
    | Some senderBalancesCopy =>
        mkWalkState (winningBids st ++ [eb]) (rejectedBids st)
                    (claimAll (claimedTxs st) (Txs eb)) senderBalancesCopy
    end.

(** The last loop: the transactions of the mempool that no winning bid and
    no earlier mempool transaction has claimed. *)
Fixpoint remainingMempool (claimed : gset string) (mempoolTxs : list bytes)
  : list bytes :=
  match mempoolTxs with
  | [] => []
  | tx :: rest =>
      let txString := HashTx tx in
      if bool_decide (txString ∈ claimed) then remainingMempool claimed rest
      else tx :: remainingMempool ({[txString]} ∪ claimed) rest
  end.

Definition computeOrder (c : Chain) (auction : Auction) (bs : list Bid)
    (mempoolTxs : list bytes) : result (list Bid * list Bid * list bytes) :=
  match evaluateUnevaluated c auction bs with
  | Err e => Err e
  | Ok evaluatedBids =>
      let balances := querySenderBalances c auction evaluatedBids in
      let sorted := SliceStable bidLess evaluatedBids in
      let st := fold_left walkStep sorted (mkWalkState [] [] ∅ balances) in
      Ok (winningBids st, rejectedBids st,
          remainingMempool (claimedTxs st) mempoolTxs)
  end.

(** ** package block: selectTransactions *)

Record txBundle : Type := mkTxBundle {
  source : string;
  txs : list bytes;
  bundle_validatorPayment : Z;
  bundle_mekatekPayment : Z
}.

(** The bytes and gas that [selectTransactions] counts for a bid: the
    transactions for which either lookup fails are passed over. *)
Definition addTxSize (c : Chain) (size : Z * Z) (txb : bytes) : Z * Z :=
  let '(bidBytes, bidGas) := size in
  match getTxBytes c txb with
  | Err _ => (bidBytes, bidGas)
  | Ok txBytes =>
      match getTxGas c txb with
      | Err _ => (bidBytes, bidGas)
      | Ok txGas => (add64 bidBytes txBytes, add64 bidGas txGas)
      end
  end.

Definition bidSize (c : Chain) (txbs : list bytes) : Z * Z :=
  fold_left (addTxSize c) txbs (0, 0).

Record selectState : Type := mkSelectState {
  bundles : list txBundle;
  acceptedBids : list Bid;
  sel_rejectedBids : list Bid;
  totalBytes : Z;
  totalGas : Z
}.

Definition selectBid (c : Chain) (maxBytes maxGas : Z) (st : selectState)
    (eb : Bid) : selectState :=
  let '(bidBytes, bidGas) := bidSize c (Txs eb) in
  let tooManyBytes := add64 (totalBytes st) bidBytes >? maxBytes in
  let tooMuchGas := add64 (totalGas st) bidGas >? maxGas in
  let rejectBid := tooManyBytes || tooMuchGas in
  if rejectBid then
    mkSelectState (bundles st) (acceptedBids st)
      (sel_rejectedBids st ++ [bid_set_State eb BidStateRejected])
      (totalBytes st) (totalGas st)
  else
    mkSelectState
      (bundles st ++
         [mkTxBundle ("bid " +:+ UUID_String (bid_ID eb)) (Txs eb)
            (ValidatorPayment eb) (MekatekPayment eb)])
      (acceptedBids st ++ [bid_set_State eb BidStateAccepted])
      (sel_rejectedBids st)
      (add64 (totalBytes st) bidBytes) (add64 (totalGas st) bidGas).

Definition selectMempoolTx (c : Chain) (maxBytes maxGas : Z) (st : selectState)
    (tx : bytes) : selectState :=
  match getTxBytes c tx with
  | Err _ => st
  | Ok txBytes =>
      match getTxGas c tx with
      | Err _ => st
      | Ok txGas =>
          let tooManyBytes := add64 (totalBytes st) txBytes >? maxBytes in
          let tooMuchGas := add64 (totalGas st) txGas >? maxGas in
          let rejectTx := tooManyBytes || tooMuchGas in
          if rejectTx then st
          else
            mkSelectState (bundles st ++ [mkTxBundle "mempool" [tx] 0 0])
              (acceptedBids st) (sel_rejectedBids st)
              (add64 (totalBytes st) txBytes) (add64 (totalGas st) txGas)
      end
  end.

Definition selectTransactions (c : Chain) (winning : list Bid)
    (mempool : list bytes) (maxBytes maxGas : Z) : selectState :=
  let maxBytes := if maxBytes =? -1 then max_int64 else maxBytes in
  let maxGas := if maxGas =? -1 then max_int64 else maxGas in
  let st := fold_left (selectBid c maxBytes maxGas) winning
              (mkSelectState [] [] [] 0 0) in
  fold_left (selectMempoolTx c maxBytes maxGas) mempool st.

(** ** package block: Build and BuildV1 *)

(** What both builds do once the auction is claimed: order, pack, persist
    the states of the bids, flatten. The payment to the validator is
    returned as the amount and the denomination that the source prints one
    after the other. [UpdateBids] receives the bids as the two functions
    have left them; every bid is in exactly one of the three lists. With the
    in-memory store the bids of [ListBids] are the stored ones, so the states
    that the two functions set are already in the store when [UpdateBids]
    writes them once more; the stored bids all came through [Bid], are
    pending, and are therefore not evaluated a second time. *)
Definition flattenBundles (bs : list txBundle) : list bytes * Z * Z :=
  fold_left
    (fun '(blockTxs, vp, mp) b =>
       (blockTxs ++ txs b, add64 vp (bundle_validatorPayment b),
        add64 mp (bundle_mekatekPayment b)))
    bs ([], 0, 0).

Definition buildBlock (c : Chain) (auction : Auction) (allBids : list Bid)
    (mempool : list bytes) (maxBytes maxGas : Z) (errmsg : string) (now : Time)
  : M (list bytes * (Z * string)) :=
  match computeOrder c auction allBids mempool with
  | Err e => fail (Wrapf errmsg e)
  | Ok (winning, losing, remainingTxs) =>
      let st := selectTransactions c winning remainingTxs maxBytes maxGas in
      run write (fun s =>
                   UpdateBids s (acceptedBids st ++ sel_rejectedBids st ++ losing)
                     now) in
      let '(blockTxs, validatorPayment, _) := flattenBundles (bundles st) in
      ret (blockTxs, (validatorPayment, PaymentDenom auction))
  end.

(** In [Build] the auction that [verifyAuction] returns may be the stored
    one itself; [auction.FinishedAt = now] then already writes the store, and
    the [UpsertAuction] that follows writes the same instant again. *)
Definition ServiceBuild (c : Chain) (height : Z) (validatorAddr : string)
    (maxBytes maxGas : Z) (mempool : list bytes) (signature : bytes)
    (now : Time) : M (list bytes * (Z * string)) :=
  let chainID := ID c in
  let* '(auction, proposer, allBids) :=
    wrapErr "claim failed"
      (Transact
         (let* '(a, v) := wrapErr "verify auction" (verifyAuction c height 2 now) in
          let txsHash := mekabuild_HashTxs mempool in
          let msg := mekabuild_BuildBlockRequestSignBytes chainID height
                       validatorAddr maxBytes maxGas txsHash in
          run liftE (VerifySignature c (val_PubKeyType v) (val_PubKeyBytes v)
                       msg signature) in
          let a := auction_set_FinishedAt a now in
          let* a := (fun s => let '(s', a') := UpsertAuction s a now in
                              (s', Ok a')) in
          let* b := read (fun s => ListBids s chainID height) in
          ret (a, v, b))) in
  if negb (bool_decide (ValidatorAddress auction = val_Address proposer)) then
    fail (Errorf "auction failed because proposer changed")
  else
    buildBlock c auction allBids mempool maxBytes maxGas "compute winning bids"
      now.

Definition ServiceBuildV1 (c : Chain) (buildHeight : Z) (validatorAddr : string)
    (maxBytes maxGas : Z) (mempool : list bytes) (signature : bytes)
    (now : Time) : M (list bytes * (Z * string)) :=
  let chainID := ID c in
  let* ch := wrapErr "query for chain" (readR (fun s => SelectChain s chainID)) in
  let mekatekPaymentAddress := sc_MekatekPaymentAddress ch in
  let paymentDenom := sc_PaymentDenom ch in
  let* latestHeight := wrapErr "get latest height" (lift (LatestHeight c)) in
  let* vs := wrapErr "get validator set" (lift (GetValidatorSet c latestHeight)) in
  if negb (vs_Height vs =? latestHeight) then
    fail (Errorf "mismatch: latest height, validator set height")
  else
    run liftE (checkHeightWindow chainID latestHeight 2 buildHeight) in
    (
      let* p := wrapErr "predict proposer for build height"
                  (lift (PredictProposer c vs buildHeight)) in
      if negb (bool_decide (cv_Address p = validatorAddr)) then
        fail (Errorf "wrong proposer for height")
      else
        let txsHash := mekabuild_HashTxs mempool in
        let msg := mekabuild_BuildBlockRequestSignBytes chainID buildHeight
                     validatorAddr maxBytes maxGas txsHash in
        run liftE (VerifySignature c (cv_PubKeyType p) (cv_PubKeyBytes p)
                     msg signature) in
        let v := mkValidator chainID (cv_Address p) (cv_Moniker p)
                   (cv_PubKeyBytes p) (cv_PubKeyType p) (cv_PaymentAddress p)
                   0 0 in
        run write (fun s => UpsertValidator s v now) in
        let* '(auction, allBids) :=
          wrapErr "claim failed"
            (Transact
               (let* a := findOrCreateAuction chainID buildHeight vs
                            (cv_Address p) (cv_PaymentAddress p)
                            mekatekPaymentAddress paymentDenom now in
                if negb (IsZero (FinishedAt a)) then
                  fail (Sentinel ErrAuctionFinished)
                else if negb (bool_decide (cv_Address p = ValidatorAddress a))
                then fail (Errorf "mismatched validators")
                else
                  let a := auction_set_FinishedAt a now in
                  let* a := (fun s => let '(s', a') := UpsertAuction s a now in
                                      (s', Ok a')) in
                  let* b := read (fun s => ListBids s chainID buildHeight) in
                  ret (a, b))) in
        buildBlock c auction allBids mempool maxBytes maxGas
          "compute block order" now).

(** ** Vocabulary of the statements *)

(** The chain is in the store and answers: it reports the latest height [L]
    and a validator set of that height. *)
Definition chainReady (c : Chain) (s : Store) (L : Z) : Prop :=
  is_Some (chains s !! ID c) /\
  LatestHeight c = Ok L /\
  exists vs, GetValidatorSet c L = Ok vs /\ vs_Height vs = L.

(** The payments that [evaluateBid] finds in a bid. *)
Definition bidPayments (c : Chain) (auction : Auction) (bid : Bid) : payAcc :=
  snd (evalTxs c auction (Txs bid) payAcc0).

(** The two differences that [evaluateBid] compares with the tolerance. *)
Definition validatorAllocationDiff (alloc : float) (vp total : Z) : float :=
  PrimFloat.abs (alloc - float64_of_int64 vp / float64_of_int64 total)%float.
Definition mekatekAllocationDiff (alloc : float) (mp total : Z) : float :=
  PrimFloat.abs ((1 - alloc) - float64_of_int64 mp / float64_of_int64 total)%float.


(** Every challenge is stored under the text of its own identifier, which is
    how [InsertChallenge] stores it. *)
Definition challengesKeyed (s : Store) : Prop :=
  forall (k : string) (x : Challenge),
    challenges s !! k = Some x -> UUID_String (ch_ID x) = k.

(** The auction of a chain and height exists and is finished. *)
Definition finished (s : Store) (chainID : string) (height : Z) : Prop :=
  exists a, auctions s !! (chainID, height) = Some a /\
            IsZero (FinishedAt a) = false.

(** A computation that leaves finished auctions finished. *)
Definition keepsFinished {A} (m : M A) : Prop :=
  forall (s : Store) (chainID : string) (height : Z),
    finished s chainID height -> finished (fst (m s)) chainID height.

(** A request for [height] gets as far as looking the auction up in
    [verifyAuction]: the chain is in the store and answers, the height is in
    the window, the proposer is predicted and registered. *)
Definition reachesAuction (c : Chain) (s : Store) (height offset : Z) : Prop :=
  exists (L : Z) (vs : ValidatorSet) (p : ChainValidator),
    chainReady c s L /\
    GetValidatorSet c L = Ok vs /\
    checkHeightWindow (ID c) L offset height = None /\
    PredictProposer c vs height = Ok p /\
    is_Some (validators s !! (ID c, cv_Address p)).

(** The same for [BuildV1], which wants the caller to be the proposer and
    the request signed, and not the proposer registered. *)
Definition reachesAuctionV1 (c : Chain) (s : Store) (height : Z)
    (validatorAddr : string) (maxBytes maxGas : Z) (mempool : list bytes)
    (signature : bytes) : Prop :=
  exists (L : Z) (vs : ValidatorSet) (p : ChainValidator),
    chainReady c s L /\
    GetValidatorSet c L = Ok vs /\
    checkHeightWindow (ID c) L 2 height = None /\
    PredictProposer c vs height = Ok p /\
    cv_Address p = validatorAddr /\
    VerifySignature c (cv_PubKeyType p) (cv_PubKeyBytes p)
      (mekabuild_BuildBlockRequestSignBytes (ID c) height validatorAddr
         maxBytes maxGas (mekabuild_HashTxs mempool)) signature = None.

Definition bid_set_Txs (b : Bid) (txbs : list bytes) : Bid :=
  mkBid (bid_ID b) (bid_ChainID b) (bid_Height b) (Kind b) txbs (Priority b)
        (MekatekPayment b) (ValidatorPayment b) (Payments b) (State b)
        (bid_CreatedAt b) (bid_UpdatedAt b).

(** A transaction that [evaluateBid] passes over: it does not decode, or it
    decodes and does not encode again. *)
Definition unusable (c : Chain) (txb : bytes) : Prop :=
  match DecodeTransaction c txb with
  | Err _ => True
  | Ok tx => is_Err (EncodeTransaction c tx) = true
  end.

(** What the walk keeps true: the hashes of the winners are claimed, and
    they are all different if no winner repeats a transaction of its own. *)
Definition walkInv (st : walkState) : Prop :=
  (forall h, h ∈ HashTx <$> concat (Txs <$> winningBids st) -> h ∈ claimedTxs st) /\
  (Forall (fun b => NoDup (HashTx <$> Txs b)) (winningBids st) ->
   NoDup (HashTx <$> concat (Txs <$> winningBids st))).

(** The bytes and the gas of a transaction as the chain reports them, 0
    when it does not; their sums over a list of transactions, in unbounded
    integers. *)
Definition txBytesOf (c : Chain) (tx : bytes) : Z :=
  match getTxBytes c tx with Ok n => n | Err _ => 0 end.
Definition txGasOf (c : Chain) (tx : bytes) : Z :=
  match getTxGas c tx with Ok n => n | Err _ => 0 end.

Definition sumBytes (c : Chain) (l : list bytes) : Z :=
  foldr (fun tx acc => txBytesOf c tx + acc) 0 l.
Definition sumGas (c : Chain) (l : list bytes) : Z :=
  foldr (fun tx acc => txGasOf c tx + acc) 0 l.

(** Both lookups of a transaction succeed. *)
Definition sizedTx (c : Chain) (tx : bytes) : Prop :=
  is_Err (getTxBytes c tx) = false /\ is_Err (getTxGas c tx) = false.

Definition nonnegTx (c : Chain) (tx : bytes) : Prop :=
  0 <= txBytesOf c tx /\ 0 <= txGasOf c tx.

(** The transactions of a packing, in the order of the block. *)
Definition blockOf (st : selectState) : list bytes :=
  concat (txs <$> bundles st).

(** What the packing keeps true: the totals are the sums over the block,
    within the limits, and below a bound [B], [G] that leaves room for what
    is still to come. *)
Definition packInv (c : Chain) (mb mg B G : Z) (st : selectState) : Prop :=
  totalBytes st = sumBytes c (blockOf st) /\
  totalGas st = sumGas c (blockOf st) /\
  0 <= totalBytes st <= mb /\ 0 <= totalGas st <= mg /\
  totalBytes st <= B /\ totalGas st <= G.

End Zenith.

(** ** package chain: the two caches of validator sets

    Both caches keep their bookkeeping under one mutex, which [get] and [del]
    (condCache), [item] and [del] (ringCache) hold from entry to exit: these
    are the atomic steps below. A [Get] is such a step, the call of [fill],
    which touches no bookkeeping, and then the steps of the miss path. *)

Section Caches.

Context {K : Type} `{Countable K} {V : Type}.
Variable zeroval : V.

(** *** condCache *)

Record condItem : Type := mkCondItem {
  ci_val : V;
  ci_err : option error;
  ci_ready : bool
}.

Definition newCondItem : condItem := mkCondItem zeroval None false.

(** [condItem.set]: only the first call writes. *)
Definition condItem_set (x : condItem) (val : V) (err : option error) : condItem :=
  if ci_ready x then x else mkCondItem val err true.

(** [seq] holds the keys from the least to the most recently accessed. *)
Fixpoint removeFirst (key : K) (set : list K) : list K :=
  match set with
  | [] => []
  | k :: set' => if bool_decide (k = key) then set' else k :: removeFirst key set'
  end.

(** [seq.poke]: the keys to remove, and the line after the call. The deferred
    function cuts [len - max] keys off the front when that is positive. *)
Definition seq_poke (max : Z) (set : list K) (key : K) : list K * list K :=
  let set1 := removeFirst key set ++ [key] in
  let d := Z.of_nat (length set1) - max in
  if 0 <? d then (take (Z.to_nat d) set1, drop (Z.to_nat d) set1)
  else ([], set1).

(** [seq.drop]. The line never holds a key twice (see [condInv]), and for
    such a line the loop of the source removes the one occurrence. *)
Definition seq_drop (set : list K) (key : K) : list K := removeFirst key set.

Record condCache : Type := mkCondCache {
  limit : Z;
  cache : gmap K condItem;
  order : list K
}.

Definition newCondCache (lim : Z) : condCache := mkCondCache lim ∅ [].

Definition condCache_Len (c : condCache) : Z := Z.of_nat (size (cache c)).

Definition deleteAll (kills : list K) (m : gmap K condItem) : gmap K condItem :=
  fold_left (fun m kill => delete kill m) kills m.

(** [condCache.get]: the item and whether it can be used as it is; the
    deferred poke runs after the item has been looked up or put in. *)
Definition condCache_get (c : condCache) (key : K)
  : condCache * (condItem * bool) :=
  let '(item, valid, cache1) :=
    match cache c !! key with
    | Some item => (item, true, cache c)
    | None => (newCondItem, false, <[key := newCondItem]> (cache c))
    end in
  let '(remove, order') := seq_poke (limit c) (order c) key in
  (mkCondCache (limit c) (deleteAll remove cache1) order', (item, valid)).

Definition condCache_del (c : condCache) (key : K) : condCache :=
  mkCondCache (limit c) (delete key (cache c)) (seq_drop (order c) key).

(** [condCache.Get] run on its own, with the outcome of [fill] given. A
    valid item is read with [condItem.get], which waits for the item to be
    ready: [None] stands for a call that would wait for ever. On a miss the
    item that was put in is set through the pointer the caller holds, so the
    cache sees the value if the key is still there. *)
Definition condCache_Get (c : condCache) (key : K) (fill : K -> V * option error)
  : condCache * option (V * option error) :=
  let '(c1, (item, valid)) := condCache_get c key in
  if valid then
    (c1, if ci_ready item then Some (ci_val item, ci_err item) else None)
  else
    let '(val, err) := fill key in
    let c2 := match err with Some _ => condCache_del c1 key | None => c1 end in
    let c3 := mkCondCache (limit c2)
                (alter (fun x => condItem_set x val err) key (cache c2))
                (order c2) in
    (c3, Some (val, err)).

(** *** ringCache *)

Record ringItem : Type := mkRingItem {
  ri_key : K;
  ri_value : V;
  ri_err : option error;
  ri_ok : bool
}.

Record ringCache : Type := mkRingCache {
  index : gmap K nat;
  ring : list (option ringItem);
  head : nat
}.

Definition newRingCache (capacity : nat) : ringCache :=
  mkRingCache ∅ (replicate capacity None) 0.

Definition ringCache_Len (c : ringCache) : Z := Z.of_nat (size (index c)).

(** [ringCache.item]: the slot of the key and the item in it. [None] is the
    run-time panic of an index out of range, which a ring of no slots
    gives. *)
Definition ringCache_item (c : ringCache) (k : K)
  : option (ringCache * (nat * ringItem)) :=
  match index c !! k with
  | Some pos =>
      match ring c !! pos with
      | Some (Some it) => Some (c, (pos, it))
      | _ => None
      end
  | None =>
      match ring c !! head c with
      | None => None
      | Some old =>
          let index1 := match old with
                        | Some o => delete (ri_key o) (index c)
                        | None => index c
                        end in
          let it := mkRingItem k zeroval None false in
          Some (mkRingCache (<[k := head c]> index1)
                            (<[head c := Some it]> (ring c))
                            ((head c + 1) mod length (ring c))%nat,
                (head c, it))
      end
  end.

Definition ringCache_del (c : ringCache) (k : K) : ringCache :=
  match index c !! k with
  | None => c
  | Some pos => mkRingCache (delete k (index c)) (<[pos := None]> (ring c)) (head c)
  end.

(** [ringCache.Get] run on its own, with the outcome of [fill] given: an
    item that is not yet filled is filled in place. *)
Definition ringCache_Get (c : ringCache) (k : K) (fill : K -> V * option error)
  : option (ringCache * (V * option error)) :=
  match ringCache_item c k with
  | None => None
  | Some (c1, (pos, it)) =>
      if ri_ok it then Some (c1, (ri_value it, ri_err it))
      else
        let '(v, err) := fill k in
        let c2 := mkRingCache (index c1)
                    (<[pos := Some (mkRingItem (ri_key it) v err true)]> (ring c1))
                    (head c1) in
        let c3 := match err with Some _ => ringCache_del c2 k | None => c2 end in
        Some (c3, (v, err))
  end.

(** *** Calls in a row, and what stays true of the bookkeeping *)

(** A call of [Get] with the answer that [fill] gives if it is asked, or a
    call of [Len]. *)
Inductive cacheCall : Type :=
  | CallGet (k : K) (filled : V * option error)
  | CallLen.

Definition condCache_call (c : condCache) (call : cacheCall) : condCache :=
  match call with
  | CallGet k filled => fst (condCache_Get c k (fun _ => filled))
  | CallLen => c
  end.

Definition condCache_run (c : condCache) (calls : list cacheCall) : condCache :=
  fold_left condCache_call calls c.

Definition ringCache_call (oc : option ringCache) (call : cacheCall)
  : option ringCache :=
  match oc, call with
  | None, _ => None
  | Some c, CallGet k filled => fst <$> ringCache_Get c k (fun _ => filled)
  | Some c, CallLen => Some c
  end.

Definition ringCache_run (c : ringCache) (calls : list cacheCall)
  : option ringCache :=
  fold_left ringCache_call calls (Some c).

(** The line of the condCache holds each key of the map once and nothing
    else, and is no longer than the limit. *)
Definition condInv (c : condCache) : Prop :=
  NoDup (order c) /\
  (forall k, k ∈ order c <-> is_Some (cache c !! k)) /\
  Z.of_nat (length (order c)) <= limit c.

(** Every key of the index of the ringCache points at a slot that holds an
    item of that key; the head is a slot of the ring. *)
Definition ringInv (c : ringCache) : Prop :=
  (forall k pos, index c !! k = Some pos ->
     exists it, ring c !! pos = Some (Some it) /\ ri_key it = k) /\
  (head c < length (ring c))%nat.

End Caches.

(** * The rest of the store, the cached chain, the service manager and
    the handlers of package [api] *)

(** ** package memstore: chains, and the order of a [range] *)

Section MemstoreChains.

Context {ext : External}.

Definition set_chains (s : Store) (m : gmap string StoreChain) : Store :=
  mkStore (bids s) (auctions s) (challenges s) (validators s) m.

(** [UpsertChain]: an update overwrites the whole row with the caller's
    chain, the creation time included, and stamps [UpdatedAt]; a creation
    stamps both times. *)
Definition UpsertChain (s : Store) (c : StoreChain) (now : Time) : Store :=
  match chains s !! sc_ID c with
  | Some existing =>
      set_chains s
        (<[sc_ID c := mkStoreChain (sc_ID c) (sc_Network c) (sc_PaymentDenom c)
                        (sc_MekatekPaymentAddress c) (sc_CreatedAt c) now]>
           (chains s))
  | None =>
      set_chains s
        (<[sc_ID c := mkStoreChain (sc_ID c) (sc_Network c) (sc_PaymentDenom c)
                        (sc_MekatekPaymentAddress c) now now]>
           (chains s))
  end.

(** [ListValidators] and [ListChains] collect the rows with [range] over a
    Go map, whose order is not fixed, and sort them. [ranged] is the rows in
    the order in which one run of the loop meets them. *)
Definition ListValidatorsIn (ranged : list Validator) (chainID : string)
  : list Validator :=
  SliceStable (fun v1 v2 => String.ltb (val_Address v1) (val_Address v2))
    (filter (fun v => val_ChainID v = chainID) ranged).

Definition ListChainsIn (ranged : list StoreChain) : list StoreChain :=
  SliceStable (fun c1 c2 => String.ltb (sc_ID c1) (sc_ID c2)) ranged.

Definition ListChains (s : Store) : list StoreChain :=
  ListChainsIn (snd <$> map_to_list (chains s)).

(** Every row of the store is filed under the key that its own fields
    spell. *)
Definition rowsKeyed (s : Store) : Prop :=
  (forall k l, bids s !! k = Some l ->
     Forall (fun b => (bid_ChainID b, bid_Height b) = k) l) /\
  (forall k a, auctions s !! k = Some a -> (ChainID a, Height a) = k) /\
  challengesKeyed s /\
  (forall k v, validators s !! k = Some v -> (val_ChainID v, val_Address v) = k) /\
  (forall k c, chains s !! k = Some c -> sc_ID c = k).

(** Two auctions that differ at most in [FinishedAt]. *)
Definition sameTerms (a a' : Auction) : Prop :=
  auction_set_FinishedAt a (FinishedAt a') = a'.

(** Every auction of the first store is in the second, with its terms. *)
Definition termsKept (s s' : Store) : Prop :=
  forall (k : string * Z) (a : Auction),
    auctions s !! k = Some a ->
    exists a', auctions s' !! k = Some a' /\ sameTerms a a'.

(** The second store has its rows keyed if the first has. *)
Definition keyedAfter (s s' : Store) : Prop := rowsKeyed s -> rowsKeyed s'.

(** What the payments of a list draw from one address. *)
Definition drawnFrom (addr : string) (ps : list Payment) : Z :=
  foldr (fun p acc => if bool_decide (pay_From p = addr)
                      then pay_Amount p + acc else acc) 0 ps.

End MemstoreChains.

(** [x] does not come after [y] in the order of [less]. *)
Definition notAfter {A : Type} (less : A -> A -> bool) (x y : A) : Prop :=
  less y x = false.

(** ** Vocabulary of the statements about the store and the requests *)

Section RequestVocabulary.

Context {ext : External}.

(** What [UpdateBids] may change in a stored bid. *)
Definition sameBidButState (o o' : Bid) : Prop :=
  bid_set_State_UpdatedAt o (State o') (bid_UpdatedAt o') = o'.

(** What a successful [verifyAuction] has gone through. *)
Definition verified (c : Chain) (h off : Z) (now : Time) (s s1 : Store)
    (a : Auction) (v : Validator) : Prop :=
  exists (ch : StoreChain) (L : Z) (vs : ValidatorSet) (p : ChainValidator),
    chains s !! ID c = Some ch /\
    LatestHeight c = Ok L /\
    GetValidatorSet c L = Ok vs /\
    vs_Height vs = L /\
    checkHeightWindow (ID c) L off h = None /\
    PredictProposer c vs h = Ok p /\
    validators s !! (ID c, cv_Address p) = Some v /\
    findOrCreateAuction (ID c) h vs (val_Address v) (val_PaymentAddress v)
      (sc_MekatekPaymentAddress ch) (sc_PaymentDenom ch) now s = (s1, Ok a) /\
    IsZero (FinishedAt a) = true /\
    val_Address v = ValidatorAddress a.

(** The bids as [selectTransactions] and [computeOrder] hand them back. *)
Definition markAccepted (b : Bid) : Bid := bid_set_State b BidStateAccepted.
Definition markRejected (b : Bid) : Bid := bid_set_State b BidStateRejected.

(** The bundle that [selectTransactions] makes of an accepted bid, and of a
    transaction of the mempool. *)
Definition bidBundle (eb : Bid) : txBundle :=
  mkTxBundle ("bid " +:+ UUID_String (bid_ID eb)) (Txs eb)
    (ValidatorPayment eb) (MekatekPayment eb).
Definition mempoolBundle (tx : bytes) : txBundle := mkTxBundle "mempool" [tx] 0 0.

End RequestVocabulary.

Section KeepsDef.
Context {ext : External}.

(** A computation that takes every store to one that [R] relates to it. *)
Definition keeps (R : relation Store) {A} (m : M A) : Prop :=
  forall s : Store, R s (fst (m s)).

End KeepsDef.

(** ** package chain: cache.go *)

Section CachedChainDef.

Context {ext : External}.

(** [Chain.ValidatorSet] as the [fill] of a cache of validator sets: the
    pointer and the error that the call returns. *)
Definition validatorSetFill (chain : Chain) (height : Z)
  : option ValidatorSet * option error :=
  match GetValidatorSet chain height with
  | Ok vs => (Some vs, None)
  | Err e => (None, Some e)
  end.

(** The cache of [WithCondCache]. *)
Definition WithCondCache : @condCache Z _ _ (option ValidatorSet) :=
  newCondCache 100.

(** [CachedChain.ValidatorSet], for the chain as the call finds it. *)
Definition CachedChain_ValidatorSet
    (cache : @condCache Z _ _ (option ValidatorSet)) (chain : Chain)
    (targetHeight : Z)
  : @condCache Z _ _ (option ValidatorSet)
    * option (option ValidatorSet * option error) :=
  condCache_Get None cache targetHeight (validatorSetFill chain).

(** Calls of [ValidatorSet] in a row: the cache they leave and their
    answers. *)
Fixpoint CachedChain_run (cache : @condCache Z _ _ (option ValidatorSet))
    (calls : list (Chain * Z))
  : @condCache Z _ _ (option ValidatorSet)
    * list (option (option ValidatorSet * option error)) :=
  match calls with
  | [] => (cache, [])
  | (chain, h) :: rest =>
      let '(cache1, r) := CachedChain_ValidatorSet cache chain h in
      let '(cache2, rs) := CachedChain_run cache1 rest in
      (cache2, r :: rs)
  end.

(** What the cache of a [CachedChain] holds: answers without an error that
    some chain of [hist] gave for the height. *)
Definition genuine (hist : list (Chain * Z))
    (c : @condCache Z _ _ (option ValidatorSet)) : Prop :=
  forall (k : Z) (item : condItem),
    cache c !! k = Some item ->
    ci_ready item = true /\ ci_err item = None /\
    exists chain0, (chain0, k) ∈ hist /\
                   validatorSetFill chain0 k = (ci_val item, None).

End CachedChainDef.

(** ** package block: the services and their manager *)

Section Manager.

Context {ext : External}.

(** The [Service] interface: a value is the methods of one implementation.
    The readings of the clock, of the random source and of the UUID
    generator that a call makes are among its arguments, as they are for the
    functions of [CoreService] above. *)
Record Service : Type := mkService {
  svc_ChainID : string;
  svc_Ping : M unit;
  svc_Auction : Z -> Time -> M Auction;
  svc_Bid : Z -> string -> list bytes -> result UUID -> Time -> M Bid;
  svc_Apply : string -> string -> bytes -> result UUID -> Time -> M Challenge;
  svc_Register : string -> bytes -> Time -> M Validator;
  svc_Build : Z -> string -> Z -> Z -> list bytes -> bytes -> Time
              -> M (list bytes * (Z * string));
  svc_BuildV1 : Z -> string -> Z -> Z -> list bytes -> bytes -> Time
                -> M (list bytes * (Z * string))
}.

(** [CoreService.Ping] asks the store, and the in-memory store answers
    [nil]. *)
Definition ServicePing : M unit := ret tt.

Definition NewCoreService (c : Chain) : Service :=
  mkService (ID c) ServicePing (ServiceAuction c) (ServiceBid c)
    (ServiceApply c) (ServiceRegister c) (ServiceBuild c) (ServiceBuildV1 c).

(** The three functions that [NewServiceManager] is given. *)
Record managerFuncs : Type := mkManagerFuncs {
  allow : StoreChain -> bool;
  convert : StoreChain -> result Chain;
  create : Chain -> Service
}.

(** A manager made by [NewServiceManager] has a store and the three
    functions; one made by [NewStaticServiceManager] has neither, which is
    [None] here. *)
Record ServiceManager : Type := mkServiceManager {
  sm_store : option managerFuncs;
  managed : gmap string Service
}.

Definition NewServiceManager (allow : StoreChain -> bool)
    (convert : StoreChain -> result Chain) (create : Chain -> Service)
  : ServiceManager :=
  mkServiceManager (Some (mkManagerFuncs allow convert create)) ∅.

Definition NewStaticServiceManager (services : list Service) : ServiceManager :=
  mkServiceManager None
    (fold_left (fun managed s => <[svc_ChainID s := s]> managed) services ∅).

(** The first loop of [Refresh]: the chains of the store that are allowed,
    converted; the first conversion that fails ends the refresh. *)
Fixpoint convertAllowed (fs : managerFuncs) (storeChains : list StoreChain)
  : result (list Chain) :=
  match storeChains with
  | [] => Ok []
  | sc :: rest =>
      if negb (allow fs sc) then convertAllowed fs rest
      else
        match convert fs sc with
        | Err e => Err (Wrapf ("convert chain ID " +:+ sc_ID sc) e)
        | Ok cc =>
            match convertAllowed fs rest with
            | Ok chainChains => Ok (cc :: chainChains)
            | Err e => Err e
            end
        end
  end.

(** The second loop: a service is created for every chain, whether or not
    one was managed under its identifier. *)
Definition nextgen (fs : managerFuncs) (chainChains : list Chain)
  : gmap string Service :=
  fold_left (fun nextgen cc => <[ID cc := create fs cc]> nextgen) chainChains ∅.

Definition Refresh (m : ServiceManager) (s : Store)
  : ServiceManager * option error :=
  match sm_store m with
  | None =>
      (m, Some (Errorf "refresh on static service manager (no store)"))
  | Some fs =>
      match convertAllowed fs (ListChains s) with
      | Err e => (m, Some e)
      | Ok chainChains =>
          (mkServiceManager (Some fs) (nextgen fs chainChains), None)
      end
  end.

Definition GetService (m : ServiceManager) (chainID : string) : option Service :=
  managed m !! chainID.

End Manager.

(** ** package api *)

(** What a handler writes: the body of [respondOK], or the code and the
    error of [respondError], with the flag of [classifyError]. *)
Inductive response {A : Type} : Type :=
  | respondOK (body : A)
  | respondedError (code : Z) (trueError : bool) (err : error).
Arguments response : clear implicits.

Section Api.

Context {ext : External}.

(** The status codes of [net/http] that the handlers use. *)
Definition StatusOK : Z := 200.
Definition StatusBadRequest : Z := 400.
Definition StatusUnauthorized : Z := 401.
Definition StatusNotFound : Z := 404.
Definition StatusGone : Z := 410.
Definition StatusExpectationFailed : Z := 417.
Definition StatusTooEarly : Z := 425.
Definition StatusInternalServerError : Z := 500.

(** [classifyError]: the status code, and whether the error is logged as
    one. *)
Definition classifyError (err : option error) (fallback : Z) : Z * bool :=
  match err with
  | None => (StatusOK, false)
  | Some e =>
      if errors_Is e ErrAuctionFinished then (StatusGone, false)
      else if errors_Is e ErrAuctionTooNew then (StatusTooEarly, false)
      else if errors_Is e ErrAuctionTooOld then (StatusGone, false)
      else if errors_Is e ErrAuctionUnavailable then (StatusExpectationFailed, false)
      else if errors_Is e ErrBadSignature then (StatusUnauthorized, true)
      else if errors_Is e ErrNotFound then (StatusNotFound, true)
      else if errors_Is e ErrInvalidRequest then (StatusBadRequest, true)
      else (fallback, true)
  end.

Definition respondError {A} (err : error) (fallbackCode : Z) : response A :=
  let '(code, trueError) := classifyError (Some err) fallbackCode in
  respondedError code trueError err.

(** The errors of package [api] are made with [errors.New] and
    [fmt.Errorf] and never compared with: they are their messages. *)
Definition ErrUnknownChainID : error := Errorf "unknown chain ID".
Definition ErrNoChainID : error := Errorf "no chain ID".
Definition ErrNoValidatorAddress : error := Errorf "no validator address".
Definition ErrNoPaymentAddress : error := Errorf "no payment address".
Definition ErrNoChallengeID : error := Errorf "no challenge ID".
Definition ErrNoSignature : error := Errorf "no signature".

(** [multiError]: [None] is the nil pointer, [Some errs] the
    [multierror.Error] with its errors. *)
Definition multiError : Type := option (list error).

Definition addIf (m : multiError) (b : bool) (err : error) : multiError :=
  if b then Some (default [] m ++ [err]) else m.

(** [yield] gives the errors collected; the handlers only ever wrap and
    print them. *)
Definition yield (m : multiError) : option (list error) :=
  match m with
  | None => None
  | Some [] => None
  | Some errs => Some errs
  end.

Record registerRequest : Type := mkRegisterRequest {
  rr_ChainID : string;
  rr_ValidatorAddress : string;
  rr_PaymentAddress : string;
  rr_ChallengeID : string;
  rr_Signature : bytes
}.

Definition isApplyRequest (req : registerRequest) : bool :=
  bool_decide (rr_ChallengeID req = ""%string).

Definition isRegisterRequest (req : registerRequest) : bool :=
  negb (isApplyRequest req).

Definition registerRequest_validate (req : registerRequest)
  : option (list error) :=
  let merr : multiError := None in
  if isApplyRequest req then
    let merr := addIf merr (bool_decide (rr_ChainID req = ""%string)) ErrNoChainID in
    let merr := addIf merr (bool_decide (rr_ValidatorAddress req = ""%string))
                  ErrNoValidatorAddress in
    let merr := addIf merr (bool_decide (rr_PaymentAddress req = ""%string))
                  ErrNoPaymentAddress in
    yield merr
  else if isRegisterRequest req then
    let merr := addIf merr (bool_decide (rr_ChallengeID req = ""%string))
                  ErrNoChallengeID in
    let merr := addIf merr (Z.of_nat (length (rr_Signature req)) =? 0)
                  ErrNoSignature in
    yield merr
  else yield merr.

Record bidRequest : Type := mkBidRequest {
  br_ChainID : string;
  br_Height : Z;
  br_Kind : string;
  br_Txs : list bytes
}.

Definition bidRequest_validate (req : bidRequest) : option (list error) :=
  let merr : multiError := None in
  let merr := addIf merr (bool_decide (br_ChainID req = ""%string)) ErrNoChainID in
  let merr := addIf merr (br_Height req <=? 0) (Errorf "invalid height") in
  yield merr.

Record auctionRequest : Type := mkAuctionRequest {
  ar_ChainID : string;
  ar_Height : Z
}.

Definition auctionRequest_validate (req : auctionRequest) : option (list error) :=
  let merr : multiError := None in
  let merr := addIf merr (bool_decide (ar_ChainID req = ""%string)) ErrNoChainID in
  let merr := addIf merr (ar_Height req <=? 0) (Errorf "invalid height") in
  yield merr.

(** [mekabuild.BuildBlockRequest]. *)
Record BuildBlockRequest : Type := mkBuildBlockRequest {
  bb_ChainID : string;
  bb_Height : Z;
  bb_ValidatorAddress : string;
  bb_MaxBytes : Z;
  bb_MaxGas : Z;
  bb_Txs : list bytes;
  bb_Signature : bytes
}.

Definition validateBuildBlockRequest (req : BuildBlockRequest)
  : option (list error) :=
  let merr : multiError := None in
  let merr := addIf merr (bool_decide (bb_ChainID req = ""%string))
                (Errorf "chain ID missing") in
  let merr := addIf merr (bb_Height req <=? 0) (Errorf "height missing") in
  let merr := addIf merr (Z.of_nat (length (bb_Signature req)) <=? 0)
                (Errorf "signature missing") in
  let merr := addIf merr (bool_decide (bb_ValidatorAddress req = ""%string))
                (Errorf "validator address missing") in
  yield merr.


(** The text of an error, [Error()]. The sentinels have the texts of the
    source. [Wrapf msg e] stands for a format with the verb [%w], of which
    [msg] is the label, and prints as the label, a colon and the text of
    [e]. The errors of a failed validation are all made from a message
    alone, and theirs is the text of the source. *)
Definition sentinelText (s : sentinel) : string :=
  match s with
  | ErrInvalidRequest => "invalid request"
  | ErrAuctionUnavailable => "auction unavailable"
  | ErrAuctionTooOld => "auction too far in the past"
  | ErrAuctionTooNew => "auction too far in the future"
  | ErrAuctionFinished => "auction already finished"
  | ErrNotFound => "not found"
  | ErrInvalidKey => "invalid key"
  | ErrBadSignature => "bad signature"
  | ErrNoPayment => "no payment"
  end.

Fixpoint Error (e : error) : string :=
  match e with
  | Sentinel s => sentinelText s
  | Errorf msg => msg
  | Wrapf msg e' => msg +:+ ": " +:+ Error e'
  end.

(** [joinErrorStrings], the format of the [multierror.Error] of a failed
    validation. That error holds none of the sentinels that
    [classifyError] looks for, so it is kept as its text. *)
Definition joinErrorStrings (errs : list error) : string :=
  String.concat "; " (Error <$> errs).

Definition validationError (errs : list error) : error :=
  Errorf (joinErrorStrings errs).

(** [cryptoutil.HashTxs]. *)
Definition HashTxs (txbs : list bytes) : list string := HashTx <$> txbs.

Record payment : Type := mkApiPayment {
  p_Address : string;
  p_Allocation : float;
  p_Denom : string
}.

Definition paymentsFor (a : Auction) : list payment :=
  [ mkApiPayment (ValidatorPaymentAddress a) (ValidatorAllocation a)
      (PaymentDenom a);
    mkApiPayment (MekatekPaymentAddress a) (1 - ValidatorAllocation a)%float
      (PaymentDenom a) ].

Record auctionResponse : Type := mkAuctionResponse {
  aresp_ChainID : string;
  aresp_Height : Z;
  aresp_Payments : list payment
}.

Record bidResponse : Type := mkBidResponse {
  bresp_ChainID : string;
  bresp_Height : Z;
  bresp_Kind : string;
  bresp_TxHashes : list string
}.

Definition BidKind_string (k : BidKind) : string :=
  match k with BidKindTop => "top" | BidKindBlock => "block" end.

(** [mekabuild.BuildBlockResponse]; the payment is the amount and the
    denomination that the service prints one after the other. *)
Record BuildBlockResponse : Type := mkBuildBlockResponse {
  bbresp_Txs : list bytes;
  bbresp_ValidatorPayment : Z * string
}.

(** The handlers, from the request as the decoder leaves it ([Err] when
    the body cannot be decoded) to what is written back. *)

(** The end of [parseAuctionRequest]: the request that the readers have
    filled in is validated. [read] is that request, or the error with which
    the function returns when the reader that the content type names
    fails. *)
Definition parseAuctionRequest (read : result auctionRequest)
  : result auctionRequest :=
  match read with
  | Err e => Err e
  | Ok req =>
      match auctionRequest_validate req with
      | Some errs => Err (Wrapf "request invalid" (validationError errs))
      | None => Ok req
      end
  end.

Definition handleGetAuctionV0 (manager : ServiceManager)
    (read : result auctionRequest) (now : Time)
  : Store -> Store * response auctionResponse :=
  fun s =>
    match parseAuctionRequest read with
    | Err err =>
        (s, respondError (Wrapf "parse auction request" err) StatusBadRequest)
    | Ok req =>
        match GetService manager (ar_ChainID req) with
        | None =>
            (s, respondError (Wrapf (ar_ChainID req) ErrUnknownChainID)
                  StatusBadRequest)
        | Some sv =>
            match svc_Auction sv (ar_Height req) now s with
            | (s', Err err) =>
                (s', respondError (Wrapf "get auction for" err)
                       StatusInternalServerError)
            | (s', Ok auction) =>
                (s', respondOK (mkAuctionResponse (ChainID auction)
                                  (Height auction) (paymentsFor auction)))
            end
        end
    end.

Definition handlePostBidV0 (manager : ServiceManager)
    (decoded : result bidRequest) (newV4 : result UUID) (now : Time)
  : Store -> Store * response bidResponse :=
  fun s =>
    match decoded with
    | Err err =>
        (s, respondError (Wrapf "decode bid request" err) StatusBadRequest)
    | Ok req =>
        match bidRequest_validate req with
        | Some errs =>
            (s, respondError (Wrapf "request invalid" (validationError errs))
                  StatusBadRequest)
        | None =>
            match GetService manager (br_ChainID req) with
            | None =>
                (s, respondError (Wrapf (br_ChainID req) ErrUnknownChainID)
                      StatusBadRequest)
            | Some sv =>
                match svc_Bid sv (br_Height req) (br_Kind req) (br_Txs req)
                        newV4 now s with
                | (s', Err err) =>
                    (s', respondError (Wrapf "bid on" err)
                           StatusInternalServerError)
                | (s', Ok bid) =>
                    (s', respondOK (mkBidResponse (bid_ChainID bid)
                                      (bid_Height bid)
                                      (BidKind_string (Kind bid))
                                      (HashTxs (Txs bid))))
                end
            end
        end
    end.

Definition handlePostBuildV0 (manager : ServiceManager)
    (decoded : result BuildBlockRequest) (now : Time)
  : Store -> Store * response BuildBlockResponse :=
  fun s =>
    match decoded with
    | Err err =>
        (s, respondError (Wrapf "decode build block request" err)
              StatusBadRequest)
    | Ok req =>
        match validateBuildBlockRequest req with
        | Some errs =>
            (s, respondError (Wrapf "invalid request" (validationError errs))
                  StatusBadRequest)
        | None =>
            match GetService manager (bb_ChainID req) with
            | None =>
                (s, respondError (Wrapf (bb_ChainID req) ErrUnknownChainID)
                      StatusBadRequest)
            | Some sv =>
                match svc_Build sv (bb_Height req) (bb_ValidatorAddress req)
                        (bb_MaxBytes req) (bb_MaxGas req) (bb_Txs req)
                        (bb_Signature req) now s with
                | (s', Err err) =>
                    (s', respondError (Wrapf "build block for" err)
                           StatusInternalServerError)
                | (s', Ok (txs, payment)) =>
                    (s', respondOK (mkBuildBlockResponse txs payment))
                end
            end
        end
    end.

Definition handlePostBuildV1 (manager : ServiceManager)
    (decoded : result BuildBlockRequest) (now : Time)
  : Store -> Store * response BuildBlockResponse :=
  fun s =>
    match decoded with
    | Err err =>
        (s, respondError (Wrapf "decode build block request" err)
              StatusBadRequest)
    | Ok req =>
        match validateBuildBlockRequest req with
        | Some errs =>
            (s, respondError (Wrapf "invalid request" (validationError errs))
                  StatusBadRequest)
        | None =>
            match GetService manager (bb_ChainID req) with
            | None =>
                (s, respondError (Wrapf (bb_ChainID req) ErrUnknownChainID)
                      StatusBadRequest)
            | Some sv =>
                match svc_BuildV1 sv (bb_Height req) (bb_ValidatorAddress req)
                        (bb_MaxBytes req) (bb_MaxGas req) (bb_Txs req)
                        (bb_Signature req) now s with
                | (s', Err err) =>
                    (s', respondError (Wrapf "build block for" err)
                           StatusInternalServerError)
                | (s', Ok (txs, payment)) =>
                    (s', respondOK (mkBuildBlockResponse txs payment))
                end
            end
        end
    end.

Record registerResponse : Type := mkRegisterResponse {
  rresp_ChallengeID : string;
  rresp_Challenge : bytes;
  rresp_Result : string
}.

(** [handlePostRegisterV0]. A register request carries no chain ID, and
    the handler takes it from the challenge in the store. *)
Definition handlePostRegisterV0 (manager : ServiceManager)
    (decoded : result registerRequest) (random32 : bytes)
    (newV4 : result UUID) (now : Time)
  : Store -> Store * response registerResponse :=
  fun s =>
    match decoded with
    | Err err =>
        (s, respondError (Wrapf "decode register request" err) StatusBadRequest)
    | Ok req =>
        match registerRequest_validate req with
        | Some errs =>
            (s, respondError (Wrapf "request invalid" (validationError errs))
                  StatusBadRequest)
        | None =>
            let lookedUp : result string :=
              if isRegisterRequest req
                 && bool_decide (rr_ChainID req = ""%string)
              then
                match SelectChallenge s (rr_ChallengeID req) with
                | Err err => Err err
                | Ok c => Ok (ch_ChainID c)
                end
              else Ok (rr_ChainID req) in
            match lookedUp with
            | Err err =>
                (s, respondError (Wrapf "look up challenge" err)
                      StatusInternalServerError)
            | Ok chainID =>
                match GetService manager chainID with
                | None =>
                    (s, respondError (Wrapf chainID ErrUnknownChainID)
                          StatusBadRequest)
                | Some sv =>
                    if isApplyRequest req then
                      match svc_Apply sv (rr_ValidatorAddress req)
                              (rr_PaymentAddress req) random32 newV4 now s with
                      | (s', Err err) =>
                          (s', respondError (Wrapf "apply" err)
                                 StatusInternalServerError)
                      | (s', Ok c) =>
                          (s', respondOK
                                 (mkRegisterResponse (UUID_String (ch_ID c))
                                    (ch_Challenge c) ""))
                      end
                    else
                      match svc_Register sv (rr_ChallengeID req)
                              (rr_Signature req) now s with
                      | (s', Err err) =>
                          (s', respondError (Wrapf "register" err)
                                 StatusInternalServerError)
                      | (s', Ok _) =>
                          (s', respondOK (mkRegisterResponse "" [] "success"))
                      end
                end
            end
        end
    end.

(** [getBestMediaType]. [mime.ParseMediaType] is the library's; only the
    media type that it returns is used. The result [None] is the run-time
    panic of [slice[0]] on an empty slice. *)
Definition parsedTypes (mime_ParseMediaType : string -> result string)
    (values : list string) : list string :=
  omap (fun v => match mime_ParseMediaType v with
                 | Ok mediaType => Some mediaType
                 | Err _ => None
                 end) values.

Definition getBestMediaType (mime_ParseMediaType : string -> result string)
    (inputValues prioritizedValues : list string) : option string :=
  if Z.of_nat (length inputValues) <=? 0 then Some ""%string
  else
    let slice := parsedTypes mime_ParseMediaType inputValues in
    let index : gset string := list_to_set slice in
    match find (fun mediaType => bool_decide (mediaType ∈ index))
            (parsedTypes mime_ParseMediaType prioritizedValues) with
    | Some mediaType => Some mediaType
    | None => slice !! 0%nat
    end.

End Api.

(** ** A small world for the examples

    Concrete stand-ins for what the repository takes from outside, a chain
    double in the manner of [chain.TestChain], and a store with one chain and
    one registered validator. *)

Module Example.

Definition asciiMap (lo hi : nat) (shift : nat -> nat) (a : Ascii.ascii)
  : Ascii.ascii :=
  let n := Ascii.nat_of_ascii a in
  if ((lo <=? n) && (n <=? hi))%nat then Ascii.ascii_of_nat (shift n) else a.

Fixpoint stringMap (f : Ascii.ascii -> Ascii.ascii) (s : string) : string :=
  match s with
  | EmptyString => EmptyString
  | String a s' => String (f a) (stringMap f s')
  end.

(** Lower and upper case on the ASCII letters. *)
Definition toLower : string -> string :=
  stringMap (asciiMap 65 90 (fun n => n + 32)%nat).
Definition toUpper : string -> string :=
  stringMap (asciiMap 97 122 (fun n => n - 32)%nat).

Definition hexDigit (n : N) : Ascii.ascii :=
  Ascii.ascii_of_N (if (n <? 10)%N then 48 + n else 87 + n)%N.

Fixpoint hexEncode (b : bytes) : string :=
  match b with
  | [] => EmptyString
  | x :: b' =>
      let n := Byte.to_N x in
      String (hexDigit (n / 16)%N) (String (hexDigit (n mod 16)%N) (hexEncode b'))
  end.

(** The hash is the place of SHA-256 taken by the concatenation: enough to
    tell the transactions of the examples apart. *)
#[export] Instance external : External := {|
  strings_ToLower := toLower;
  strings_ToUpper := toUpper;
  strings_EqualFold := fun a b => bool_decide (toLower a = toLower b);
  hex_EncodeToString := hexEncode;
  mekabuild_HashTxs := fun txbs => concat txbs;
  mekabuild_RegisterChallengeSignBytes := fun _ challenge => challenge;
  mekabuild_BuildBlockRequestSignBytes := fun _ _ _ _ _ txsHash => txsHash;
  UUID_String := fun id => pretty id;
  Message := string * string * Z
|}.

Definition pay (dst : string) (amount : Z) : @Message external :=
  ("alice"%string, dst, amount).

Definition mkTx (msgs : list (@Message external)) (nbytes gas : result Z) :=
  mkTransaction msgs nbytes gas.

(** The transactions of the examples, by their first byte. *)
Definition tx97 : bytes := [Byte.x01].
Definition tx96 : bytes := [Byte.x02].
Definition txNoGas : bytes := [Byte.x03].
Definition txGarbage : bytes := [Byte.x04].
Definition txPlain : bytes := [Byte.x05].
Definition txNoEncode : bytes := [Byte.x06].
Definition txBig : bytes := [Byte.x07].

Definition decode (txb : bytes) : result Transaction :=
  match txb with
  | [Byte.x01] =>
      Ok (mkTx [pay "val-pay" 97; pay "meka-pay" 3] (Ok 100) (Ok 10))
  | [Byte.x02] =>
      Ok (mkTx [pay "val-pay" 96; pay "meka-pay" 4] (Ok 100) (Ok 10))
  | [Byte.x03] =>
      Ok (mkTx [pay "val-pay" 97; pay "meka-pay" 3] (Ok 100)
            (Err (Errorf "not a gas transaction")))
  | [Byte.x05] => Ok (mkTx [] (Ok 40) (Ok 5))
  | [Byte.x06] => Ok (mkTx [pay "val-pay" 97; pay "meka-pay" 3] (Ok 60) (Ok 6))
  | [Byte.x07] => Ok (mkTx [pay "val-pay" 970; pay "meka-pay" 30] (Ok 900) (Ok 7))
  | _ => Err (Errorf "cannot decode")
  end.

Definition encode (tx : Transaction) : result bytes :=
  match GasAmount tx with
  | Err _ => Ok txNoGas
  | Ok 10 =>
      match Messages tx with
      | (_, _, 97) :: _ => Ok tx97
      | _ => Ok tx96
      end
  | Ok 5 => Ok txPlain
  | Ok 7 => Ok txBig
  | Ok _ => Err (Errorf "cannot encode")
  end.

Definition val1 : ChainValidator :=
  mkChainValidator "val1" "one" "val-pay" "secp256k1" [Byte.x01] 10 0.

Definition valset (h : Z) : ValidatorSet :=
  mkValidatorSet h [val1] {["val1"%string := val1]} 10.

Definition goodSig : bytes := [Byte.x01].

(** The chain double, at a given latest height. *)
Definition chainAt (latest : Z) : Chain :=
  mkChain "zenith-1"
    (fun _ => None)
    (fun _ _ _ sig => match sig with
                      | [Byte.x01] => None
                      | _ => Some (Sentinel ErrBadSignature)
                      end)
    (Ok latest)
    decode encode
    (fun _ _ _ => Ok 100000)
    (fun h => Ok (valset h))
    (fun _ _ => Ok val1)
    (fun msg _ => Ok msg).

Definition storeChain : StoreChain :=
  mkStoreChain "zenith-1" "testnet" "uzen" "meka-pay" 1 1.

Definition storeVal1 : Validator :=
  mkValidator "zenith-1" "val1" "one" [Byte.x01] "secp256k1" "val-pay" 1 1.

(** A store that knows the chain and the validator, and nothing else. *)
Definition store0 : Store :=
  mkStore ∅ ∅ ∅ {[("zenith-1"%string, "val1"%string) := storeVal1]}
          {["zenith-1"%string := storeChain]}.

Definition auctionAt (h : Z) (finished : Time) : Auction :=
  mkAuction "zenith-1" h "val1" FixedAllocation "val-pay" "meka-pay" "uzen"
            10 10 1 finished.

Definition bidOf (id : UUID) (kind : BidKind) (txbs : list bytes) (st : BidState)
  : Bid :=
  mkBid id "zenith-1" 5 kind txbs 0 0 0 [] st 0 0.

End Example.

(** The bids of the examples as [Bid] evaluates and stores them. *)
Module ExampleBids.

Import Example.

Definition evaluated (id : UUID) (kind : BidKind) (txbs : list bytes) : Bid :=
  fst (evaluateBid (chainAt 5) (auctionAt 5 0)
         (bidOf id kind txbs BidStatePending)).

End ExampleBids.

(** * Properties *)

Section Properties.

Context {ext : External}.

(** ** Arithmetic and error helpers *)

Lemma wrap64_id (z : Z) : in_int64 z -> wrap64 z = z.
Proof.
  unfold in_int64, min_int64, max_int64, wrap64. intros Hz.
  rewrite Z.mod_small; lia.
Qed.

Lemma errors_Is_Wrapf (msg : string) (e : error) (t : sentinel) :
  errors_Is (Wrapf msg e) t = errors_Is e t.
Proof. reflexivity. Qed.

(** ** ParseBidKind and the kind of a submitted bid *)

Lemma evaluateBid_Kind (c : Chain) (a : Auction) (b : Bid) :
  Kind (fst (evaluateBid c a b)) = Kind b.
Proof.
  unfold evaluateBid. destruct (evalTxs c a (Txs b) payAcc0) as [txs' acc].
  repeat case_match; reflexivity.
Qed.

Lemma ServiceBid_Kind (c : Chain) (height : Z) (kind : string)
    (txbs : list bytes) (newV4 : result UUID) (now : Time) (s s' : Store)
    (bid : Bid) :
  ServiceBid c height kind txbs newV4 now s = (s', Ok bid) ->
  Kind bid = ParseBidKind kind.
Proof.
  unfold ServiceBid, bind, wrapErr. intros Hrun.
  destruct (ServiceAuction c height now s) as [s1 [auction|e]]; [|discriminate].
  match type of Hrun with
  | context [evaluateBid c auction ?b] =>
      pose proof (evaluateBid_Kind c auction b) as HK;
      destruct (evaluateBid c auction b) as [bid' [e|]]
  end; [unfold fail in Hrun; discriminate|].
  simpl in HK. unfold InsertBid in Hrun.
  destruct newV4 as [id|e]; [|discriminate].
  inversion Hrun; subst. simpl. exact HK.
Qed.

(** C10. A bid submitted with a kind whose lower-case form is not "block"
    (the empty string and unknown words included) is a top bid, and as such
    [computeOrder] rejects it as soon as a bid has won before it; the kind is
    block exactly when the lower-case form is "block". *)
Theorem ServiceBid_kind_top_unless_block (c : Chain) (height : Z)
    (kind : string) (txbs : list bytes) (newV4 : result UUID) (now : Time)
    (s s' : Store) (bid : Bid) :
  ServiceBid c height kind txbs newV4 now s = (s', Ok bid) ->
  (strings_ToLower kind <> "block"%string ->
     ParseBidKind kind = BidKindTop /\
     Kind bid = BidKindTop /\
     forall st : walkState,
       winningBids st <> [] ->
       winningBids (walkStep st bid) = winningBids st /\
       rejectedBids (walkStep st bid)
       = rejectedBids st ++ [bid_set_State bid BidStateRejected]) /\
  (Kind bid = BidKindBlock <-> strings_ToLower kind = "block"%string).
Proof.
  intros Hrun. pose proof (ServiceBid_Kind _ _ _ _ _ _ _ _ _ Hrun) as HK.
  unfold ParseBidKind in *. split.
  - intros Hne. rewrite bool_decide_eq_false_2 in HK |- * by exact Hne.
    split; [reflexivity|]. split; [exact HK|].
    intros st Hwin. unfold walkStep. rewrite HK.
    destruct (winningBids st) as [|w ws] eqn:Hw; [congruence|].
    simpl. split; reflexivity.
  - case_bool_decide as Hd; rewrite HK; split; intros; congruence.
Qed.

(** ** evaluateBid and the allocation *)

Lemma evaluateBid_unfold (c : Chain) (auction : Auction) (bid : Bid) :
  let acc := bidPayments c auction bid in
  let total := add64 (validatorPayment acc) (mekatekPayment acc) in
  snd (evaluateBid c auction bid)
  = if total <=? 0 then Some (Wrapf "no payments" (Sentinel ErrInvalidRequest))
    else if negb (isCorrectAllocation (ValidatorAllocation auction)
                    (validatorPayment acc) (mekatekPayment acc) total)
         then Some (Errorf "payment allocation doesn't satisfy")
         else None.
Proof.
  unfold evaluateBid, bidPayments.
  destruct (evalTxs c auction (Txs bid) payAcc0) as [txs' acc]. simpl.
  repeat case_match; reflexivity.
Qed.


(** ** Transactions that evaluateBid passes over *)

Lemma evalTxs_app (c : Chain) (a : Auction) (l1 l2 : list bytes) (acc : payAcc) :
  evalTxs c a (l1 ++ l2) acc
  = (fst (evalTxs c a l1 acc) ++ fst (evalTxs c a l2 (snd (evalTxs c a l1 acc))),
     snd (evalTxs c a l2 (snd (evalTxs c a l1 acc)))).
Proof.
  revert acc. induction l1 as [|txb l1 IH]; intros acc; simpl.
  - destruct (evalTxs c a l2 acc); reflexivity.
  - destruct (DecodeTransaction c txb) as [tx|e];
      [destruct (EncodeTransaction c tx) as [n|e]|];
      rewrite IH;
      match goal with
      | |- context [evalTxs c a l1 ?x] => destruct (evalTxs c a l1 x)
      end; reflexivity.
Qed.

Lemma evalTxs_length (c : Chain) (a : Auction) (l : list bytes) (acc : payAcc) :
  length (fst (evalTxs c a l acc)) = length l.
Proof.
  revert acc. induction l as [|txb l IH]; intros acc; simpl; [reflexivity|].
  destruct (DecodeTransaction c txb) as [tx|e];
    [destruct (EncodeTransaction c tx) as [n|e]|];
    match goal with
    | |- context [evalTxs c a l ?x] =>
        specialize (IH x); destruct (evalTxs c a l x)
    end; simpl in *; congruence.
Qed.

Lemma evalTxs_unusable (c : Chain) (a : Auction) (txb : bytes)
    (rest : list bytes) (acc : payAcc) :
  unusable c txb ->
  evalTxs c a (txb :: rest) acc
  = (txb :: fst (evalTxs c a rest acc), snd (evalTxs c a rest acc)).
Proof.
  unfold unusable. intros Hun. simpl.
  destruct (DecodeTransaction c txb) as [tx|e];
    [destruct (EncodeTransaction c tx) as [n|e]; [discriminate|]|];
    destruct (evalTxs c a rest acc); reflexivity.
Qed.

Lemma evalTxs_skip (c : Chain) (a : Auction) (pre post : list bytes)
    (txb : bytes) (acc : payAcc) :
  unusable c txb ->
  fst (evalTxs c a (pre ++ txb :: post) acc)
  = fst (evalTxs c a pre acc) ++ txb
      :: fst (evalTxs c a post (snd (evalTxs c a pre acc))) /\
  snd (evalTxs c a (pre ++ txb :: post) acc) = snd (evalTxs c a (pre ++ post) acc) /\
  fst (evalTxs c a (pre ++ post) acc)
  = fst (evalTxs c a pre acc)
    ++ fst (evalTxs c a post (snd (evalTxs c a pre acc))).
Proof.
  intros Hun. rewrite !evalTxs_app, (evalTxs_unusable _ _ _ _ _ Hun). simpl.
  auto.
Qed.

Lemma evaluateBid_snd_Txs (c : Chain) (a : Auction) (b : Bid) :
  Txs (fst (evaluateBid c a b)) = fst (evalTxs c a (Txs b) payAcc0).
Proof.
  unfold evaluateBid. destruct (evalTxs c a (Txs b) payAcc0) as [txs' acc].
  repeat case_match; reflexivity.
Qed.

Lemma bidSize_app (c : Chain) (l1 l2 : list bytes) :
  bidSize c (l1 ++ l2) = fold_left (addTxSize c) l2 (bidSize c l1).
Proof. unfold bidSize. apply fold_left_app. Qed.

Lemma bidSize_skip_undecodable (c : Chain) (pre post : list bytes) (txb : bytes) :
  is_Err (DecodeTransaction c txb) = true ->
  bidSize c (pre ++ txb :: post) = bidSize c (pre ++ post).
Proof.
  intros Hdec. rewrite !bidSize_app. simpl.
  destruct (bidSize c pre) as [b g]. unfold addTxSize at 2, getTxBytes.
  destruct (DecodeTransaction c txb); [discriminate|reflexivity].
Qed.

(** What [selectBid] does with a bid: it rejects it and leaves the block
    alone, or accepts it and appends all of its transactions. *)
Lemma selectBid_cases (c : Chain) (maxBytes maxGas : Z) (st : selectState)
    (eb : Bid) :
  let st' := selectBid c maxBytes maxGas st eb in
  (bundles st' = bundles st /\ acceptedBids st' = acceptedBids st /\
   totalBytes st' = totalBytes st /\ totalGas st' = totalGas st /\
   sel_rejectedBids st' = sel_rejectedBids st ++ [bid_set_State eb BidStateRejected])
  \/
  (bundles st'
   = bundles st ++ [mkTxBundle ("bid " +:+ UUID_String (bid_ID eb)) (Txs eb)
                      (ValidatorPayment eb) (MekatekPayment eb)] /\
   acceptedBids st' = acceptedBids st ++ [bid_set_State eb BidStateAccepted] /\
   totalBytes st' = add64 (totalBytes st) (fst (bidSize c (Txs eb))) /\
   totalGas st' = add64 (totalGas st) (snd (bidSize c (Txs eb))) /\
   sel_rejectedBids st' = sel_rejectedBids st /\
   add64 (totalBytes st) (fst (bidSize c (Txs eb))) <= maxBytes /\
   add64 (totalGas st) (snd (bidSize c (Txs eb))) <= maxGas).
Proof.
  cbv zeta. unfold selectBid.
  destruct (bidSize c (Txs eb)) as [bidBytes bidGas]. simpl.
  destruct (Z.gtb_spec (add64 (totalBytes st) bidBytes) maxBytes);
    destruct (Z.gtb_spec (add64 (totalGas st) bidGas) maxGas); simpl;
    first [left; repeat split; reflexivity
          |right; repeat split; first [reflexivity|lia]].
Qed.

(** C9, as the code has it. A transaction of a bid that does not decode, or
    that decodes and does not encode again, is passed over by [evaluateBid]:
    the payments and the verdict are those of the bid without it, and its
    bytes stay in place in [Bid.Txs]. When [selectTransactions] accepts the
    bid, the bundle carries all of [Bid.Txs], this transaction included. A
    transaction that does not decode adds nothing to the bytes and gas of
    the bid; one that decodes (and only fails to encode again) adds its
    ByteCount and GasAmount when both are known. *)
Theorem unusable_tx_is_passed_over (c : Chain) (auction : Auction) (bid : Bid)
    (pre post : list bytes) (txb : bytes) :
  Txs bid = pre ++ txb :: post ->
  unusable c txb ->
  let rest := bid_set_Txs bid (pre ++ post) in
  let eb := fst (evaluateBid c auction bid) in
  bidPayments c auction bid = bidPayments c auction rest /\
  snd (evaluateBid c auction bid) = snd (evaluateBid c auction rest) /\
  Txs eb !! length pre = Some txb /\
  (forall (maxBytes maxGas : Z) (st : selectState),
     let st' := selectBid c maxBytes maxGas st eb in
     acceptedBids st' <> acceptedBids st ->
     exists b, last (bundles st') = Some b /\ txs b = Txs eb /\ txb ∈ txs b) /\
  (is_Err (DecodeTransaction c txb) = true ->
   bidSize c (Txs eb) = bidSize c (Txs (fst (evaluateBid c auction rest)))) /\
  (forall tx, DecodeTransaction c txb = Ok tx ->
     bidSize c [txb]
     = match ByteCount tx, GasAmount tx with
       | Ok nbytes, Ok gas => (add64 0 nbytes, add64 0 gas)
       | _, _ => (0, 0)
       end).
Proof.
  intros HTxs Hun. cbv zeta.
  destruct (evalTxs_skip c auction pre post txb payAcc0 Hun)
    as (Hfst & Hsnd & Hrest).
  assert (Hpay : bidPayments c auction bid
                 = bidPayments c auction (bid_set_Txs bid (pre ++ post))).
  { unfold bidPayments. simpl. rewrite HTxs. exact Hsnd. }
  assert (HebTxs : Txs (fst (evaluateBid c auction bid))
                   = fst (evalTxs c auction pre payAcc0) ++ txb
                     :: fst (evalTxs c auction post
                               (snd (evalTxs c auction pre payAcc0)))).
  { rewrite evaluateBid_snd_Txs, HTxs. exact Hfst. }
  split; [exact Hpay|].
  split.
  { rewrite !evaluateBid_unfold. cbv zeta. rewrite <- Hpay. reflexivity. }
  split.
  { rewrite HebTxs.
    rewrite lookup_app_r by (rewrite evalTxs_length; lia).
    rewrite evalTxs_length, Nat.sub_diag. reflexivity. }
  split.
  { intros maxBytes maxGas st Hacc.
    destruct (selectBid_cases c maxBytes maxGas st (fst (evaluateBid c auction bid)))
      as [(_ & Hsame & _)|(Hb & _)]; [contradiction|].
    eexists. split; [rewrite Hb; apply last_snoc|].
    split; [reflexivity|]. simpl. rewrite HebTxs.
    apply elem_of_app. right. apply elem_of_cons. left. reflexivity. }
  split.
  { intros Hdec. rewrite HebTxs, evaluateBid_snd_Txs. simpl. rewrite Hrest.
    apply bidSize_skip_undecodable. exact Hdec. }
  intros tx Hdec. unfold bidSize, addTxSize, getTxBytes, getTxGas. simpl.
  rewrite Hdec. destruct (ByteCount tx), (GasAmount tx); reflexivity.
Qed.

(** ** The hashes of a built block *)

Lemma flattenBundles_txs (bs : list txBundle) :
  fst (fst (flattenBundles bs)) = concat (txs <$> bs).
Proof.
  unfold flattenBundles.
  enough (Hgen : forall acc,
             fst (fst (fold_left
                         (fun '(blockTxs, vp, mp) b =>
                            (blockTxs ++ txs b,
                             add64 vp (bundle_validatorPayment b),
                             add64 mp (bundle_mekatekPayment b)))
                         bs acc))
             = fst (fst acc) ++ concat (txs <$> bs))
    by (rewrite Hgen; reflexivity).
  induction bs as [|b bs IH]; intros [[blockTxs vp] mp]; simpl.
  - rewrite app_nil_r. reflexivity.
  - rewrite IH. simpl. rewrite <- app_assoc. reflexivity.
Qed.

Lemma selectMempoolTx_cases (c : Chain) (maxBytes maxGas : Z) (st : selectState)
    (tx : bytes) :
  let st' := selectMempoolTx c maxBytes maxGas st tx in
  st' = st \/
  (exists txBytes txGas,
     getTxBytes c tx = Ok txBytes /\ getTxGas c tx = Ok txGas /\
     bundles st' = bundles st ++ [mkTxBundle "mempool" [tx] 0 0] /\
     acceptedBids st' = acceptedBids st /\
     sel_rejectedBids st' = sel_rejectedBids st /\
     totalBytes st' = add64 (totalBytes st) txBytes /\
     totalGas st' = add64 (totalGas st) txGas /\
     add64 (totalBytes st) txBytes <= maxBytes /\
     add64 (totalGas st) txGas <= maxGas).
Proof.
  cbv zeta. unfold selectMempoolTx.
  destruct (getTxBytes c tx) as [txBytes|e]; [|auto].
  destruct (getTxGas c tx) as [txGas|e]; [|auto].
  destruct (Z.gtb_spec (add64 (totalBytes st) txBytes) maxBytes);
    destruct (Z.gtb_spec (add64 (totalGas st) txGas) maxGas); simpl; auto.
  right. exists txBytes, txGas. repeat split; first [reflexivity|lia].
Qed.

Lemma selectBid_fold_sublist (c : Chain) (maxBytes maxGas : Z) (l : list Bid)
    (st : selectState) :
  exists X,
    concat (txs <$> bundles (fold_left (selectBid c maxBytes maxGas) l st))
    = concat (txs <$> bundles st) ++ X /\
    X `sublist_of` concat (Txs <$> l).
Proof.
  revert st. induction l as [|eb l IH]; intros st; simpl.
  - exists []. rewrite app_nil_r. auto.
  - destruct (IH (selectBid c maxBytes maxGas st eb)) as (X & HX & Hsub).
    destruct (selectBid_cases c maxBytes maxGas st eb)
      as [(Hb & _)|(Hb & _)]; rewrite Hb in HX.
    + exists X. split; [exact HX|]. apply sublist_inserts_l. exact Hsub.
    + exists (Txs eb ++ X). split.
      * rewrite HX, fmap_app, concat_app. simpl.
        rewrite app_nil_r, <- app_assoc. reflexivity.
      * apply sublist_app; [reflexivity|exact Hsub].
Qed.

Lemma selectMempoolTx_fold_sublist (c : Chain) (maxBytes maxGas : Z)
    (l : list bytes) (st : selectState) :
  exists X,
    concat (txs <$> bundles (fold_left (selectMempoolTx c maxBytes maxGas) l st))
    = concat (txs <$> bundles st) ++ X /\
    X `sublist_of` l.
Proof.
  revert st. induction l as [|tx l IH]; intros st; simpl.
  - exists []. rewrite app_nil_r. auto.
  - destruct (IH (selectMempoolTx c maxBytes maxGas st tx)) as (X & HX & Hsub).
    destruct (selectMempoolTx_cases c maxBytes maxGas st tx)
      as [Hsame|(b & g & _ & _ & Hb & _)].
    + rewrite Hsame in *. exists X. split; [exact HX|].
      apply sublist_cons. exact Hsub.
    + rewrite Hb in HX. exists (tx :: X). split.
      * rewrite HX, fmap_app, concat_app. simpl.
        rewrite <- app_assoc. reflexivity.
      * apply sublist_skip. exact Hsub.
Qed.

(** The block is made of transactions of the winning bids and of the
    remaining mempool, in their order. *)
Lemma selectTransactions_sublist (c : Chain) (winning : list Bid)
    (mempool : list bytes) (maxBytes maxGas : Z) :
  concat (txs <$> bundles (selectTransactions c winning mempool maxBytes maxGas))
  `sublist_of` concat (Txs <$> winning) ++ mempool.
Proof.
  unfold selectTransactions.
  set (mb := if maxBytes =? -1 then max_int64 else maxBytes).
  set (mg := if maxGas =? -1 then max_int64 else maxGas).
  destruct (selectBid_fold_sublist c mb mg winning (mkSelectState [] [] [] 0 0))
    as (X & HX & HsubX).
  destruct (selectMempoolTx_fold_sublist c mb mg mempool
              (fold_left (selectBid c mb mg) winning (mkSelectState [] [] [] 0 0)))
    as (Y & HY & HsubY).
  rewrite HY, HX. simpl. apply sublist_app; assumption.
Qed.

Lemma elem_of_claimAll (claimed : gset string) (txbs : list bytes) (h : string) :
  h ∈ claimAll claimed txbs <-> h ∈ claimed \/ h ∈ HashTx <$> txbs.
Proof.
  unfold claimAll. revert claimed.
  induction txbs as [|tx txbs IH]; intros claimed; simpl.
  - rewrite elem_of_nil. tauto.
  - rewrite IH, elem_of_union, elem_of_singleton, elem_of_cons. tauto.
Qed.

Lemma hasClaimedTransactions_false (claimed : gset string) (txbs : list bytes) :
  hasClaimedTransactions claimed txbs = false ->
  forall h, h ∈ HashTx <$> txbs -> h ∉ claimed.
Proof.
  unfold hasClaimedTransactions. intros Hfalse h Hh Hin.
  apply list_elem_of_fmap in Hh as (tx & -> & Htx).
  assert (Htrue : existsb (fun tx => bool_decide (HashTx tx ∈ claimed)) txbs = true).
  { apply existsb_exists. exists tx. split.
    - apply list_elem_of_In. exact Htx.
    - apply bool_decide_eq_true_2. exact Hin. }
  congruence.
Qed.

Lemma walkInv_step (st : walkState) (eb : Bid) :
  walkInv st -> walkInv (walkStep st eb).
Proof.
  intros [Hcl Hnd]. unfold walkStep.
  destruct (bool_decide (Kind eb = BidKindTop)
            && (0 <? Z.of_nat (length (winningBids st)))); [split; assumption|].
  destruct (hasClaimedTransactions (claimedTxs st) (Txs eb)) eqn:Hclaimed;
    [split; assumption|].
  destruct (debit (senderBalances st) (Payments eb)); [|split; assumption].
  pose proof (hasClaimedTransactions_false _ _ Hclaimed) as Hfresh.
  split; simpl.
  - intros h. rewrite fmap_app, concat_app, fmap_app. simpl.
    rewrite app_nil_r, elem_of_app, elem_of_claimAll.
    intros [Hold|Hnew]; auto.
  - intros Hall. apply Forall_app in Hall as [Hall Heb].
    apply Forall_inv in Heb.
    rewrite fmap_app, concat_app, fmap_app. simpl. rewrite app_nil_r.
    apply NoDup_app. split; [apply Hnd, Hall|]. split; [|exact Heb].
    intros h Hold Hnew. apply (Hfresh h Hnew). apply Hcl. exact Hold.
Qed.

Lemma walkInv_fold (l : list Bid) (st : walkState) :
  walkInv st -> walkInv (fold_left walkStep l st).
Proof.
  revert st. induction l as [|eb l IH]; intros st Hinv; simpl; [exact Hinv|].
  apply IH, walkInv_step, Hinv.
Qed.

Lemma remainingMempool_distinct (claimed : gset string) (mempool : list bytes) :
  NoDup (HashTx <$> remainingMempool claimed mempool) /\
  forall h, h ∈ HashTx <$> remainingMempool claimed mempool -> h ∉ claimed.
Proof.
  revert claimed. induction mempool as [|tx mempool IH]; intros claimed; simpl.
  - split; [constructor|]. intros h Hh. apply elem_of_nil in Hh. contradiction.
  - case_bool_decide as Hin; [apply IH|].
    destruct (IH ({[HashTx tx]} ∪ claimed)) as [IHnd IHfresh].
    split; simpl.
    + constructor; [|exact IHnd]. intros Hdup.
      apply (IHfresh _ Hdup). apply elem_of_union. left.
      apply elem_of_singleton. reflexivity.
    + intros h Hh Hcl. apply elem_of_cons in Hh as [->|Hh]; [contradiction|].
      apply (IHfresh _ Hh). apply elem_of_union. right. exact Hcl.
Qed.

(** What the code does keep of the uniqueness of hashes: when no winning bid
    lists a transaction twice among its own, no hash occurs twice in the
    block. *)
Lemma built_block_hashes_distinct (c : Chain) (auction : Auction)
    (allBids : list Bid) (mempool : list bytes) (maxBytes maxGas : Z)
    (winning losing : list Bid) (remaining : list bytes) :
  computeOrder c auction allBids mempool = Ok (winning, losing, remaining) ->
  Forall (fun b => NoDup (HashTx <$> Txs b)) winning ->
  NoDup (HashTx <$>
           fst (fst (flattenBundles
                       (bundles (selectTransactions c winning remaining
                                   maxBytes maxGas))))).
Proof.
  unfold computeOrder. intros Hco Hown.
  destruct (evaluateUnevaluated c auction allBids) as [evaluated|e];
    [|discriminate].
  injection Hco as <- <- <-.
  set (st := fold_left walkStep (SliceStable bidLess evaluated)
               (mkWalkState [] [] ∅ (querySenderBalances c auction evaluated)))
    in *.
  assert (Hinv : walkInv st).
  { apply walkInv_fold. split; simpl.
    - intros h Hh. apply elem_of_nil in Hh. contradiction.
    - intros _. constructor. }
  destruct Hinv as [Hcl Hnd].
  destruct (remainingMempool_distinct (claimedTxs st) mempool) as [Hrnd Hrfresh].
  rewrite flattenBundles_txs.
  apply (sublist_NoDup _
           (HashTx <$> concat (Txs <$> winningBids st)
                       ++ remainingMempool (claimedTxs st) mempool)).
  - rewrite fmap_app. apply NoDup_app.
    split; [apply Hnd, Hown|]. split; [|exact Hrnd].
    intros h Hw Hr. apply (Hrfresh h Hr). apply Hcl. exact Hw.
  - apply fmap_sublist. apply selectTransactions_sublist.
Qed.

(** ** The size of a built block *)

Lemma sumBytes_app (c : Chain) (l1 l2 : list bytes) :
  sumBytes c (l1 ++ l2) = sumBytes c l1 + sumBytes c l2.
Proof.
  unfold sumBytes. induction l1 as [|tx l1 IH]; simpl; [reflexivity|].
  rewrite IH. lia.
Qed.

Lemma sumGas_app (c : Chain) (l1 l2 : list bytes) :
  sumGas c (l1 ++ l2) = sumGas c l1 + sumGas c l2.
Proof.
  unfold sumGas. induction l1 as [|tx l1 IH]; simpl; [reflexivity|].
  rewrite IH. lia.
Qed.

Lemma sumBytes_nonneg (c : Chain) (l : list bytes) :
  Forall (nonnegTx c) l -> 0 <= sumBytes c l /\ 0 <= sumGas c l.
Proof.
  induction 1 as [|tx l [Hb Hg] Hl [IHb IHg]]; simpl; [lia|].
  unfold sumBytes, sumGas in *. simpl. lia.
Qed.

Lemma add64_exact (a b : Z) :
  0 <= a -> 0 <= b -> a + b <= max_int64 -> add64 a b = a + b.
Proof.
  intros Ha Hb Hsum. unfold add64. apply wrap64_id.
  unfold in_int64, min_int64, max_int64 in *. lia.
Qed.

(** When every transaction of a bid is sized, what [selectTransactions]
    counts for the bid is the sum of its sizes. *)
Lemma addTxSize_fold_exact (c : Chain) (l : list bytes) (b g : Z) :
  Forall (sizedTx c) l -> Forall (nonnegTx c) l ->
  0 <= b -> 0 <= g ->
  b + sumBytes c l <= max_int64 -> g + sumGas c l <= max_int64 ->
  fold_left (addTxSize c) l (b, g) = (b + sumBytes c l, g + sumGas c l).
Proof.
  intros Hsized. revert b g.
  induction Hsized as [|tx l [Hsb Hsg] Hl IH]; intros b g Hnn Hb Hg Hmb Hmg.
  - simpl. f_equal; lia.
  - apply Forall_cons in Hnn as [[Hnb Hng] Hnn].
    destruct (sumBytes_nonneg c l Hnn) as [Hlb Hlg].
    change (sumBytes c (tx :: l)) with (txBytesOf c tx + sumBytes c l) in *.
    change (sumGas c (tx :: l)) with (txGasOf c tx + sumGas c l) in *.
    change (fold_left (addTxSize c) (tx :: l) (b, g))
      with (fold_left (addTxSize c) l (addTxSize c (b, g) tx)).
    assert (Hstep : addTxSize c (b, g) tx
                    = (b + txBytesOf c tx, g + txGasOf c tx)).
    { unfold addTxSize, txBytesOf, txGasOf in *.
      destruct (getTxBytes c tx) as [nb|e]; [|discriminate].
      destruct (getTxGas c tx) as [ng|e]; [|discriminate].
      rewrite !add64_exact by lia. reflexivity. }
    rewrite Hstep, IH by (try assumption; lia). f_equal; lia.
Qed.

Lemma bidSize_exact (c : Chain) (l : list bytes) :
  Forall (sizedTx c) l -> Forall (nonnegTx c) l ->
  sumBytes c l <= max_int64 -> sumGas c l <= max_int64 ->
  bidSize c l = (sumBytes c l, sumGas c l).
Proof.
  intros Hs Hn Hb Hg. unfold bidSize.
  rewrite addTxSize_fold_exact by (try assumption; lia). reflexivity.
Qed.

Lemma packInv_bids (c : Chain) (mb mg : Z) (l : list Bid) (B G : Z)
    (st : selectState) :
  Forall (sizedTx c) (concat (Txs <$> l)) ->
  Forall (nonnegTx c) (concat (Txs <$> l)) ->
  B + sumBytes c (concat (Txs <$> l)) <= max_int64 ->
  G + sumGas c (concat (Txs <$> l)) <= max_int64 ->
  packInv c mb mg B G st ->
  packInv c mb mg (B + sumBytes c (concat (Txs <$> l)))
    (G + sumGas c (concat (Txs <$> l)))
    (fold_left (selectBid c mb mg) l st).
Proof.
  revert B G st. induction l as [|eb l IH]; intros B G st Hs Hn HB HG Hinv.
  - simpl. change (sumBytes c []) with 0. change (sumGas c []) with 0.
    unfold packInv in *. lia.
  - rewrite fmap_cons in *. cbn [concat fold_left] in *.
    rewrite sumBytes_app, sumGas_app in *.
    apply Forall_app in Hs as [Hs1 Hs2]. apply Forall_app in Hn as [Hn1 Hn2].
    destruct (sumBytes_nonneg c _ Hn1) as [Hb1 Hg1].
    destruct (sumBytes_nonneg c _ Hn2) as [Hb2 Hg2].
    destruct Hinv as (Htb & Htg & Hmb & Hmg & HtB & HtG).
    pose proof (bidSize_exact c (Txs eb) Hs1 Hn1 ltac:(lia) ltac:(lia)) as Hsize.
    rewrite !Z.add_assoc.
    apply IH; try assumption; try lia.
    destruct (selectBid_cases c mb mg st eb)
      as [(Hbu & _ & Hb' & Hg' & _)|(Hbu & _ & Hb' & Hg' & _ & Hlb & Hlg)];
      unfold packInv, blockOf; rewrite Hbu, Hb', Hg'.
    + fold (blockOf st). lia.
    + rewrite Hsize in *. simpl in *.
      rewrite (add64_exact (totalBytes st)), (add64_exact (totalGas st)) in *
        by lia.
      rewrite fmap_app, concat_app, sumBytes_app, sumGas_app. simpl.
      rewrite app_nil_r. fold (blockOf st). lia.
Qed.

Lemma packInv_mempool (c : Chain) (mb mg : Z) (l : list bytes) (B G : Z)
    (st : selectState) :
  Forall (nonnegTx c) l ->
  B + sumBytes c l <= max_int64 -> G + sumGas c l <= max_int64 ->
  packInv c mb mg B G st ->
  packInv c mb mg (B + sumBytes c l) (G + sumGas c l)
    (fold_left (selectMempoolTx c mb mg) l st).
Proof.
  revert B G st. induction l as [|tx l IH]; intros B G st Hn HB HG Hinv.
  - simpl. change (sumBytes c []) with 0. change (sumGas c []) with 0.
    unfold packInv in *. lia.
  - apply Forall_cons in Hn as [[Hnb Hng] Hn].
    destruct (sumBytes_nonneg c _ Hn) as [Hb2 Hg2].
    destruct Hinv as (Htb & Htg & Hmb & Hmg & HtB & HtG).
    change (sumBytes c (tx :: l)) with (txBytesOf c tx + sumBytes c l) in *.
    change (sumGas c (tx :: l)) with (txGasOf c tx + sumGas c l) in *.
    simpl. rewrite !Z.add_assoc.
    apply IH; try assumption; try lia.
    destruct (selectMempoolTx_cases c mb mg st tx)
      as [Hsame|(nb & ng & Hgb & Hgg & Hbu & _ & _ & Hb' & Hg' & Hlb & Hlg)].
    + rewrite Hsame. unfold packInv. lia.
    + unfold txBytesOf, txGasOf in *. rewrite Hgb, Hgg in *.
      unfold packInv, blockOf. rewrite Hbu, Hb', Hg'.
      rewrite (add64_exact (totalBytes st)), (add64_exact (totalGas st)) in *
        by lia.
      rewrite fmap_app, concat_app, sumBytes_app, sumGas_app. simpl.
      fold (blockOf st).
      change (sumBytes c [tx]) with (txBytesOf c tx + 0).
      change (sumGas c [tx]) with (txGasOf c tx + 0).
      unfold txBytesOf, txGasOf. rewrite Hgb, Hgg. lia.
Qed.

(** What the code does keep of the limits: when both lookups succeed for
    every transaction of the winning bids, no size is negative and the sizes
    of all candidates together fit an [int64], the bytes and the gas of the
    block are within the limits (a limit of -1 standing for the largest
    [int64]). *)
Lemma built_block_within_limits (c : Chain) (winning : list Bid)
    (mempool : list bytes) (maxBytes maxGas : Z) :
  let mb := if maxBytes =? -1 then max_int64 else maxBytes in
  let mg := if maxGas =? -1 then max_int64 else maxGas in
  let st := selectTransactions c winning mempool maxBytes maxGas in
  0 <= mb -> 0 <= mg ->
  Forall (sizedTx c) (concat (Txs <$> winning)) ->
  Forall (nonnegTx c) (concat (Txs <$> winning) ++ mempool) ->
  sumBytes c (concat (Txs <$> winning) ++ mempool) <= max_int64 ->
  sumGas c (concat (Txs <$> winning) ++ mempool) <= max_int64 ->
  sumBytes c (blockOf st) = totalBytes st /\ sumBytes c (blockOf st) <= mb /\
  sumGas c (blockOf st) = totalGas st /\ sumGas c (blockOf st) <= mg.
Proof.
  cbv zeta. intros Hmb Hmg Hs Hn HB HG.
  apply Forall_app in Hn as [Hn1 Hn2].
  rewrite sumBytes_app in HB. rewrite sumGas_app in HG.
  destruct (sumBytes_nonneg c _ Hn1) as [Hb1 Hg1].
  destruct (sumBytes_nonneg c _ Hn2) as [Hb2 Hg2].
  unfold selectTransactions.
  set (mb := if maxBytes =? -1 then max_int64 else maxBytes) in *.
  set (mg := if maxGas =? -1 then max_int64 else maxGas) in *.
  assert (H0 : packInv c mb mg 0 0 (mkSelectState [] [] [] 0 0)).
  { unfold packInv, blockOf, sumBytes, sumGas. simpl. lia. }
  pose proof (packInv_bids c mb mg winning 0 0 _ Hs Hn1 ltac:(lia) ltac:(lia) H0)
    as H1.
  apply (packInv_mempool c mb mg mempool) in H1; [|exact Hn2|lia|lia].
  destruct H1 as (Htb & Htg & Hlb & Hlg & _).
  fold (blockOf (fold_left (selectMempoolTx c mb mg) mempool
                   (fold_left (selectBid c mb mg) winning
                      (mkSelectState [] [] [] 0 0)))).
  lia.
Qed.

(** ** Register and the challenge *)

Lemma NewStore_challengesKeyed : challengesKeyed NewStore.
Proof. intros k x Hk. simpl in Hk. rewrite lookup_empty in Hk. discriminate. Qed.

Lemma InsertChallenge_challengesKeyed (s s' : Store) (ch ch' : Challenge)
    (newV4 : result UUID) (now : Time) :
  challengesKeyed s ->
  InsertChallenge s ch newV4 now = (s', Ok ch') ->
  challengesKeyed s'.
Proof.
  unfold InsertChallenge. intros Hwf Hins.
  destruct newV4 as [id|e]; [|discriminate].
  inversion Hins; subst; clear Hins. intros k x. simpl.
  destruct (decide (UUID_String id = k)) as [<-|Hne].
  - rewrite lookup_insert_eq. intros [= <-]. reflexivity.
  - rewrite lookup_insert_ne by exact Hne. apply Hwf.
Qed.

Lemma ServiceApply_challengesKeyed (c : Chain) (validatorAddr paymentAddr : string)
    (random32 : bytes) (newV4 : result UUID) (now : Time) (s : Store) :
  challengesKeyed s ->
  challengesKeyed
    (fst (ServiceApply c validatorAddr paymentAddr random32 newV4 now s)).
Proof.
  intros Hwf.
  unfold ServiceApply, bind, wrapErr, liftE, lift, fail.
  destruct (ValidatePaymentAddress c paymentAddr); [exact Hwf|].
  destruct (LatestHeight c) as [L|e]; [|exact Hwf].
  destruct (GetValidatorSet c L) as [vs|e]; [|exact Hwf].
  destruct (negb (vs_Height vs =? L)); [exact Hwf|].
  destruct (vs_Set vs !! validatorAddr) as [val|]; [|exact Hwf].
  match goal with
  | |- context [InsertChallenge s ?ch newV4 now] =>
      pose proof (InsertChallenge_challengesKeyed s) as Hins;
      specialize (fun s' ch' => Hins s' ch ch' newV4 now Hwf);
      destruct (InsertChallenge s ch newV4 now) as [s' [ch'|e]] eqn:Hrun
  end.
  - simpl. eapply Hins. reflexivity.
  - unfold InsertChallenge in Hrun. destruct newV4; simplify_eq. exact Hwf.
Qed.

Lemma registerTx_challenges (c : Chain) (vs : ValidatorSet) (ch : Challenge)
    (signature : bytes) (now : Time) (s : Store) :
  challenges (fst (registerTx c vs ch signature now s)) = challenges s.
Proof.
  unfold registerTx, bind, liftE, write, fail, ret, UpsertValidator.
  repeat case_match; simplify_eq; reflexivity.
Qed.

(** C6. When the chain answers and the challenge is found, [Register] deletes
    it, whatever the verification of the signature says: the deferred
    [DeleteChallenge] finds the challenge and removes it, the other challenges
    stay, and a second [Register] with the same identifier fails with
    NotFound and leaves the store alone. *)
Theorem Register_deletes_challenge_once (c c2 : Chain) (challengeID : string)
    (signature signature2 : bytes) (now now2 : Time) (s : Store)
    (ch : Challenge) (L L2 : Z) (vs vs2 : ValidatorSet) :
  challengesKeyed s ->
  LatestHeight c = Ok L -> GetValidatorSet c L = Ok vs ->
  LatestHeight c2 = Ok L2 -> GetValidatorSet c2 L2 = Ok vs2 ->
  challenges s !! challengeID = Some ch ->
  let s1 := fst (registerTx c vs ch signature now s) in
  let s' := fst (ServiceRegister c challengeID signature now s) in
  DeleteChallenge s1 (UUID_String (ch_ID ch)) = (s', None) /\
  snd (ServiceRegister c challengeID signature now s)
  = snd (registerTx c vs ch signature now s) /\
  challenges s' = delete challengeID (challenges s) /\
  ServiceRegister c2 challengeID signature2 now2 s'
  = (s', Err (Wrapf "retrieve challenge" (Sentinel ErrNotFound))).
Proof.
  intros Hwf HL Hvs HL2 Hvs2 Hch. cbv zeta.
  pose proof (Hwf _ _ Hch) as Hkey.
  pose proof (registerTx_challenges c vs ch signature now s) as Hsame.
  assert (Hrun : ServiceRegister c challengeID signature now s
                 = (set_challenges (fst (registerTx c vs ch signature now s))
                      (delete challengeID
                         (challenges (fst (registerTx c vs ch signature now s)))),
                    snd (registerTx c vs ch signature now s))).
  { unfold ServiceRegister, Transact, bind, wrapErr, lift, readR,
      SelectChallenge.
    rewrite HL, Hvs, Hch.
    destruct (registerTx c vs ch signature now s) as [s1 r] eqn:Htx.
    simpl in Hsame |- *. unfold DeleteChallenge.
    rewrite Hkey, Hsame, Hch. reflexivity. }
  rewrite Hrun. simpl. split; [|split; [|split]].
  - unfold DeleteChallenge. rewrite Hkey, Hsame, Hch. reflexivity.
  - reflexivity.
  - rewrite Hsame. reflexivity.
  - unfold ServiceRegister, Transact, bind, wrapErr, lift, readR,
      SelectChallenge.
    rewrite HL2, Hvs2. simpl. rewrite lookup_delete_eq. reflexivity.
Qed.

(** ** A finished auction stays finished *)

Lemma keepsFinished_ret {A} (a : A) : keepsFinished (ret a).
Proof. intros s cid h Hf. exact Hf. Qed.

Lemma keepsFinished_fail {A} (e : error) : keepsFinished (@fail A e).
Proof. intros s cid h Hf. exact Hf. Qed.

Lemma keepsFinished_lift {A} (r : result A) : keepsFinished (lift r).
Proof. intros s cid h Hf. exact Hf. Qed.

Lemma keepsFinished_read {A} (f : Store -> A) : keepsFinished (read f).
Proof. intros s cid h Hf. exact Hf. Qed.

Lemma keepsFinished_readR {A} (f : Store -> result A) : keepsFinished (readR f).
Proof. intros s cid h Hf. exact Hf. Qed.

Lemma keepsFinished_liftE (o : option error) : keepsFinished (liftE o).
Proof. intros s cid h Hf. unfold liftE. destruct o; exact Hf. Qed.

Lemma keepsFinished_write (f : Store -> Store) :
  (forall s, auctions (f s) = auctions s) -> keepsFinished (write f).
Proof.
  intros Hsame s cid h (a & Ha & Hz). exists a. simpl. rewrite Hsame. auto.
Qed.

Lemma keepsFinished_bind {A B} (m : M A) (k : A -> M B) :
  keepsFinished m -> (forall a, keepsFinished (k a)) -> keepsFinished (bind m k).
Proof.
  intros Hm Hk s cid h Hf. unfold bind.
  specialize (Hm s cid h Hf). destruct (m s) as [s1 [a|e]]; simpl in Hm.
  - apply Hk. exact Hm.
  - exact Hm.
Qed.

Lemma keepsFinished_wrapErr {A} (msg : string) (m : M A) :
  keepsFinished m -> keepsFinished (wrapErr msg m).
Proof.
  intros Hm s cid h Hf. unfold wrapErr.
  specialize (Hm s cid h Hf). destruct (m s) as [s1 [a|e]]; exact Hm.
Qed.

Lemma UpsertAuction_keeps (s : Store) (a : Auction) (now : Time)
    (cid : string) (h : Z) :
  IsZero (FinishedAt a) = false \/ auctions s !! (ChainID a, Height a) = None ->
  finished s cid h ->
  finished (fst (UpsertAuction s a now)) cid h.
Proof.
  intros Hor (a0 & Ha0 & Hz). unfold UpsertAuction, finished.
  destruct (decide ((ChainID a, Height a) = (cid, h))) as [Heq|Hne].
  - rewrite Heq in *. rewrite Ha0. simpl. rewrite lookup_insert_eq.
    destruct Hor as [Hnz|Hnone]; [|congruence].
    eexists; split; [reflexivity|exact Hnz].
  - destruct (auctions s !! (ChainID a, Height a)); simpl;
      rewrite lookup_insert_ne by exact Hne; eauto.
Qed.

Lemma keepsFinished_findOrCreateAuction (chainID : string) (height : Z)
    (vs : ValidatorSet) (pa ppa mpa denom : string) (now : Time) :
  keepsFinished (findOrCreateAuction chainID height vs pa ppa mpa denom now).
Proof.
  intros s cid h Hf. unfold findOrCreateAuction, SelectAuction.
  destruct (auctions s !! (chainID, height)) as [a|] eqn:Hlook; [exact Hf|].
  simpl.
  match goal with
  | |- context [UpsertAuction s ?a now] =>
      pose proof (UpsertAuction_keeps s a now cid h (or_intror Hlook) Hf) as Hk;
      destruct (UpsertAuction s a now) as [s' a']
  end.
  exact Hk.
Qed.

Lemma keepsFinished_verifyAuction (c : Chain) (height off : Z) (now : Time) :
  keepsFinished (verifyAuction c height off now).
Proof.
  unfold verifyAuction.
  apply keepsFinished_bind;
    [apply keepsFinished_wrapErr, keepsFinished_readR|intros ch].
  apply keepsFinished_bind;
    [apply keepsFinished_wrapErr, keepsFinished_lift|intros L].
  apply keepsFinished_bind;
    [apply keepsFinished_wrapErr, keepsFinished_lift|intros vs].
  destruct (negb (vs_Height vs =? L)); [apply keepsFinished_fail|].
  apply keepsFinished_bind; [apply keepsFinished_liftE|intros _].
  apply keepsFinished_bind;
    [apply keepsFinished_wrapErr, keepsFinished_lift|intros p].
  apply keepsFinished_bind.
  { intros s cid h Hf. destruct (SelectValidator s (ID c) (cv_Address p)); exact Hf. }
  intros v.
  apply keepsFinished_bind; [apply keepsFinished_findOrCreateAuction|intros a].
  repeat case_match;
    first [apply keepsFinished_fail|apply keepsFinished_ret].
Qed.

Lemma auctions_UpdateBids (s : Store) (bs : list Bid) (now : Time) :
  auctions (UpdateBids s bs now) = auctions s.
Proof.
  unfold UpdateBids. revert s.
  induction bs as [|b bs IH]; intros s; simpl; [reflexivity|].
  rewrite IH. reflexivity.
Qed.

Lemma auctions_UpsertValidator (s : Store) (v : Validator) (now : Time) :
  auctions (UpsertValidator s v now) = auctions s.
Proof. unfold UpsertValidator. case_match; reflexivity. Qed.

Lemma keepsFinished_buildBlock (c : Chain) (auction : Auction)
    (allBids : list Bid) (mempool : list bytes) (maxBytes maxGas : Z)
    (errmsg : string) (now : Time) :
  keepsFinished (buildBlock c auction allBids mempool maxBytes maxGas errmsg now).
Proof.
  unfold buildBlock.
  destruct (computeOrder c auction allBids mempool) as [[[w l] r]|e];
    [|apply keepsFinished_fail].
  apply keepsFinished_bind.
  - apply keepsFinished_write. intros s. apply auctions_UpdateBids.
  - intros _. destruct (flattenBundles _) as [[? ?] ?]. apply keepsFinished_ret.
Qed.

Lemma keepsFinished_claim (a : Auction) (now : Time) :
  now <> 0 ->
  keepsFinished
    (fun s => let '(s', a') := UpsertAuction s (auction_set_FinishedAt a now) now in
              (s', Ok a')).
Proof.
  intros Hnow s cid h Hf.
  pose proof (UpsertAuction_keeps s (auction_set_FinishedAt a now) now cid h) as Hk.
  destruct (UpsertAuction s (auction_set_FinishedAt a now) now) as [s' a'].
  apply Hk; [|exact Hf]. left. simpl. unfold IsZero.
  apply Z.eqb_neq. exact Hnow.
Qed.

Lemma keepsFinished_ServiceAuction (c : Chain) (height : Z) (now : Time) :
  keepsFinished (ServiceAuction c height now).
Proof.
  unfold ServiceAuction, Transact.
  apply keepsFinished_bind; [apply keepsFinished_verifyAuction|].
  intros [a v]. apply keepsFinished_ret.
Qed.

Lemma keepsFinished_ServiceBid (c : Chain) (height : Z) (kind : string)
    (txbs : list bytes) (newV4 : result UUID) (now : Time) :
  keepsFinished (ServiceBid c height kind txbs newV4 now).
Proof.
  unfold ServiceBid.
  apply keepsFinished_bind;
    [apply keepsFinished_wrapErr, keepsFinished_ServiceAuction|intros a].
  destruct (evaluateBid c a _) as [bid' [e|]]; [apply keepsFinished_fail|].
  apply keepsFinished_wrapErr. intros s cid h Hf.
  unfold InsertBid. destruct newV4; exact Hf.
Qed.

Lemma keepsFinished_ServiceApply (c : Chain) (validatorAddr paymentAddr : string)
    (random32 : bytes) (newV4 : result UUID) (now : Time) :
  keepsFinished (ServiceApply c validatorAddr paymentAddr random32 newV4 now).
Proof.
  unfold ServiceApply.
  apply keepsFinished_bind;
    [apply keepsFinished_wrapErr, keepsFinished_liftE|intros _].
  apply keepsFinished_bind;
    [apply keepsFinished_wrapErr, keepsFinished_lift|intros L].
  apply keepsFinished_bind;
    [apply keepsFinished_wrapErr, keepsFinished_lift|intros vs].
  destruct (negb (vs_Height vs =? L)); [apply keepsFinished_fail|].
  destruct (vs_Set vs !! validatorAddr); [|apply keepsFinished_fail].
  apply keepsFinished_wrapErr. intros s cid h Hf.
  unfold InsertChallenge. destruct newV4; exact Hf.
Qed.

Lemma keepsFinished_ServiceRegister (c : Chain) (challengeID : string)
    (signature : bytes) (now : Time) :
  keepsFinished (ServiceRegister c challengeID signature now).
Proof.
  unfold ServiceRegister, Transact.
  apply keepsFinished_bind;
    [apply keepsFinished_wrapErr, keepsFinished_lift|intros L].
  apply keepsFinished_bind;
    [apply keepsFinished_wrapErr, keepsFinished_lift|intros vs].
  apply keepsFinished_bind;
    [apply keepsFinished_wrapErr, keepsFinished_readR|intros ch].
  intros s cid h Hf.
  assert (Htx : keepsFinished (registerTx c vs ch signature now)).
  { unfold registerTx.
    apply keepsFinished_bind; [apply keepsFinished_liftE|intros _].
    destruct (vs_Set vs !! ch_ValidatorAddress ch); [|apply keepsFinished_fail].
    apply keepsFinished_bind; [|intros _; apply keepsFinished_ret].
    apply keepsFinished_write. intros s0. apply auctions_UpsertValidator. }
  specialize (Htx s cid h Hf).
  destruct (registerTx c vs ch signature now s) as [s1 r]. simpl in Htx.
  unfold DeleteChallenge. destruct (challenges s1 !! _); exact Htx.
Qed.

Lemma keepsFinished_ServiceBuild (c : Chain) (height : Z) (validatorAddr : string)
    (maxBytes maxGas : Z) (mempool : list bytes) (signature : bytes)
    (now : Time) :
  now <> 0 ->
  keepsFinished
    (ServiceBuild c height validatorAddr maxBytes maxGas mempool signature now).
Proof.
  intros Hnow. unfold ServiceBuild, Transact.
  apply keepsFinished_bind.
  - apply keepsFinished_wrapErr.
    apply keepsFinished_bind;
      [apply keepsFinished_wrapErr, keepsFinished_verifyAuction|intros [a v]].
    apply keepsFinished_bind; [apply keepsFinished_liftE|intros _].
    apply keepsFinished_bind; [apply keepsFinished_claim, Hnow|intros a'].
    apply keepsFinished_bind; [apply keepsFinished_read|intros b].
    apply keepsFinished_ret.
  - intros [[a v] b]. case_match; [apply keepsFinished_fail|].
    apply keepsFinished_buildBlock.
Qed.

Lemma keepsFinished_ServiceBuildV1 (c : Chain) (height : Z)
    (validatorAddr : string) (maxBytes maxGas : Z) (mempool : list bytes)
    (signature : bytes) (now : Time) :
  now <> 0 ->
  keepsFinished
    (ServiceBuildV1 c height validatorAddr maxBytes maxGas mempool signature now).
Proof.
  intros Hnow. unfold ServiceBuildV1, Transact.
  apply keepsFinished_bind;
    [apply keepsFinished_wrapErr, keepsFinished_readR|intros ch].
  apply keepsFinished_bind;
    [apply keepsFinished_wrapErr, keepsFinished_lift|intros L].
  apply keepsFinished_bind;
    [apply keepsFinished_wrapErr, keepsFinished_lift|intros vs].
  destruct (negb (vs_Height vs =? L)); [apply keepsFinished_fail|].
  apply keepsFinished_bind; [apply keepsFinished_liftE|intros _].
  apply keepsFinished_bind;
    [apply keepsFinished_wrapErr, keepsFinished_lift|intros p].
  case_match; [apply keepsFinished_fail|].
  apply keepsFinished_bind; [apply keepsFinished_liftE|intros _].
  apply keepsFinished_bind.
  { apply keepsFinished_write. intros s. apply auctions_UpsertValidator. }
  intros _.
  apply keepsFinished_bind.
  - apply keepsFinished_wrapErr.
    apply keepsFinished_bind; [apply keepsFinished_findOrCreateAuction|intros a].
    case_match; [apply keepsFinished_fail|].
    case_match; [apply keepsFinished_fail|].
    apply keepsFinished_bind; [apply keepsFinished_claim, Hnow|intros a'].
    apply keepsFinished_bind; [apply keepsFinished_read|intros b].
    apply keepsFinished_ret.
  - intros [a b]. apply keepsFinished_buildBlock.
Qed.

(** ** The window of heights *)

Lemma checkHeightWindow_too_old (chainID : string) (L off h : Z) :
  h < L ->
  checkHeightWindow chainID L off h = Some (Wrapf chainID (Sentinel ErrAuctionTooOld)).
Proof.
  intros Hlt. unfold checkHeightWindow.
  destruct (Z.ltb_spec h L); [reflexivity|lia].
Qed.

Lemma checkHeightWindow_too_new (chainID : string) (L off h : Z) :
  in_int64 L -> in_int64 h -> 0 <= off -> h > L + off ->
  checkHeightWindow chainID L off h = Some (Wrapf chainID (Sentinel ErrAuctionTooNew)).
Proof.
  intros HL Hh Hoff Hgt. unfold checkHeightWindow, add64.
  rewrite wrap64_id by (unfold in_int64 in *; lia).
  destruct (Z.ltb_spec h L); [lia|].
  destruct (Z.gtb_spec h (L + off)); [reflexivity|lia].
Qed.

Lemma checkHeightWindow_pass (chainID : string) (L off h : Z) :
  in_int64 L -> 0 <= off -> L + off <= max_int64 -> L <= h <= L + off ->
  checkHeightWindow chainID L off h = None.
Proof.
  intros HL Hoff Hmax Hin. unfold checkHeightWindow, add64.
  rewrite wrap64_id by (unfold in_int64 in *; lia).
  destruct (Z.ltb_spec h L); [lia|].
  destruct (Z.gtb_spec h (L + off)); [lia|reflexivity].
Qed.

(** A request that gets the latest height and fails the window test fails
    with the error of the test. *)
Lemma verifyAuction_window_error (c : Chain) (s : Store) (L h off : Z)
    (now : Time) (e : error) :
  chainReady c s L ->
  checkHeightWindow (ID c) L off h = Some e ->
  verifyAuction c h off now s = (s, Err e).
Proof.
  intros (Hch & HL & vs & Hvs & Hh) Hw.
  destruct Hch as [ch Hch].
  unfold verifyAuction, bind, wrapErr, readR, lift, SelectChain, liftE.
  rewrite Hch, HL, Hvs, Hh, Z.eqb_refl, Hw. reflexivity.
Qed.

Lemma ServiceBuildV1_window_error (c : Chain) (s : Store) (L h : Z)
    (validatorAddr : string) (maxBytes maxGas : Z) (mempool : list bytes)
    (signature : bytes) (now : Time) (e : error) :
  chainReady c s L ->
  checkHeightWindow (ID c) L 2 h = Some e ->
  ServiceBuildV1 c h validatorAddr maxBytes maxGas mempool signature now s
  = (s, Err e).
Proof.
  intros (Hch & HL & vs & Hvs & Hh) Hw.
  destruct Hch as [ch Hch].
  unfold ServiceBuildV1, bind, wrapErr, readR, lift, SelectChain, liftE.
  rewrite Hch, HL, Hvs, Hh, Z.eqb_refl, Hw. reflexivity.
Qed.

Lemma ServiceAuction_verify_error (c : Chain) (s s' : Store) (h : Z)
    (now : Time) (e : error) :
  verifyAuction c h 10 now s = (s', Err e) ->
  ServiceAuction c h now s = (s', Err e).
Proof.
  intros Hv. unfold ServiceAuction, Transact, bind. rewrite Hv. reflexivity.
Qed.

Lemma ServiceBid_verify_error (c : Chain) (s s' : Store) (h : Z) (kind : string)
    (txbs : list bytes) (newV4 : result UUID) (now : Time) (e : error) :
  verifyAuction c h 10 now s = (s', Err e) ->
  ServiceBid c h kind txbs newV4 now s = (s', Err (Wrapf "fetch auction" e)).
Proof.
  intros Hv. unfold ServiceBid, bind, wrapErr.
  rewrite (ServiceAuction_verify_error _ _ _ _ _ _ Hv). reflexivity.
Qed.

Lemma ServiceBuild_verify_error (c : Chain) (s s' : Store) (h : Z)
    (validatorAddr : string) (maxBytes maxGas : Z) (mempool : list bytes)
    (signature : bytes) (now : Time) (e : error) :
  verifyAuction c h 2 now s = (s', Err e) ->
  ServiceBuild c h validatorAddr maxBytes maxGas mempool signature now s
  = (s', Err (Wrapf "claim failed" (Wrapf "verify auction" e))).
Proof.
  intros Hv. unfold ServiceBuild, Transact, bind, wrapErr.
  rewrite Hv. reflexivity.
Qed.

(** ** Requests for a finished auction *)

Lemma verifyAuction_finished_fails (c : Chain) (h off : Z) (now : Time)
    (s : Store) :
  finished s (ID c) h ->
  exists e, verifyAuction c h off now s = (s, Err e).
Proof.
  intros (a & Ha & Hz).
  unfold verifyAuction, bind, wrapErr, readR, lift, liftE, fail, ret.
  destruct (SelectChain s (ID c)) as [ch|e]; [|eauto].
  destruct (LatestHeight c) as [L|e]; [|eauto].
  destruct (GetValidatorSet c L) as [vs|e]; [|eauto].
  destruct (negb (vs_Height vs =? L)); [eauto|].
  destruct (checkHeightWindow (ID c) L off h); [eauto|].
  destruct (PredictProposer c vs h) as [p|e]; [|eauto].
  destruct (SelectValidator s (ID c) (cv_Address p)) as [v|e]; [|eauto].
  unfold findOrCreateAuction, SelectAuction. rewrite Ha, Hz. simpl. eauto.
Qed.

Lemma verifyAuction_finished_reached (c : Chain) (h off : Z) (now : Time)
    (s : Store) :
  finished s (ID c) h -> reachesAuction c s h off ->
  verifyAuction c h off now s = (s, Err (Sentinel ErrAuctionFinished)).
Proof.
  intros (a & Ha & Hz)
         (L & vs & p & ([ch Hch] & HL & vs' & Hvs' & Hh) & Hvs & Hw & Hp & [v Hv]).
  rewrite Hvs in Hvs'. injection Hvs' as <-.
  unfold verifyAuction, bind, wrapErr, readR, lift, liftE, fail, ret,
    SelectChain, SelectValidator.
  rewrite Hch, HL, Hvs, Hh, Z.eqb_refl, Hw, Hp. cbn [negb]. cbv beta iota.
  rewrite Hv. cbv beta iota.
  unfold findOrCreateAuction, SelectAuction. rewrite Ha, Hz. reflexivity.
Qed.

Lemma ServiceBuildV1_finished_fails (c : Chain) (h : Z) (validatorAddr : string)
    (maxBytes maxGas : Z) (mempool : list bytes) (signature : bytes)
    (now : Time) (s : Store) :
  finished s (ID c) h ->
  is_Err (snd (ServiceBuildV1 c h validatorAddr maxBytes maxGas mempool
                 signature now s)) = true.
Proof.
  intros (a & Ha & Hz).
  unfold ServiceBuildV1, Transact, bind, wrapErr, readR, lift, liftE, fail,
    ret, write.
  destruct (SelectChain s (ID c)) as [ch|e]; [|reflexivity].
  destruct (LatestHeight c) as [L|e]; [|reflexivity].
  destruct (GetValidatorSet c L) as [vs|e]; [|reflexivity].
  destruct (negb (vs_Height vs =? L)); [reflexivity|].
  destruct (checkHeightWindow (ID c) L 2 h); [reflexivity|].
  destruct (PredictProposer c vs h) as [p|e]; [|reflexivity].
  destruct (negb (bool_decide (cv_Address p = validatorAddr))); [reflexivity|].
  destruct (VerifySignature c _ _ _ signature); [reflexivity|].
  unfold findOrCreateAuction, SelectAuction.
  rewrite auctions_UpsertValidator, Ha, Hz. reflexivity.
Qed.

Lemma ServiceBuildV1_finished_reached (c : Chain) (h : Z)
    (validatorAddr : string) (maxBytes maxGas : Z) (mempool : list bytes)
    (signature : bytes) (now : Time) (s : Store) :
  finished s (ID c) h ->
  reachesAuctionV1 c s h validatorAddr maxBytes maxGas mempool signature ->
  fails_with (snd (ServiceBuildV1 c h validatorAddr maxBytes maxGas mempool
                     signature now s)) ErrAuctionFinished = true.
Proof.
  intros (a & Ha & Hz)
         (L & vs & p & ([ch Hch] & HL & vs' & Hvs' & Hh) & Hvs & Hw & Hp
          & Haddr & Hsig).
  rewrite Hvs in Hvs'. injection Hvs' as <-.
  unfold ServiceBuildV1, Transact, bind, wrapErr, readR, lift, liftE, fail,
    ret, write, SelectChain.
  rewrite Hch, HL, Hvs, Hh, Z.eqb_refl, Hw, Hp. cbn [negb]. cbv beta iota.
  rewrite bool_decide_eq_true_2 by exact Haddr. cbn [negb]. cbv beta iota.
  rewrite Hsig. cbv beta iota.
  unfold findOrCreateAuction, SelectAuction.
  rewrite auctions_UpsertValidator, Ha, Hz. reflexivity.
Qed.

(** C4, as the code has it. Once the auction of a chain and height is
    finished, every Auction, Bid, Build and BuildV1 request for it fails;
    the error is AuctionFinished whenever the request gets as far as looking
    the auction up (the tests made before that, the window of heights among
    them, report their own errors first); and no request of the service makes
    a finished auction unfinished again. *)
Theorem finished_auction_stays_closed (c : Chain) (s : Store) (h : Z)
    (now : Time) (kind : string) (txbs : list bytes) (newV4 : result UUID)
    (validatorAddr paymentAddr challengeID : string) (maxBytes maxGas : Z)
    (mempool : list bytes) (random32 signature : bytes) :
  finished s (ID c) h -> now <> 0 ->
  let auction := ServiceAuction c h now in
  let bid := ServiceBid c h kind txbs newV4 now in
  let build :=
    ServiceBuild c h validatorAddr maxBytes maxGas mempool signature now in
  let buildV1 :=
    ServiceBuildV1 c h validatorAddr maxBytes maxGas mempool signature now in
  (is_Err (snd (auction s)) = true /\ is_Err (snd (bid s)) = true /\
   is_Err (snd (build s)) = true /\ is_Err (snd (buildV1 s)) = true) /\
  (reachesAuction c s h 10 ->
   fails_with (snd (auction s)) ErrAuctionFinished = true /\
   fails_with (snd (bid s)) ErrAuctionFinished = true) /\
  (reachesAuction c s h 2 ->
   fails_with (snd (build s)) ErrAuctionFinished = true) /\
  (reachesAuctionV1 c s h validatorAddr maxBytes maxGas mempool signature ->
   fails_with (snd (buildV1 s)) ErrAuctionFinished = true) /\
  (keepsFinished auction /\ keepsFinished bid /\ keepsFinished build /\
   keepsFinished buildV1 /\
   keepsFinished (ServiceApply c validatorAddr paymentAddr random32 newV4 now) /\
   keepsFinished (ServiceRegister c challengeID signature now)).
Proof.
  intros Hfin Hnow. cbv zeta.
  split; [|split; [|split; [|split]]].
  - destruct (verifyAuction_finished_fails c h 10 now s Hfin) as [e10 H10].
    destruct (verifyAuction_finished_fails c h 2 now s Hfin) as [e2 H2].
    rewrite (ServiceAuction_verify_error _ _ _ _ _ _ H10).
    rewrite (ServiceBid_verify_error _ _ _ _ kind txbs newV4 _ _ H10).
    rewrite (ServiceBuild_verify_error _ _ _ _ validatorAddr maxBytes maxGas
               mempool signature _ _ H2).
    repeat split; try reflexivity.
    apply ServiceBuildV1_finished_fails. exact Hfin.
  - intros Hreach.
    pose proof (verifyAuction_finished_reached c h 10 now s Hfin Hreach) as H10.
    rewrite (ServiceAuction_verify_error _ _ _ _ _ _ H10).
    rewrite (ServiceBid_verify_error _ _ _ _ kind txbs newV4 _ _ H10).
    split; reflexivity.
  - intros Hreach.
    pose proof (verifyAuction_finished_reached c h 2 now s Hfin Hreach) as H2.
    rewrite (ServiceBuild_verify_error _ _ _ _ validatorAddr maxBytes maxGas
               mempool signature _ _ H2).
    reflexivity.
  - intros Hreach. apply ServiceBuildV1_finished_reached; assumption.
  - repeat split.
    + apply keepsFinished_ServiceAuction.
    + apply keepsFinished_ServiceBid.
    + apply keepsFinished_ServiceBuild, Hnow.
    + apply keepsFinished_ServiceBuildV1, Hnow.
    + apply keepsFinished_ServiceApply.
    + apply keepsFinished_ServiceRegister.
Qed.

(** C5. With the chain answering and its latest height [L]: a request for a
    height below [L] fails with AuctionTooOld, a request for a height above
    [L + offset] fails with AuctionTooNew (offset 10 for Auction and Bid, 2
    for Build and BuildV1), and the heights from [L] to [L + offset] pass the
    test of the window. *)
Theorem height_window (c : Chain) (s : Store) (L h : Z) (now : Time)
    (kind : string) (txbs : list bytes) (newV4 : result UUID)
    (validatorAddr : string) (maxBytes maxGas : Z) (mempool : list bytes)
    (signature : bytes) :
  chainReady c s L -> in_int64 L -> in_int64 h ->
  let auction := snd (ServiceAuction c h now s) in
  let bid := snd (ServiceBid c h kind txbs newV4 now s) in
  let build :=
    snd (ServiceBuild c h validatorAddr maxBytes maxGas mempool signature now s) in
  let buildV1 :=
    snd (ServiceBuildV1 c h validatorAddr maxBytes maxGas mempool signature now s) in
  (h < L ->
     fails_with auction ErrAuctionTooOld = true /\
     fails_with bid ErrAuctionTooOld = true /\
     fails_with build ErrAuctionTooOld = true /\
     fails_with buildV1 ErrAuctionTooOld = true) /\
  (h > L + 10 ->
     fails_with auction ErrAuctionTooNew = true /\
     fails_with bid ErrAuctionTooNew = true) /\
  (h > L + 2 ->
     fails_with build ErrAuctionTooNew = true /\
     fails_with buildV1 ErrAuctionTooNew = true) /\
  (L + 10 <= max_int64 -> L <= h <= L + 10 ->
     checkHeightWindow (ID c) L 10 h = None) /\
  (L + 2 <= max_int64 -> L <= h <= L + 2 ->
     checkHeightWindow (ID c) L 2 h = None).
Proof.
  intros Hready HL Hh. cbv zeta.
  assert (Hold : h < L ->
            checkHeightWindow (ID c) L 10 h
            = Some (Wrapf (ID c) (Sentinel ErrAuctionTooOld)) /\
            checkHeightWindow (ID c) L 2 h
            = Some (Wrapf (ID c) (Sentinel ErrAuctionTooOld)))
    by (intros; split; apply checkHeightWindow_too_old; assumption).
  split; [|split; [|split; [|split]]].
  - intros Hlt. destruct (Hold Hlt) as [H10 H2].
    rewrite (ServiceAuction_verify_error _ _ _ _ _ _
               (verifyAuction_window_error _ _ _ _ _ now _ Hready H10)).
    rewrite (ServiceBid_verify_error _ _ _ _ kind txbs newV4 _ _
               (verifyAuction_window_error _ _ _ _ _ now _ Hready H10)).
    rewrite (ServiceBuild_verify_error _ _ _ _ validatorAddr maxBytes maxGas
               mempool signature _ _
               (verifyAuction_window_error _ _ _ _ _ now _ Hready H2)).
    rewrite (ServiceBuildV1_window_error _ _ _ _ validatorAddr maxBytes maxGas
               mempool signature now _ Hready H2).
    repeat split; reflexivity.
  - intros Hgt.
    assert (H10 : checkHeightWindow (ID c) L 10 h
                  = Some (Wrapf (ID c) (Sentinel ErrAuctionTooNew)))
      by (apply checkHeightWindow_too_new; try assumption; lia).
    rewrite (ServiceAuction_verify_error _ _ _ _ _ _
               (verifyAuction_window_error _ _ _ _ _ now _ Hready H10)).
    rewrite (ServiceBid_verify_error _ _ _ _ kind txbs newV4 _ _
               (verifyAuction_window_error _ _ _ _ _ now _ Hready H10)).
    split; reflexivity.
  - intros Hgt.
    assert (H2 : checkHeightWindow (ID c) L 2 h
                 = Some (Wrapf (ID c) (Sentinel ErrAuctionTooNew)))
      by (apply checkHeightWindow_too_new; try assumption; lia).
    rewrite (ServiceBuild_verify_error _ _ _ _ validatorAddr maxBytes maxGas
               mempool signature _ _
               (verifyAuction_window_error _ _ _ _ _ now _ Hready H2)).
    rewrite (ServiceBuildV1_window_error _ _ _ _ validatorAddr maxBytes maxGas
               mempool signature now _ Hready H2).
    split; reflexivity.
  - intros Hmax Hin. apply checkHeightWindow_pass; try assumption; lia.
  - intros Hmax Hin. apply checkHeightWindow_pass; try assumption; lia.
Qed.

End Properties.

(** * Properties of the caches *)

Section CacheProperties.

Context {K : Type} `{Countable K} {V : Type}.
Variable zeroval : V.

Local Abbreviation condCache := (@condCache K _ _ V).
Local Abbreviation ringCache := (@ringCache K _ _ V).

(** ** removeFirst *)

Lemma removeFirst_not_in (key : K) (l : list K) :
  key ∉ l -> removeFirst key l = l.
Proof.
  induction l as [|k l IH]; simpl; intros Hnin; [reflexivity|].
  apply not_elem_of_cons in Hnin as [Hne Hnin].
  rewrite bool_decide_eq_false_2 by congruence. rewrite IH by exact Hnin.
  reflexivity.
Qed.

Lemma elem_of_removeFirst (key k : K) (l : list K) :
  k ∈ removeFirst key l -> k ∈ l.
Proof.
  induction l as [|x l IH]; simpl; [auto|].
  case_bool_decide; intros Hin.
  - apply elem_of_cons. right. exact Hin.
  - apply elem_of_cons in Hin as [->|Hin]; apply elem_of_cons; auto.
Qed.

Lemma elem_of_removeFirst_ne (key k : K) (l : list K) :
  k <> key -> k ∈ l -> k ∈ removeFirst key l.
Proof.
  intros Hne. induction l as [|x l IH]; simpl; [auto|].
  intros Hin. apply elem_of_cons in Hin as [->|Hin].
  - rewrite bool_decide_eq_false_2 by exact Hne. apply elem_of_cons. auto.
  - case_bool_decide; [exact Hin|]. apply elem_of_cons. auto.
Qed.

Lemma NoDup_removeFirst (key : K) (l : list K) :
  NoDup l -> NoDup (removeFirst key l) /\ key ∉ removeFirst key l.
Proof.
  induction 1 as [|x l Hx Hl IH]; simpl.
  - split; [constructor|apply not_elem_of_nil].
  - case_bool_decide as Hd.
    + subst. auto.
    + destruct IH as [IH1 IH2]. split.
      * constructor; [|exact IH1]. intros Hin. apply Hx.
        eapply elem_of_removeFirst. exact Hin.
      * apply not_elem_of_cons. split; [congruence|exact IH2].
Qed.

Lemma length_removeFirst_in (key : K) (l : list K) :
  key ∈ l -> S (length (removeFirst key l)) = length l.
Proof.
  induction l as [|x l IH]; simpl; intros Hin.
  - apply elem_of_nil in Hin. contradiction.
  - case_bool_decide as Hd; [reflexivity|].
    apply elem_of_cons in Hin as [->|Hin]; [congruence|].
    simpl. rewrite IH by exact Hin. reflexivity.
Qed.

(** ** condCache *)

Lemma lookup_deleteAll (kills : list K) (m : gmap K (@condItem V)) (k : K) :
  deleteAll kills m !! k = if bool_decide (k ∈ kills) then None else m !! k.
Proof.
  unfold deleteAll. revert m.
  induction kills as [|x kills IH]; intros m; simpl; [reflexivity|].
  rewrite IH. destruct (decide (x = k)) as [->|Hne].
  - rewrite lookup_delete_eq.
    rewrite (bool_decide_eq_true_2 (k ∈ k :: kills)) by (apply elem_of_cons; auto).
    case_bool_decide; reflexivity.
  - rewrite lookup_delete_ne by exact Hne.
    case_bool_decide as Hin.
    + rewrite bool_decide_eq_true_2 by (apply elem_of_cons; auto). reflexivity.
    + rewrite bool_decide_eq_false_2; [reflexivity|].
      intros Hin'. apply elem_of_cons in Hin' as [->|Hin']; congruence.
Qed.

Lemma condInv_new (lim : Z) :
  0 <= lim -> condInv (newCondCache lim : condCache).
Proof.
  intros Hlim. split; [constructor|]. split; simpl; [|lia].
  intros k. rewrite lookup_empty. split.
  - intros Hin. apply elem_of_nil in Hin. contradiction.
  - intros [x Hx]. discriminate.
Qed.

Lemma condInv_Len (c : condCache) : condInv c -> condCache_Len c <= limit c.
Proof.
  intros (Hnd & Hdom & Hlen). unfold condCache_Len.
  assert (Hsize : size (cache c) = length (order c)).
  { rewrite <- (size_dom (D := gset K)).
    rewrite <- (size_list_to_set (C := gset K)) by exact Hnd.
    f_equal. apply set_eq. intros k.
    rewrite elem_of_dom, elem_of_list_to_set. symmetry. apply Hdom. }
  rewrite Hsize. exact Hlen.
Qed.

Lemma limit_condCache_get (c : condCache) (key : K) :
  limit (fst (condCache_get zeroval c key)) = limit c.
Proof.
  unfold condCache_get. destruct (cache c !! key); simpl;
    destruct (seq_poke (limit c) (order c) key); reflexivity.
Qed.

(** [get]: the key goes to the back of the line; the keys that no longer
    fit are cut off the front and leave the map. *)
Lemma condCache_get_unfold (c : condCache) (key : K) :
  let cache1 := match cache c !! key with
                | Some _ => cache c
                | None => <[key := newCondItem zeroval]> (cache c)
                end in
  let set1 := removeFirst key (order c) ++ [key] in
  let d := Z.to_nat (Z.of_nat (length set1) - limit c) in
  cache (fst (condCache_get zeroval c key)) = deleteAll (take d set1) cache1 /\
  order (fst (condCache_get zeroval c key)) = drop d set1.
Proof.
  cbv zeta. unfold condCache_get, seq_poke.
  set (set1 := removeFirst key (order c) ++ [key]).
  destruct (Z.ltb_spec 0 (Z.of_nat (length set1) - limit c)) as [Hd|Hd].
  - destruct (cache c !! key); simpl; auto.
  - replace (Z.to_nat (Z.of_nat (length set1) - limit c)) with 0%nat by lia.
    destruct (cache c !! key); simpl; auto.
Qed.

Lemma condInv_get (c : condCache) (key : K) :
  condInv c -> condInv (fst (condCache_get zeroval c key)).
Proof.
  intros (Hnd & Hdom & Hlen).
  destruct (condCache_get_unfold c key) as [Hcache Horder].
  set (cache1 := match cache c !! key with
                 | Some _ => cache c
                 | None => <[key := newCondItem zeroval]> (cache c)
                 end) in *.
  set (set1 := removeFirst key (order c) ++ [key]) in *.
  set (d := Z.to_nat (Z.of_nat (length set1) - limit c)) in *.
  destruct (NoDup_removeFirst key (order c) Hnd) as [Hnd1 Hnin1].
  assert (Hnd_set1 : NoDup set1).
  { apply NoDup_app. split; [exact Hnd1|]. split; [|apply NoDup_singleton].
    intros x Hx Hx'. apply list_elem_of_singleton in Hx'. subst. auto. }
  assert (Hdom1 : forall k, k ∈ set1 <-> is_Some (cache1 !! k)).
  { intros k. unfold set1, cache1. rewrite elem_of_app, list_elem_of_singleton.
    destruct (decide (k = key)) as [->|Hne].
    - split; [intros _|auto].
      destruct (cache c !! key) eqn:Hk; [rewrite Hk; eauto|].
      rewrite lookup_insert_eq. eauto.
    - split.
      + intros [Hin|Heq]; [|contradiction].
        apply elem_of_removeFirst, Hdom in Hin.
        destruct (cache c !! key); [exact Hin|].
        rewrite lookup_insert_ne by congruence. exact Hin.
      + intros Hsome. left. apply elem_of_removeFirst_ne; [exact Hne|].
        apply Hdom. destruct (cache c !! key); [exact Hsome|].
        rewrite lookup_insert_ne in Hsome by congruence. exact Hsome. }
  assert (Hlen1 : (length set1 <= S (length (order c)))%nat).
  { unfold set1. rewrite length_app. simpl.
    destruct (decide (key ∈ order c)) as [Hin|Hnin].
    - pose proof (length_removeFirst_in key (order c) Hin). lia.
    - rewrite removeFirst_not_in by exact Hnin. lia. }
  rewrite <- (take_drop d set1) in Hnd_set1.
  apply NoDup_app in Hnd_set1 as (Hnd_take & Hdisj & Hnd_drop).
  split; [rewrite Horder; exact Hnd_drop|].
  split.
  - intros k. rewrite Horder, Hcache, lookup_deleteAll.
    case_bool_decide as Hin.
    + split; [intros Hk; exfalso; eapply Hdisj; eauto|].
      intros [x Hx]. discriminate.
    + rewrite <- Hdom1. rewrite <- (take_drop d set1) at 2.
      rewrite elem_of_app. tauto.
  - rewrite Horder, length_drop, limit_condCache_get. unfold d. lia.
Qed.

Lemma condInv_del (c : condCache) (key : K) :
  condInv c -> condInv (condCache_del c key).
Proof.
  intros (Hnd & Hdom & Hlen). unfold condCache_del, seq_drop.
  destruct (NoDup_removeFirst key (order c) Hnd) as [Hnd1 Hnin1].
  split; [exact Hnd1|]. split; simpl.
  - intros k. destruct (decide (k = key)) as [->|Hne].
    + rewrite lookup_delete_eq. split; [contradiction|].
      intros [x Hx]. discriminate.
    + rewrite lookup_delete_ne by congruence. rewrite <- Hdom. split.
      * apply elem_of_removeFirst.
      * apply elem_of_removeFirst_ne. exact Hne.
  - destruct (decide (key ∈ order c)) as [Hin|Hnin].
    + pose proof (length_removeFirst_in key (order c) Hin). lia.
    + rewrite removeFirst_not_in by exact Hnin. exact Hlen.
Qed.

Lemma condInv_Get (c : condCache) (key : K) (fill : K -> V * option error) :
  condInv c -> condInv (fst (condCache_Get zeroval c key fill)).
Proof.
  intros Hinv. unfold condCache_Get.
  pose proof (condInv_get c key Hinv) as Hget.
  destruct (condCache_get zeroval c key) as [c1 [item valid]]. simpl in Hget.
  destruct valid; [exact Hget|].
  destruct (fill key) as [val err]. simpl.
  assert (Hc2 : condInv (match err with
                         | Some _ => condCache_del c1 key
                         | None => c1
                         end))
    by (destruct err; [apply condInv_del|]; exact Hget).
  destruct Hc2 as (Hnd & Hdom & Hlen).
  split; [exact Hnd|]. split; [|exact Hlen].
  intros k. simpl. rewrite Hdom, lookup_alter.
  case_decide; [subst|reflexivity].
  rewrite <- !not_eq_None_Some. rewrite fmap_None. reflexivity.
Qed.

Lemma limit_condCache_Get (c : condCache) (key : K) (fill : K -> V * option error) :
  limit (fst (condCache_Get zeroval c key fill)) = limit c.
Proof.
  unfold condCache_Get.
  pose proof (limit_condCache_get c key) as Hl.
  destruct (condCache_get zeroval c key) as [c1 [item valid]]. simpl in Hl.
  destruct valid; [exact Hl|].
  destruct (fill key) as [val [e|]]; simpl; exact Hl.
Qed.

Lemma condCache_run_inv (c : condCache) (calls : list (@cacheCall K V)) :
  condInv c ->
  condInv (condCache_run zeroval c calls) /\
  limit (condCache_run zeroval c calls) = limit c.
Proof.
  unfold condCache_run. revert c.
  induction calls as [|call calls IH]; intros c Hinv; simpl; [auto|].
  destruct call as [k filled|]; simpl.
  - destruct (IH _ (condInv_Get c k (fun _ => filled) Hinv)) as [IH1 IH2].
    split; [exact IH1|]. rewrite IH2. apply limit_condCache_Get.
  - apply IH. exact Hinv.
Qed.

Lemma condInv_size (c : condCache) :
  condInv c -> size (cache c) = length (order c).
Proof.
  intros (Hnd & Hdom & Hlen).
  rewrite <- (size_dom (D := gset K)).
  rewrite <- (size_list_to_set (C := gset K)) by exact Hnd.
  f_equal. apply set_eq. intros k.
  rewrite elem_of_dom, elem_of_list_to_set. symmetry. apply Hdom.
Qed.

(** A new key put into a full condCache drives out the key at the front of
    the line, the one whose last access is the oldest; the new key goes to
    the back. *)
Lemma condCache_get_evicts_front (c : condCache) (key : K) :
  condInv c -> 0 < limit c -> cache c !! key = None ->
  Z.of_nat (size (cache c)) = limit c ->
  exists victim rest,
    order c = victim :: rest /\ victim <> key /\
    order (fst (condCache_get zeroval c key)) = rest ++ [key] /\
    cache (fst (condCache_get zeroval c key))
    = delete victim (<[key := newCondItem zeroval]> (cache c)).
Proof.
  intros Hinv Hlim Hmiss Hfull.
  pose proof (condInv_size c Hinv) as Hsize.
  destruct Hinv as (Hnd & Hdom & Hlen).
  assert (Hnin : key ∉ order c).
  { intros Hin. apply Hdom in Hin as [x Hx]. congruence. }
  pose proof (condCache_get_unfold c key) as Hunf. cbv zeta in Hunf.
  rewrite Hmiss, (removeFirst_not_in key (order c) Hnin) in Hunf.
  destruct (order c) as [|victim rest] eqn:Horder; [simpl in *; lia|].
  exists victim, rest. split; [reflexivity|].
  split.
  { intros ->. apply Hnin. apply elem_of_cons. auto. }
  replace (Z.to_nat (Z.of_nat (length ((victim :: rest) ++ [key])) - limit c))
    with 1%nat in Hunf
    by (rewrite length_app; simpl in *; lia).
  destruct Hunf as [Hcache Horder']. simpl in Hcache, Horder'. auto.
Qed.

(** A key that is in the condCache moves to the back of the line when it is
    accessed, and nothing leaves. *)
Lemma condCache_get_hit (c : condCache) (key : K) (item : @condItem V) :
  condInv c -> cache c !! key = Some item ->
  condCache_get zeroval c key
  = (mkCondCache (limit c) (cache c) (removeFirst key (order c) ++ [key]),
     (item, true)).
Proof.
  intros (Hnd & Hdom & Hlen) Hhit.
  assert (Hin : key ∈ order c) by (apply Hdom; eauto).
  pose proof (length_removeFirst_in key (order c) Hin) as Hl.
  unfold condCache_get, seq_poke. rewrite Hhit.
  destruct (Z.ltb_spec 0 (Z.of_nat (length (removeFirst key (order c) ++ [key]))
                          - limit c)) as [Hd|Hd].
  - rewrite length_app in Hd. simpl in Hd. lia.
  - reflexivity.
Qed.

(** ** ringCache *)

Lemma size_list_to_set_le (l : list K) :
  (size (list_to_set (C := gset K) l) <= length l)%nat.
Proof.
  induction l as [|x l IH].
  - rewrite list_to_set_nil, size_empty. simpl. lia.
  - rewrite list_to_set_cons, size_union_alt, size_singleton. simpl.
    assert (Hsub : list_to_set l ∖ {[x]} ⊆ list_to_set (C := gset K) l).
    { intros y Hy. apply elem_of_difference in Hy. tauto. }
    apply subseteq_size in Hsub. lia.
Qed.

Lemma length_omap_le {A B} (f : A -> option B) (l : list A) :
  (length (omap f l) <= length l)%nat.
Proof.
  induction l as [|x l IH]; csimpl; [lia|].
  destruct (f x); csimpl; lia.
Qed.

Lemma ringInv_Len (c : ringCache) :
  ringInv c -> ringCache_Len c <= Z.of_nat (length (ring c)).
Proof.
  intros [Hidx _]. unfold ringCache_Len.
  rewrite <- (size_dom (D := gset K)).
  pose proof (subseteq_size (dom (index c))
                (list_to_set (C := gset K) (omap (fmap ri_key) (ring c)))) as Hsub.
  pose proof (size_list_to_set_le (omap (fmap ri_key) (ring c))).
  pose proof (length_omap_le (fmap (M := option) ri_key) (ring c)).
  enough (size (dom (index c))
          <= size (list_to_set (C := gset K) (omap (fmap ri_key) (ring c))))%nat
    by lia.
  apply Hsub. intros k Hk.
  apply elem_of_dom in Hk as [pos Hpos].
  destruct (Hidx k pos Hpos) as (it & Hit & Hkey).
  apply elem_of_list_to_set, list_elem_of_omap.
  exists (Some it). split.
  - eapply list_elem_of_lookup_2. exact Hit.
  - simpl. rewrite Hkey. reflexivity.
Qed.

Lemma ringInv_new (capacity : nat) :
  (0 < capacity)%nat -> ringInv (newRingCache capacity : ringCache).
Proof.
  intros Hcap. split; simpl.
  - intros k pos Hk. rewrite lookup_empty in Hk. discriminate.
  - rewrite length_replicate. exact Hcap.
Qed.

(** [item] never panics on a well-kept ring, keeps it well kept, and hands
    out the slot of the key. *)
Lemma ringInv_item (c : ringCache) (k : K) :
  ringInv c ->
  exists c' pos it,
    ringCache_item zeroval c k = Some (c', (pos, it)) /\
    ringInv c' /\ length (ring c') = length (ring c) /\
    index c' !! k = Some pos /\
    ring c' !! pos = Some (Some it) /\ ri_key it = k.
Proof.
  intros [Hidx Hhead]. unfold ringCache_item.
  destruct (index c !! k) as [pos|] eqn:Hk.
  - destruct (Hidx k pos Hk) as (it & Hit & Hkey). rewrite Hit.
    exists c, pos, it. repeat split; auto.
  - destruct (lookup_lt_is_Some_2 (ring c) (head c) Hhead) as [old Hold].
    rewrite Hold.
    eexists _, _, _. split; [reflexivity|]. simpl.
    split; [|split; [apply length_insert|split;
      [apply lookup_insert_eq|split;
        [apply list_lookup_insert_eq; exact Hhead|reflexivity]]]].
    split; simpl.
    + intros k' pos' Hk'.
      destruct (decide (k = k')) as [<-|Hne].
      * rewrite lookup_insert_eq in Hk'. injection Hk' as <-.
        eexists. split; [apply list_lookup_insert_eq; exact Hhead|reflexivity].
      * rewrite lookup_insert_ne in Hk' by exact Hne.
        assert (Hk0 : index c !! k' = Some pos' /\
                      (forall o, old = Some o -> ri_key o <> k')).
        { destruct old as [o|].
          - destruct (decide (ri_key o = k')) as [Heq|Hneq].
            + rewrite Heq, lookup_delete_eq in Hk'. discriminate.
            + rewrite lookup_delete_ne in Hk' by exact Hneq.
              split; [exact Hk'|]. intros o' [= <-]. exact Hneq.
          - split; [exact Hk'|]. intros o' Ho'. discriminate. }
        destruct Hk0 as [Hk0 Hold'].
        destruct (Hidx k' pos' Hk0) as (it' & Hit' & Hkey').
        assert (Hpos : head c <> pos').
        { intros <-. rewrite Hold in Hit'. injection Hit' as ->.
          eapply Hold'; eauto. }
        exists it'. rewrite list_lookup_insert_ne by exact Hpos. auto.
    + rewrite length_insert. apply Nat.mod_upper_bound. lia.
Qed.

Lemma ringInv_del (c : ringCache) (k : K) :
  ringInv c ->
  ringInv (ringCache_del c k) /\
  length (ring (ringCache_del c k)) = length (ring c).
Proof.
  intros [Hidx Hhead]. unfold ringCache_del.
  destruct (index c !! k) as [pos|] eqn:Hk; [|split; [split|]; auto].
  simpl. split; [|apply length_insert].
  split; simpl; [|rewrite length_insert; exact Hhead].
  intros k' pos' Hk'.
  destruct (decide (k = k')) as [<-|Hne].
  - rewrite lookup_delete_eq in Hk'. discriminate.
  - rewrite lookup_delete_ne in Hk' by exact Hne.
    destruct (Hidx k' pos' Hk') as (it' & Hit' & Hkey').
    destruct (Hidx k pos Hk) as (it & Hit & Hkey).
    assert (Hpos : pos <> pos').
    { intros <-. rewrite Hit in Hit'. injection Hit' as ->. congruence. }
    exists it'. rewrite list_lookup_insert_ne by exact Hpos. auto.
Qed.

Lemma ringInv_Get (c : ringCache) (k : K) (fill : K -> V * option error) :
  ringInv c ->
  exists c' r,
    ringCache_Get zeroval c k fill = Some (c', r) /\
    ringInv c' /\ length (ring c') = length (ring c).
Proof.
  intros Hinv. unfold ringCache_Get.
  destruct (ringInv_item c k Hinv)
    as (c1 & pos & it & Hitem & Hinv1 & Hlen1 & Hidx1 & Hslot & Hkey).
  rewrite Hitem.
  destruct (ri_ok it); [eauto|].
  destruct (fill k) as [v err].
  set (c2 := mkRingCache (index c1)
               (<[pos := Some (mkRingItem (ri_key it) v err true)]> (ring c1))
               (head c1)).
  assert (Hinv2 : ringInv c2 /\ length (ring c2) = length (ring c)).
  { destruct Hinv1 as [Hidx Hhead]. split; [|simpl; rewrite length_insert; exact Hlen1].
    split; simpl; [|rewrite length_insert; exact Hhead].
    intros k' pos' Hk'.
    destruct (Hidx k' pos' Hk') as (it' & Hit' & Hkey').
    destruct (decide (pos = pos')) as [<-|Hpos].
    - rewrite Hslot in Hit'. injection Hit' as <-.
      eexists. split; [apply list_lookup_insert_eq|exact Hkey'].
      eapply lookup_lt_Some. exact Hslot.
    - exists it'. rewrite list_lookup_insert_ne by exact Hpos. auto. }
  destruct Hinv2 as [Hinv2 Hlen2].
  destruct err as [e|].
  - destruct (ringInv_del c2 k Hinv2) as [Hinv3 Hlen3].
    eexists _, _. split; [reflexivity|]. split; [exact Hinv3|]. congruence.
  - eexists _, _. split; [reflexivity|]. auto.
Qed.

Lemma ringCache_run_inv (c : ringCache) (calls : list (@cacheCall K V)) :
  ringInv c ->
  exists c', ringCache_run zeroval c calls = Some c' /\
             ringInv c' /\ length (ring c') = length (ring c).
Proof.
  unfold ringCache_run. revert c.
  induction calls as [|call calls IH]; intros c Hinv; simpl; [eauto|].
  destruct call as [k filled|]; simpl.
  - destruct (ringInv_Get c k (fun _ => filled) Hinv) as (c1 & r & HGet & Hinv1 & Hlen1).
    rewrite HGet. simpl. destruct (IH c1 Hinv1) as (c' & Hrun & Hinv' & Hlen').
    exists c'. split; [exact Hrun|]. split; [exact Hinv'|]. congruence.
  - apply IH. exact Hinv.
Qed.

(** A new key put into the ringCache takes the slot under the head and
    drives out the key that was there, whatever has been accessed since that
    key came in. *)
Lemma ringCache_item_evicts_head (c : ringCache) (k : K) (old : @ringItem K V) :
  index c !! k = None -> ring c !! head c = Some (Some old) ->
  exists c' it,
    ringCache_item zeroval c k = Some (c', (head c, it)) /\
    index c' = <[k := head c]> (delete (ri_key old) (index c)).
Proof.
  intros Hmiss Hold. unfold ringCache_item. rewrite Hmiss, Hold.
  eexists _, _. split; reflexivity.
Qed.

(** A key that is cached and filled is answered from the cache: the answer
    is the stored one whatever [fill] would have said. *)
Lemma condCache_Get_cached (c : condCache) (key : K) (item : @condItem V)
    (fill : K -> V * option error) :
  condInv c -> cache c !! key = Some item -> ci_ready item = true ->
  snd (condCache_Get zeroval c key fill) = Some (ci_val item, ci_err item).
Proof.
  intros Hinv Hhit Hready. unfold condCache_Get.
  rewrite (condCache_get_hit c key item Hinv Hhit), Hready. reflexivity.
Qed.

Lemma ringCache_Get_cached (c : ringCache) (k : K) (pos : nat)
    (it : @ringItem K V) (fill : K -> V * option error) :
  index c !! k = Some pos -> ring c !! pos = Some (Some it) -> ri_ok it = true ->
  ringCache_Get zeroval c k fill = Some (c, (ri_value it, ri_err it)).
Proof.
  intros Hidx Hslot Hok. unfold ringCache_Get, ringCache_item.
  rewrite Hidx, Hslot, Hok. reflexivity.
Qed.

(** C7, as the code has it. With a capacity of at least one, after any
    calls of Get and Len the length reported by either cache is at most the
    capacity, and the ringCache does not fail. A new key arriving at a full
    condCache drives out the least recently accessed key, the front of its
    line, to the back of which every access moves the key it names. A new
    key arriving at the ringCache takes the slot under the head and drives
    out the key that held it, the one that came in longest ago, whatever has
    been accessed since. *)
Theorem caches_stay_within_capacity (capacity : nat)
    (calls : list (@cacheCall K V)) :
  (0 < capacity)%nat ->
  condCache_Len (condCache_run zeroval (newCondCache (Z.of_nat capacity)) calls)
  <= Z.of_nat capacity /\
  (exists c' : ringCache,
     ringCache_run zeroval (newRingCache capacity) calls = Some c' /\
     ringCache_Len c' <= Z.of_nat capacity) /\
  (forall (c : condCache) (key : K),
     condInv c -> 0 < limit c -> cache c !! key = None ->
     Z.of_nat (size (cache c)) = limit c ->
     exists victim rest,
       order c = victim :: rest /\ victim <> key /\
       order (fst (condCache_get zeroval c key)) = rest ++ [key] /\
       cache (fst (condCache_get zeroval c key))
       = delete victim (<[key := newCondItem zeroval]> (cache c))) /\
  (forall (c : condCache) (key : K) (item : @condItem V),
     condInv c -> cache c !! key = Some item ->
     condCache_get zeroval c key
     = (mkCondCache (limit c) (cache c) (removeFirst key (order c) ++ [key]),
        (item, true))) /\
  (forall (c : ringCache) (k : K) (old : @ringItem K V),
     index c !! k = None -> ring c !! head c = Some (Some old) ->
     exists c' it,
       ringCache_item zeroval c k = Some (c', (head c, it)) /\
       index c' = <[k := head c]> (delete (ri_key old) (index c))).
Proof.
  intros Hcap. split; [|split; [|split; [|split]]].
  - destruct (condCache_run_inv (newCondCache (Z.of_nat capacity)) calls
                (condInv_new (Z.of_nat capacity) ltac:(lia))) as [Hinv Hlim].
    apply condInv_Len in Hinv. rewrite Hlim in Hinv. exact Hinv.
  - destruct (ringCache_run_inv (newRingCache capacity) calls
                (ringInv_new capacity Hcap)) as (c' & Hrun & Hinv & Hlen).
    exists c'. split; [exact Hrun|].
    apply ringInv_Len in Hinv. rewrite Hlen in Hinv. simpl in Hinv.
    rewrite length_replicate in Hinv. exact Hinv.
  - apply condCache_get_evicts_front.
  - apply condCache_get_hit.
  - apply ringCache_item_evicts_head.
Qed.

End CacheProperties.

(** * More properties: the bids of the store *)

Section StoreProperties.
Context {ext : External}.

(** ** Bids *)

Lemma ListBids_InsertBid (s : Store) (b : Bid) (id : UUID) (now : Time)
    (cid : string) (h : Z) :
  ListBids (fst (InsertBid s b (Ok id) now)) cid h
  = if bool_decide ((cid, h) = (bid_ChainID b, bid_Height b))
    then ListBids s cid h ++ [bid_set_ID_CreatedAt b id now]
    else ListBids s cid h.
Proof.
  unfold ListBids, InsertBid. simpl.
  case_bool_decide as Hk.
  - rewrite Hk, lookup_insert_eq. reflexivity.
  - rewrite lookup_insert_ne by congruence. reflexivity.
Qed.

Lemma sameBidButState_refl (o : Bid) : sameBidButState o o.
Proof. destruct o; reflexivity. Qed.

Lemma sameBidButState_trans (a b c : Bid) :
  sameBidButState a b -> sameBidButState b c -> sameBidButState a c.
Proof.
  unfold sameBidButState. intros <- <-. destruct a; reflexivity.
Qed.

Lemma updateFirst_same (b : Bid) (now : Time) (os : list Bid) :
  Forall2 sameBidButState os (updateFirst b now os).
Proof.
  induction os as [|o os IH]; simpl; [constructor|].
  case_bool_decide.
  - constructor; [destruct o; reflexivity|].
    apply Forall2_same_length_lookup_2; [reflexivity|].
    intros i x y Hx Hy. assert (x = y) by congruence. subst.
    apply sameBidButState_refl.
  - constructor; [apply sameBidButState_refl|exact IH].
Qed.

Lemma Forall2_sameBidButState_refl (l : list Bid) : Forall2 sameBidButState l l.
Proof. induction l; constructor; auto using sameBidButState_refl. Qed.

Lemma Forall2_sameBidButState_trans (l1 l2 l3 : list Bid) :
  Forall2 sameBidButState l1 l2 -> Forall2 sameBidButState l2 l3 ->
  Forall2 sameBidButState l1 l3.
Proof.
  intros H12. revert l3. induction H12; intros l3 H23; inversion H23; subst;
    constructor; eauto using sameBidButState_trans.
Qed.

Lemma ListBids_UpdateBids (s : Store) (bs : list Bid) (now : Time)
    (cid : string) (h : Z) :
  Forall2 sameBidButState (ListBids s cid h) (ListBids (UpdateBids s bs now) cid h).
Proof.
  unfold UpdateBids. revert s.
  induction bs as [|b bs IH]; intros s; simpl.
  - apply Forall2_sameBidButState_refl.
  - eapply Forall2_sameBidButState_trans; [|apply IH].
    unfold ListBids. simpl.
    destruct (decide ((bid_ChainID b, bid_Height b) = (cid, h))) as [Hk|Hk].
    + rewrite Hk, lookup_alter_eq.
      destruct (bids s !! (cid, h)) as [l|]; simpl; [|constructor].
      apply updateFirst_same.
    + rewrite lookup_alter_ne by exact Hk. apply Forall2_sameBidButState_refl.
Qed.

End StoreProperties.

(** * The stable sort and the order of strings *)

(** ** Strings in Go's order *)

Lemma String_ltb_lt (a b : string) :
  String.ltb a b = true <-> OrdersEx.String_as_OT.lt a b.
Proof.
  unfold String.ltb, OrdersEx.String_as_OT.lt.
  change (OrdersEx.String_as_OT.compare a b) with (String.compare a b).
  destruct (String.compare a b); split; congruence.
Qed.

Lemma String_ltb_trans (a b c : string) :
  String.ltb a b = true -> String.ltb b c = true -> String.ltb a c = true.
Proof.
  rewrite !String_ltb_lt. apply OrdersEx.String_as_OT.lt_strorder.
Qed.

Lemma String_ltb_irrefl (a : string) : String.ltb a a = false.
Proof.
  destruct (String.ltb a a) eqn:E; [|reflexivity].
  apply String_ltb_lt in E. exfalso. revert E.
  apply OrdersEx.String_as_OT.lt_strorder.
Qed.

Lemma String_ltb_total (a b : string) :
  String.ltb a b = false -> String.ltb b a = false -> a = b.
Proof.
  unfold String.ltb. rewrite (String.compare_antisym b a).
  destruct (String.compare a b) eqn:E; simpl; try discriminate.
  intros _ _. apply String.compare_eq_iff. exact E.
Qed.

(** ** The stable sort *)

Section StableSort.

Context {A : Type} (less : A -> A -> bool).

Lemma insertStable_Permutation (x : A) (l : list A) :
  insertStable less x l ≡ₚ x :: l.
Proof.
  induction l as [|y l IH]; simpl; [reflexivity|].
  destruct (less y x); [|reflexivity].
  rewrite IH. apply Permutation_swap.
Qed.

Lemma SliceStable_Permutation (l : list A) : SliceStable less l ≡ₚ l.
Proof.
  induction l as [|x l IH]; simpl; [reflexivity|].
  rewrite insertStable_Permutation, IH. reflexivity.
Qed.

Hypothesis less_asym : forall x y, less x y = true -> less y x = false.
Hypothesis notAfter_trans :
  forall x y z, notAfter less x y -> notAfter less y z -> notAfter less x z.

Lemma insertStable_sorted (x : A) (l : list A) :
  StronglySorted (notAfter less) l ->
  StronglySorted (notAfter less) (insertStable less x l).
Proof.
  induction 1 as [|y l Hl IH Hy]; simpl.
  - repeat constructor.
  - destruct (less y x) eqn:Hyx.
    + constructor; [exact IH|].
      rewrite insertStable_Permutation. constructor; [|exact Hy].
      apply less_asym. exact Hyx.
    + constructor; [constructor; assumption|].
      constructor; [exact Hyx|].
      eapply Forall_impl; [exact Hy|]. intros z Hz.
      eapply notAfter_trans; [exact Hyx|exact Hz].
Qed.

Lemma SliceStable_sorted (l : list A) :
  StronglySorted (notAfter less) (SliceStable less l).
Proof.
  induction l as [|x l IH]; simpl; [constructor|].
  apply insertStable_sorted, IH.
Qed.

End StableSort.

Section SortedByKey.

Context {A : Type} (key : A -> string).

Local Abbreviation lessKey := (fun x y : A => String.ltb (key x) (key y)).
Local Abbreviation beforeKey :=
  (fun x y : A => String.ltb (key x) (key y) = true).

Lemma SliceStable_by_key_sorted (l : list A) :
  NoDup (key <$> l) ->
  StronglySorted beforeKey (SliceStable lessKey l).
Proof.
  intros Hnd.
  assert (Hs : StronglySorted (notAfter lessKey) (SliceStable lessKey l)).
  { apply SliceStable_sorted.
    - intros x y Hxy. cbv beta in *.
      destruct (String.ltb (key y) (key x)) eqn:Hyx; [|reflexivity].
      pose proof (String_ltb_trans _ _ _ Hxy Hyx) as Hxx.
      rewrite String_ltb_irrefl in Hxx. discriminate.
    - unfold notAfter. intros x y z Hxy Hyz. cbv beta in *.
      destruct (String.ltb (key z) (key x)) eqn:Hzx; [|reflexivity].
      destruct (String.ltb (key y) (key z)) eqn:Hyz'.
      + rewrite (String_ltb_trans _ _ _ Hyz' Hzx) in Hxy. discriminate.
      + pose proof (String_ltb_total _ _ Hyz Hyz') as Heq.
        rewrite Heq in Hzx. congruence. }
  assert (Hnd' : NoDup (key <$> SliceStable lessKey l)).
  { rewrite (SliceStable_Permutation lessKey l). exact Hnd. }
  revert Hs Hnd'. generalize (SliceStable lessKey l). clear.
  induction 1 as [|x l Hl IH Hx]; intros Hnd; [constructor|].
  rewrite fmap_cons in Hnd. apply NoDup_cons in Hnd as [Hx' Hnd].
  constructor; [apply IH, Hnd|].
  rewrite Forall_forall in Hx |- *. intros y Hy.
  specialize (Hx y Hy). unfold notAfter in *. cbv beta in *.
  destruct (String.ltb (key x) (key y)) eqn:Hxy; [reflexivity|].
  exfalso. apply Hx'. rewrite (String_ltb_total _ _ Hxy Hx).
  apply list_elem_of_fmap_2. exact Hy.
Qed.

Lemma SliceStable_by_key_unique (l1 l2 : list A) :
  NoDup (key <$> l1) -> l1 ≡ₚ l2 ->
  SliceStable lessKey l1 = SliceStable lessKey l2.
Proof.
  intros Hnd Hp.
  apply (StronglySorted_unique_strong beforeKey).
  - intros x y _ _ Hxy Hyx. cbv beta in *.
    pose proof (String_ltb_trans _ _ _ Hxy Hyx) as Hxx.
    rewrite String_ltb_irrefl in Hxx. discriminate.
  - apply SliceStable_by_key_sorted, Hnd.
  - apply SliceStable_by_key_sorted. rewrite <- Hp. exact Hnd.
  - rewrite !SliceStable_Permutation. exact Hp.
Qed.

End SortedByKey.

(** * Listing the validators *)

Section Listing.
Context {ext : External}.

Lemma keyed_values_NoDup {K V : Type} `{Countable K} (m : gmap K V) (key : V -> K) :
  (forall k v, m !! k = Some v -> key v = k) ->
  NoDup (key <$> (snd <$> map_to_list m)).
Proof.
  intros Hk.
  assert (Heq : key <$> (snd <$> map_to_list m) = fst <$> map_to_list m).
  { rewrite <- list_fmap_compose. apply list_fmap_ext.
    intros i [k v] Hi. simpl. apply Hk.
    apply elem_of_map_to_list. eapply list_elem_of_lookup_2. exact Hi. }
  rewrite Heq. apply NoDup_fst_map_to_list.
Qed.

Lemma filter_chain_NoDup (l : list Validator) (chainID : string) :
  NoDup ((fun v => (val_ChainID v, val_Address v)) <$> l) ->
  NoDup (val_Address <$> filter (fun v => val_ChainID v = chainID) l).
Proof.
  induction l as [|v l IH]; intros Hnd; [constructor|].
  rewrite fmap_cons in Hnd. apply NoDup_cons in Hnd as [Hv Hnd].
  rewrite filter_cons. case_decide as Hc; [|apply IH, Hnd].
  rewrite fmap_cons. apply NoDup_cons. split; [|apply IH, Hnd].
  intros Hin. apply Hv.
  apply list_elem_of_fmap in Hin as (w & Hw & Hin).
  apply list_elem_of_filter in Hin as [Hwc Hin].
  apply list_elem_of_fmap. exists w. split; [|exact Hin].
  rewrite Hc, <- Hwc, Hw. reflexivity.
Qed.

(** X1. In a store whose rows are filed under their own keys,
    [ListValidators] gives the same list whatever the order in which the
    loop meets the rows of the map; the list holds exactly the validators
    stored for the chain, and their addresses increase strictly. *)
Theorem ListValidators_sorted_complete (s : Store) (chainID : string)
    (ranged : list Validator) :
  rowsKeyed s ->
  ranged ≡ₚ snd <$> map_to_list (validators s) ->
  ListValidatorsIn ranged chainID = ListValidators s chainID /\
  (forall v, v ∈ ListValidators s chainID
             <-> validators s !! (chainID, val_Address v) = Some v) /\
  StronglySorted
    (fun v1 v2 => String.ltb (val_Address v1) (val_Address v2) = true)
    (ListValidators s chainID).
Proof.
  intros (_ & _ & _ & Hkeyed & _) Hperm.
  pose proof (keyed_values_NoDup (validators s)
                (fun v => (val_ChainID v, val_Address v)) Hkeyed) as Hnd.
  assert (Hnd2 : forall l, l ≡ₚ snd <$> map_to_list (validators s) ->
            NoDup (val_Address <$> filter (fun v => val_ChainID v = chainID) l)).
  { intros l Hl. apply filter_chain_NoDup. rewrite Hl. exact Hnd. }
  split; [|split].
  - unfold ListValidators, ListValidatorsIn.
    apply (SliceStable_by_key_unique val_Address).
    + apply Hnd2. exact Hperm.
    + rewrite Hperm. reflexivity.
  - intros v. unfold ListValidators.
    rewrite (SliceStable_Permutation _ _), list_elem_of_filter, list_elem_of_fmap.
    split.
    + intros (Hc & [k w] & -> & Hin). simpl in *.
      apply elem_of_map_to_list in Hin.
      pose proof (Hkeyed _ _ Hin) as Hk. rewrite <- Hc, Hk. exact Hin.
    + intros Hlook. pose proof (Hkeyed _ _ Hlook) as Hk.
      split; [congruence|].
      exists ((chainID, val_Address v), v). split; [reflexivity|].
      apply elem_of_map_to_list. exact Hlook.
  - unfold ListValidators.
    apply (SliceStable_by_key_sorted val_Address). apply Hnd2. reflexivity.
Qed.

End Listing.

(** * The keys of the rows *)

Section Keyed.
Context {ext : External}.

Lemma rowsKeyed_NewStore : rowsKeyed NewStore.
Proof.
  unfold rowsKeyed, challengesKeyed, NewStore. simpl.
  repeat split; intros ? ? Hl; rewrite lookup_empty in Hl; discriminate.
Qed.

Lemma rowsKeyed_InsertBid (s : Store) (b : Bid) (newV4 : result UUID) (now : Time) :
  rowsKeyed s -> rowsKeyed (fst (InsertBid s b newV4 now)).
Proof.
  intros (Hb & Ha & Hc & Hv & Hch). unfold InsertBid.
  destruct newV4 as [id|e]; simpl; [|repeat split; assumption].
  split; [|repeat split; assumption].
  intros k l. simpl.
  destruct (decide ((bid_ChainID b, bid_Height b) = k)) as [<-|Hne].
  - rewrite lookup_insert_eq. intros [= <-].
    apply Forall_app. split; [|repeat constructor].
    destruct (bids s !! (bid_ChainID b, bid_Height b)) as [l0|] eqn:Hl0; simpl;
      [eapply Hb; exact Hl0|constructor].
  - rewrite lookup_insert_ne by exact Hne. apply Hb.
Qed.

Lemma updateFirst_keyed (b : Bid) (now : Time) (k : string * Z) (os : list Bid) :
  Forall (fun o => (bid_ChainID o, bid_Height o) = k) os ->
  Forall (fun o => (bid_ChainID o, bid_Height o) = k) (updateFirst b now os).
Proof.
  induction 1 as [|o os Ho Hos IH]; simpl; [constructor|].
  case_bool_decide; constructor; assumption.
Qed.

Lemma rowsKeyed_UpdateBids (s : Store) (bs : list Bid) (now : Time) :
  rowsKeyed s -> rowsKeyed (UpdateBids s bs now).
Proof.
  unfold UpdateBids. revert s.
  induction bs as [|b bs IH]; intros s Hs; simpl; [exact Hs|].
  apply IH. destruct Hs as (Hb & Ha & Hc & Hv & Hch).
  split; [|repeat split; assumption].
  intros k l. simpl.
  destruct (decide ((bid_ChainID b, bid_Height b) = k)) as [<-|Hne].
  - rewrite lookup_alter_eq.
    destruct (bids s !! (bid_ChainID b, bid_Height b)) as [l0|] eqn:Hl0;
      simpl; [|discriminate].
    intros [= <-]. apply updateFirst_keyed. eapply Hb. exact Hl0.
  - rewrite lookup_alter_ne by exact Hne. apply Hb.
Qed.

Lemma rowsKeyed_UpsertAuction (s : Store) (a : Auction) (now : Time) :
  rowsKeyed s -> rowsKeyed (fst (UpsertAuction s a now)).
Proof.
  intros (Hb & Ha & Hc & Hv & Hch). unfold UpsertAuction.
  destruct (auctions s !! (ChainID a, Height a)) as [existing|] eqn:Hex; simpl.
  - split; [assumption|]. split; [|repeat split; assumption].
    intros k a'. simpl.
    destruct (decide ((ChainID a, Height a) = k)) as [<-|Hne].
    + rewrite lookup_insert_eq. intros [= <-]. simpl.
      apply (Ha _ _ Hex).
    + rewrite lookup_insert_ne by exact Hne. apply Ha.
  - split; [assumption|]. split; [|repeat split; assumption].
    intros k a'. simpl.
    destruct (decide ((ChainID a, Height a) = k)) as [<-|Hne].
    + rewrite lookup_insert_eq. intros [= <-]. reflexivity.
    + rewrite lookup_insert_ne by exact Hne. apply Ha.
Qed.

Lemma rowsKeyed_InsertChallenge (s : Store) (c : Challenge) (newV4 : result UUID)
    (now : Time) :
  rowsKeyed s -> rowsKeyed (fst (InsertChallenge s c newV4 now)).
Proof.
  intros (Hb & Ha & Hc & Hv & Hch). unfold InsertChallenge.
  destruct newV4 as [id|e]; simpl; [|repeat split; assumption].
  split; [assumption|]. split; [assumption|]. split; [|split; assumption].
  intros k x. simpl.
  destruct (decide (UUID_String id = k)) as [<-|Hne].
  - rewrite lookup_insert_eq. intros [= <-]. reflexivity.
  - rewrite lookup_insert_ne by exact Hne. apply Hc.
Qed.

Lemma rowsKeyed_DeleteChallenge (s : Store) (id : string) :
  rowsKeyed s -> rowsKeyed (fst (DeleteChallenge s id)).
Proof.
  intros (Hb & Ha & Hc & Hv & Hch). unfold DeleteChallenge.
  destruct (challenges s !! id); simpl; [|repeat split; assumption].
  split; [assumption|]. split; [assumption|]. split; [|split; assumption].
  intros k x. simpl. intros Hl. apply lookup_delete_Some in Hl as [_ Hl].
  apply Hc. exact Hl.
Qed.

Lemma rowsKeyed_UpsertValidator (s : Store) (v : Validator) (now : Time) :
  rowsKeyed s -> rowsKeyed (UpsertValidator s v now).
Proof.
  intros (Hb & Ha & Hc & Hv & Hch). unfold UpsertValidator.
  destruct (validators s !! (val_ChainID v, val_Address v)) as [existing|] eqn:Hex;
    simpl.
  - split; [assumption|]. split; [assumption|]. split; [assumption|].
    split; [|assumption].
    intros k w. simpl.
    destruct (decide ((val_ChainID v, val_Address v) = k)) as [<-|Hne].
    + rewrite lookup_insert_eq. intros [= <-]. simpl. apply (Hv _ _ Hex).
    + rewrite lookup_insert_ne by exact Hne. apply Hv.
  - split; [assumption|]. split; [assumption|]. split; [assumption|].
    split; [|assumption].
    intros k w. simpl.
    destruct (decide ((val_ChainID v, val_Address v) = k)) as [<-|Hne].
    + rewrite lookup_insert_eq. intros [= <-]. reflexivity.
    + rewrite lookup_insert_ne by exact Hne. apply Hv.
Qed.

Lemma rowsKeyed_UpsertChain (s : Store) (c : StoreChain) (now : Time) :
  rowsKeyed s -> rowsKeyed (UpsertChain s c now).
Proof.
  intros (Hb & Ha & Hc & Hv & Hch). unfold UpsertChain.
  destruct (chains s !! sc_ID c) as [existing|] eqn:Hex; simpl.
  - do 4 (split; [assumption|]).
    intros k w. simpl.
    destruct (decide (sc_ID c = k)) as [<-|Hne].
    + rewrite lookup_insert_eq. intros [= <-]. reflexivity.
    + rewrite lookup_insert_ne by exact Hne. apply Hch.
  - do 4 (split; [assumption|]).
    intros k w. simpl.
    destruct (decide (sc_ID c = k)) as [<-|Hne].
    + rewrite lookup_insert_eq. intros [= <-]. reflexivity.
    + rewrite lookup_insert_ne by exact Hne. apply Hch.
Qed.

End Keyed.

(** * Relations that every request keeps *)

(** ** What every method of the store keeps, every request keeps *)

Section Keeps.

Context {ext : External}.
Variable R : relation Store.
Context `{!PreOrder R}.

Hypothesis R_InsertBid :
  forall s b newV4 now, R s (fst (InsertBid s b newV4 now)).
Hypothesis R_UpdateBids : forall s bs now, R s (UpdateBids s bs now).
Hypothesis R_UpsertAuction :
  forall s a now, R s (fst (UpsertAuction s a now)).
Hypothesis R_InsertChallenge :
  forall s c newV4 now, R s (fst (InsertChallenge s c newV4 now)).
Hypothesis R_DeleteChallenge : forall s id, R s (fst (DeleteChallenge s id)).
Hypothesis R_UpsertValidator : forall s v now, R s (UpsertValidator s v now).

Lemma keeps_ret {A} (a : A) : keeps R (ret a).
Proof. intros s. reflexivity. Qed.

Lemma keeps_fail {A} (e : error) : keeps R (@fail A e).
Proof. intros s. reflexivity. Qed.

Lemma keeps_lift {A} (r : result A) : keeps R (lift r).
Proof. intros s. reflexivity. Qed.

Lemma keeps_read {A} (f : Store -> A) : keeps R (read f).
Proof. intros s. reflexivity. Qed.

Lemma keeps_readR {A} (f : Store -> result A) : keeps R (readR f).
Proof. intros s. reflexivity. Qed.

Lemma keeps_liftE (o : option error) : keeps R (liftE o).
Proof. intros s. unfold liftE. destruct o; reflexivity. Qed.

Lemma keeps_bind {A B} (m : M A) (k : A -> M B) :
  keeps R m -> (forall a, keeps R (k a)) -> keeps R (bind m k).
Proof.
  intros Hm Hk s. unfold bind. specialize (Hm s).
  destruct (m s) as [s1 [a|e]]; simpl in Hm; [|exact Hm].
  etransitivity; [exact Hm|apply Hk].
Qed.

Lemma keeps_wrapErr {A} (msg : string) (m : M A) :
  keeps R m -> keeps R (wrapErr msg m).
Proof.
  intros Hm s. unfold wrapErr. specialize (Hm s).
  destruct (m s) as [s1 [a|e]]; exact Hm.
Qed.

Lemma keeps_upsert (a : Auction) (now : Time) :
  keeps R (fun s => let '(s', a') := UpsertAuction s a now in (s', Ok a')).
Proof.
  intros s. pose proof (R_UpsertAuction s a now) as Hk.
  destruct (UpsertAuction s a now) as [s' a']. exact Hk.
Qed.

Lemma keeps_findOrCreateAuction (chainID : string) (height : Z)
    (vs : ValidatorSet) (pa ppa mpa denom : string) (now : Time) :
  keeps R (findOrCreateAuction chainID height vs pa ppa mpa denom now).
Proof.
  intros s. unfold findOrCreateAuction, SelectAuction.
  destruct (auctions s !! (chainID, height)) as [a|] eqn:Hlook; [reflexivity|].
  simpl.
  match goal with
  | |- context [UpsertAuction s ?a now] =>
      pose proof (R_UpsertAuction s a now) as Hk;
      destruct (UpsertAuction s a now) as [s' a']
  end.
  exact Hk.
Qed.

Lemma keeps_verifyAuction (c : Chain) (height off : Z) (now : Time) :
  keeps R (verifyAuction c height off now).
Proof.
  unfold verifyAuction.
  apply keeps_bind; [apply keeps_wrapErr, keeps_readR|intros ch].
  apply keeps_bind; [apply keeps_wrapErr, keeps_lift|intros L].
  apply keeps_bind; [apply keeps_wrapErr, keeps_lift|intros vs].
  destruct (negb (vs_Height vs =? L)); [apply keeps_fail|].
  apply keeps_bind; [apply keeps_liftE|intros _].
  apply keeps_bind; [apply keeps_wrapErr, keeps_lift|intros p].
  apply keeps_bind.
  { intros s. destruct (SelectValidator s (ID c) (cv_Address p)); reflexivity. }
  intros v.
  apply keeps_bind; [apply keeps_findOrCreateAuction|intros a].
  repeat case_match; first [apply keeps_fail|apply keeps_ret].
Qed.

Lemma keeps_buildBlock (c : Chain) (auction : Auction)
    (allBids : list Bid) (mempool : list bytes) (maxBytes maxGas : Z)
    (errmsg : string) (now : Time) :
  keeps R (buildBlock c auction allBids mempool maxBytes maxGas errmsg now).
Proof.
  unfold buildBlock.
  destruct (computeOrder c auction allBids mempool) as [[[w l] r]|e];
    [|apply keeps_fail].
  apply keeps_bind.
  - intros s. apply R_UpdateBids.
  - intros _. destruct (flattenBundles _) as [[? ?] ?]. apply keeps_ret.
Qed.

Lemma keeps_ServiceAuction (c : Chain) (height : Z) (now : Time) :
  keeps R (ServiceAuction c height now).
Proof.
  unfold ServiceAuction, Transact.
  apply keeps_bind; [apply keeps_verifyAuction|].
  intros [a v]. apply keeps_ret.
Qed.

Lemma keeps_ServiceBid (c : Chain) (height : Z) (kind : string)
    (txbs : list bytes) (newV4 : result UUID) (now : Time) :
  keeps R (ServiceBid c height kind txbs newV4 now).
Proof.
  unfold ServiceBid.
  apply keeps_bind; [apply keeps_wrapErr, keeps_ServiceAuction|intros a].
  destruct (evaluateBid c a _) as [bid' [e|]]; [apply keeps_fail|].
  apply keeps_wrapErr. intros s. apply R_InsertBid.
Qed.

Lemma keeps_ServiceApply (c : Chain) (validatorAddr paymentAddr : string)
    (random32 : bytes) (newV4 : result UUID) (now : Time) :
  keeps R (ServiceApply c validatorAddr paymentAddr random32 newV4 now).
Proof.
  unfold ServiceApply.
  apply keeps_bind; [apply keeps_wrapErr, keeps_liftE|intros _].
  apply keeps_bind; [apply keeps_wrapErr, keeps_lift|intros L].
  apply keeps_bind; [apply keeps_wrapErr, keeps_lift|intros vs].
  destruct (negb (vs_Height vs =? L)); [apply keeps_fail|].
  destruct (vs_Set vs !! validatorAddr); [|apply keeps_fail].
  apply keeps_wrapErr. intros s. apply R_InsertChallenge.
Qed.

Lemma keeps_registerTx (c : Chain) (vs : ValidatorSet) (ch : Challenge)
    (signature : bytes) (now : Time) :
  keeps R (registerTx c vs ch signature now).
Proof.
  unfold registerTx.
  apply keeps_bind; [apply keeps_liftE|intros _].
  destruct (vs_Set vs !! ch_ValidatorAddress ch); [|apply keeps_fail].
  apply keeps_bind; [|intros _; apply keeps_ret].
  intros s. apply R_UpsertValidator.
Qed.

Lemma keeps_ServiceRegister (c : Chain) (challengeID : string)
    (signature : bytes) (now : Time) :
  keeps R (ServiceRegister c challengeID signature now).
Proof.
  unfold ServiceRegister, Transact.
  apply keeps_bind; [apply keeps_wrapErr, keeps_lift|intros L].
  apply keeps_bind; [apply keeps_wrapErr, keeps_lift|intros vs].
  apply keeps_bind; [apply keeps_wrapErr, keeps_readR|intros ch].
  intros s. pose proof (keeps_registerTx c vs ch signature now s) as Htx.
  destruct (registerTx c vs ch signature now s) as [s1 r]. simpl in Htx.
  pose proof (R_DeleteChallenge s1 (UUID_String (ch_ID ch))) as Hd.
  destruct (DeleteChallenge s1 (UUID_String (ch_ID ch))) as [s2 e]. simpl in *.
  etransitivity; eassumption.
Qed.

Lemma keeps_ServiceBuild (c : Chain) (height : Z) (validatorAddr : string)
    (maxBytes maxGas : Z) (mempool : list bytes) (signature : bytes)
    (now : Time) :
  keeps R
    (ServiceBuild c height validatorAddr maxBytes maxGas mempool signature now).
Proof.
  unfold ServiceBuild, Transact.
  apply keeps_bind.
  - apply keeps_wrapErr.
    apply keeps_bind; [apply keeps_wrapErr, keeps_verifyAuction|intros [a v]].
    apply keeps_bind; [apply keeps_liftE|intros _].
    apply keeps_bind; [apply keeps_upsert|intros a'].
    apply keeps_bind; [apply keeps_read|intros b].
    apply keeps_ret.
  - intros [[a v] b]. case_match; [apply keeps_fail|].
    apply keeps_buildBlock.
Qed.

Lemma keeps_ServiceBuildV1 (c : Chain) (height : Z)
    (validatorAddr : string) (maxBytes maxGas : Z) (mempool : list bytes)
    (signature : bytes) (now : Time) :
  keeps R
    (ServiceBuildV1 c height validatorAddr maxBytes maxGas mempool signature now).
Proof.
  unfold ServiceBuildV1, Transact.
  apply keeps_bind; [apply keeps_wrapErr, keeps_readR|intros ch].
  apply keeps_bind; [apply keeps_wrapErr, keeps_lift|intros L].
  apply keeps_bind; [apply keeps_wrapErr, keeps_lift|intros vs].
  destruct (negb (vs_Height vs =? L)); [apply keeps_fail|].
  apply keeps_bind; [apply keeps_liftE|intros _].
  apply keeps_bind; [apply keeps_wrapErr, keeps_lift|intros p].
  case_match; [apply keeps_fail|].
  apply keeps_bind; [apply keeps_liftE|intros _].
  apply keeps_bind.
  { intros s. apply R_UpsertValidator. }
  intros _.
  apply keeps_bind.
  - apply keeps_wrapErr.
    apply keeps_bind; [apply keeps_findOrCreateAuction|intros a].
    case_match; [apply keeps_fail|].
    case_match; [apply keeps_fail|].
    apply keeps_bind; [apply keeps_upsert|intros a'].
    apply keeps_bind; [apply keeps_read|intros b].
    apply keeps_ret.
  - intros [a b]. apply keeps_buildBlock.
Qed.

End Keeps.

(** * What the requests do *)

Section Requests.
Context {ext : External}.

(** ** The steps of [verifyAuction] *)

Lemma findOrCreateAuction_cases (chainID : string) (height : Z)
    (vs : ValidatorSet) (pa ppa mpa denom : string) (now : Time) (s : Store) :
  match auctions s !! (chainID, height) with
  | Some a => findOrCreateAuction chainID height vs pa ppa mpa denom now s = (s, Ok a)
  | None =>
      let a := mkAuction chainID height pa FixedAllocation ppa mpa denom
                 (sumRegisteredPower vs (ListValidators s chainID))
                 (vs_TotalPower vs) now 0 in
      findOrCreateAuction chainID height vs pa ppa mpa denom now s
      = (set_auctions s (<[(chainID, height) := a]> (auctions s)), Ok a)
  end.
Proof.
  unfold findOrCreateAuction, SelectAuction.
  destruct (auctions s !! (chainID, height)) as [a|] eqn:Hl; [reflexivity|].
  simpl. unfold UpsertAuction. simpl. rewrite Hl. reflexivity.
Qed.

Lemma verifyAuction_Ok_iff (c : Chain) (h off : Z) (now : Time) (s s1 : Store)
    (a : Auction) (v : Validator) :
  verifyAuction c h off now s = (s1, Ok (a, v)) <-> verified c h off now s s1 a v.
Proof.
  unfold verified, verifyAuction, bind, wrapErr, readR, lift, liftE, fail, ret,
    SelectChain, SelectValidator.
  split.
  - destruct (chains s !! ID c) as [ch|] eqn:Hch; [|discriminate].
    destruct (LatestHeight c) as [L|] eqn:HLat; [|discriminate].
    destruct (GetValidatorSet c L) as [vs|] eqn:Hvs; [|discriminate].
    destruct (vs_Height vs =? L) eqn:HL; simpl; [|discriminate].
    destruct (checkHeightWindow (ID c) L off h) eqn:Hw; [discriminate|].
    destruct (PredictProposer c vs h) as [p|] eqn:Hp; [|discriminate].
    destruct (validators s !! (ID c, cv_Address p)) as [v0|] eqn:Hv;
      [|discriminate].
    destruct (findOrCreateAuction _ _ _ _ _ _ _ _ s) as [s' [a0|e]] eqn:Hf;
      [|discriminate].
    destruct (IsZero (FinishedAt a0)) eqn:Hz; simpl; [|discriminate].
    case_bool_decide as Hpa; simpl; [|discriminate].
    intros [= <- <- <-].
    exists ch, L, vs, p. apply Z.eqb_eq in HL. repeat split; auto.
  - intros (ch & L & vs & p & Hch & HL & Hvs & Hh & Hw & Hp & Hv & Hf & Hz & Hpa).
    rewrite Hch, HL, Hvs, Hh, Z.eqb_refl. simpl. rewrite Hw, Hp, Hv, Hf, Hz. simpl.
    rewrite bool_decide_eq_true_2 by exact Hpa. reflexivity.
Qed.


Lemma findOrCreateAuction_frame (chainID : string) (height : Z)
    (vs : ValidatorSet) (pa ppa mpa denom : string) (now : Time) (s s1 : Store)
    (a : Auction) :
  findOrCreateAuction chainID height vs pa ppa mpa denom now s = (s1, Ok a) ->
  bids s1 = bids s /\ challenges s1 = challenges s /\
  validators s1 = validators s /\ chains s1 = chains s /\
  auctions s1 !! (chainID, height) = Some a /\
  (forall k, k <> (chainID, height) -> auctions s1 !! k = auctions s !! k) /\
  (auctions s !! (chainID, height) = None ->
   a = mkAuction chainID height pa FixedAllocation ppa mpa denom
         (sumRegisteredPower vs (ListValidators s chainID))
         (vs_TotalPower vs) now 0) /\
  (forall a0, auctions s !! (chainID, height) = Some a0 -> a = a0 /\ s1 = s).
Proof.
  pose proof (findOrCreateAuction_cases chainID height vs pa ppa mpa denom now s)
    as Hc.
  destruct (auctions s !! (chainID, height)) as [a0|] eqn:Hl.
  - rewrite Hc. intros [= <- <-].
    split; [reflexivity|]. split; [reflexivity|]. split; [reflexivity|].
    split; [reflexivity|]. split; [exact Hl|]. split; [reflexivity|].
    split; [discriminate|]. intros ? [= <-]. split; reflexivity.
  - cbv zeta in Hc. rewrite Hc. intros [= <- <-]. simpl.
    split; [reflexivity|]. split; [reflexivity|]. split; [reflexivity|].
    split; [reflexivity|]. split; [apply lookup_insert_eq|].
    split; [intros k Hk; apply lookup_insert_ne; congruence|].
    split; [reflexivity|discriminate].
Qed.

Lemma verifyAuction_frame (c : Chain) (h off : Z) (now : Time) (s s1 : Store)
    (a : Auction) (v : Validator) :
  verifyAuction c h off now s = (s1, Ok (a, v)) ->
  bids s1 = bids s /\ challenges s1 = challenges s /\
  validators s1 = validators s /\ chains s1 = chains s /\
  auctions s1 !! (ID c, h) = Some a /\
  (forall k, k <> (ID c, h) -> auctions s1 !! k = auctions s !! k).
Proof.
  intros Hv. apply verifyAuction_Ok_iff in Hv
    as (ch & L & vs & p & _ & _ & _ & _ & _ & _ & _ & Hf & _ & _).
  apply findOrCreateAuction_frame in Hf. tauto.
Qed.

Lemma ServiceAuction_Ok (c : Chain) (h : Z) (now : Time) (s s1 : Store)
    (a : Auction) :
  ServiceAuction c h now s = (s1, Ok a) <->
  exists v, verifyAuction c h 10 now s = (s1, Ok (a, v)).
Proof.
  unfold ServiceAuction, Transact, bind, ret.
  destruct (verifyAuction c h 10 now s) as [s' [[a' v']|e]]; split.
  - intros [= <- <-]. eauto.
  - intros (v & [= <- <- <-]). reflexivity.
  - discriminate.
  - intros (v & Hv). discriminate.
Qed.



(** ** Bid *)

Lemma evaluateBid_accepted (c : Chain) (a : Auction) (b b' : Bid) :
  evaluateBid c a b = (b', None) ->
  let acc := snd (evalTxs c a (Txs b) payAcc0) in
  let total := add64 (validatorPayment acc) (mekatekPayment acc) in
  0 < total /\
  b' = mkBid (bid_ID b) (bid_ChainID b) (bid_Height b) (Kind b)
         (fst (evalTxs c a (Txs b) payAcc0)) total (mekatekPayment acc)
         (validatorPayment acc) (payments acc) (State b) (bid_CreatedAt b)
         (bid_UpdatedAt b).
Proof.
  unfold evaluateBid. destruct (evalTxs c a (Txs b) payAcc0) as [txs' acc].
  simpl. destruct (_ <=? 0) eqn:Hle; [discriminate|].
  destruct (negb _); [discriminate|].
  intros [= <-]. split; [|reflexivity]. apply Z.leb_gt in Hle. exact Hle.
Qed.

Lemma ServiceBid_after_auction (c : Chain) (h : Z) (kind : string)
    (txbs : list bytes) (newV4 : result UUID) (now : Time) (s s1 : Store)
    (a : Auction) :
  ServiceAuction c h now s = (s1, Ok a) ->
  ServiceBid c h kind txbs newV4 now s
  = match evaluateBid c a
            (mkBid 0%N (ChainID a) (Height a) (ParseBidKind kind) txbs 0 0 0 []
               BidStatePending 0 0) with
    | (_, Some e) => (s1, Err (Wrapf "evaluate bid" e))
    | (bid', None) =>
        match InsertBid s1 bid' newV4 now with
        | (s2, Ok b) => (s2, Ok b)
        | (s2, Err e) => (s2, Err (Wrapf "place bid" e))
        end
    end.
Proof.
  intros Ha. unfold ServiceBid, bind, wrapErr at 1. rewrite Ha.
  destruct (evaluateBid c a _) as [bid' [e|]]; reflexivity.
Qed.

Lemma ServiceBid_Ok (c : Chain) (h : Z) (kind : string)
    (txbs : list bytes) (newV4 : result UUID) (now : Time) (s s' : Store)
    (bid : Bid) :
  ServiceBid c h kind txbs newV4 now s = (s', Ok bid) ->
  exists (s1 : Store) (a : Auction) (bid' : Bid) (id : UUID),
    ServiceAuction c h now s = (s1, Ok a) /\
    evaluateBid c a
      (mkBid 0%N (ChainID a) (Height a) (ParseBidKind kind) txbs 0 0 0 []
         BidStatePending 0 0) = (bid', None) /\
    newV4 = Ok id /\
    InsertBid s1 bid' (Ok id) now = (s', Ok bid).
Proof.
  destruct (ServiceAuction c h now s) as [s1 [a|e]] eqn:Ha.
  - rewrite (ServiceBid_after_auction _ _ _ _ _ _ _ _ _ Ha).
    destruct (evaluateBid c a _) as [bid' [e|]] eqn:He; [discriminate|].
    destruct newV4 as [id|e]; [|discriminate]. simpl.
    intros [= <- <-]. exists s1, a, bid', id. auto.
  - unfold ServiceBid, bind, wrapErr at 1. rewrite Ha. discriminate.
Qed.

Lemma evalTxs_all_unusable (c : Chain) (a : Auction) (l : list bytes)
    (acc : payAcc) :
  Forall (unusable c) l -> evalTxs c a l acc = (l, acc).
Proof.
  induction 1 as [|txb l Hu Hl IH]; [reflexivity|].
  rewrite (evalTxs_unusable c a txb l acc Hu), IH. reflexivity.
Qed.

(** X3. When the auction of the height can be had, a bid all of
    whose transactions fail to decode or to encode again is refused with
    ErrInvalidRequest (no payments), and no bid is stored. *)
Theorem ServiceBid_without_payment (c : Chain) (h : Z) (kind : string)
    (txbs : list bytes) (newV4 : result UUID) (now : Time) (s s1 : Store)
    (a : Auction) :
  ServiceAuction c h now s = (s1, Ok a) ->
  Forall (unusable c) txbs ->
  ServiceBid c h kind txbs newV4 now s
  = (s1, Err (Wrapf "evaluate bid"
                (Wrapf "no payments" (Sentinel ErrInvalidRequest)))) /\
  bids s1 = bids s.
Proof.
  intros Ha Hu. rewrite (ServiceBid_after_auction _ _ _ _ _ _ _ _ _ Ha).
  unfold evaluateBid. simpl. rewrite (evalTxs_all_unusable _ _ _ _ Hu). simpl.
  split; [reflexivity|].
  apply ServiceAuction_Ok in Ha as (v & Hv).
  apply verifyAuction_frame in Hv. tauto.
Qed.

(** X4. In a store whose rows are filed under their own keys, a
    [Bid] that succeeds appends one bid to the bids of its auction and
    leaves the bids of every other auction alone. The bid has the generated
    identifier, the time of the call, the chain and the height, the state
    pending, as many transactions as were sent, and a positive priority that
    is the [int64] sum of its two payments. *)
Theorem ServiceBid_stores_pending_bid (c : Chain) (h : Z) (kind : string)
    (txbs : list bytes) (newV4 : result UUID) (now : Time) (s s' : Store)
    (bid : Bid) :
  rowsKeyed s ->
  ServiceBid c h kind txbs newV4 now s = (s', Ok bid) ->
  ListBids s' (ID c) h = ListBids s (ID c) h ++ [bid] /\
  (forall cid h', (cid, h') <> (ID c, h) -> ListBids s' cid h' = ListBids s cid h') /\
  newV4 = Ok (bid_ID bid) /\ bid_CreatedAt bid = now /\
  bid_ChainID bid = ID c /\ bid_Height bid = h /\
  State bid = BidStatePending /\
  length (Txs bid) = length txbs /\
  0 < Priority bid /\
  Priority bid = add64 (ValidatorPayment bid) (MekatekPayment bid).
Proof.
  intros Hkeyed Hbid.
  apply ServiceBid_Ok in Hbid as (s1 & a & bid' & id & Ha & He & -> & Hi).
  apply ServiceAuction_Ok in Ha as (v & Hv).
  pose proof (verifyAuction_frame _ _ _ _ _ _ _ _ Hv)
    as (Hb & _ & _ & _ & Hlook & _).
  assert (Hkey : (ChainID a, Height a) = (ID c, h)).
  { apply verifyAuction_Ok_iff in Hv
      as (ch & L & vs & p & _ & _ & _ & _ & _ & _ & _ & Hf & _ & _).
    apply findOrCreateAuction_frame in Hf
      as (_ & _ & _ & _ & _ & _ & Hnew & Hold).
    destruct (auctions s !! (ID c, h)) as [a0|] eqn:Hs.
    - destruct (Hold a0 eq_refl) as [-> _].
      destruct Hkeyed as (_ & Hka & _). apply (Hka _ _ Hs).
    - rewrite (Hnew eq_refl). reflexivity. }
  apply evaluateBid_accepted in He as [Hpos ->]. cbv zeta in Hpos.
  injection Hkey as Hcid Hh.
  pose proof (ListBids_InsertBid s1) as HL.
  unfold InsertBid in Hi. injection Hi as <- <-.
  simpl. rewrite Hcid, Hh.
  split; [|split].
  - unfold ListBids. simpl. rewrite lookup_insert_eq, Hb. reflexivity.
  - intros cid h' Hne. unfold ListBids. simpl.
    rewrite lookup_insert_ne by congruence. rewrite Hb. reflexivity.
  - repeat split; auto. apply evalTxs_length.
Qed.


(** ** Build *)

Lemma verifyAuction_key (c : Chain) (h off : Z) (now : Time) (s s1 : Store)
    (a : Auction) (v : Validator) :
  rowsKeyed s ->
  verifyAuction c h off now s = (s1, Ok (a, v)) ->
  ChainID a = ID c /\ Height a = h.
Proof.
  intros Hkeyed Hv.
  apply verifyAuction_Ok_iff in Hv
    as (ch & L & vs & p & _ & _ & _ & _ & _ & _ & _ & Hf & _ & _).
  apply findOrCreateAuction_frame in Hf as (_ & _ & _ & _ & _ & _ & Hnew & Hold).
  destruct (auctions s !! (ID c, h)) as [a0|] eqn:Hs.
  - destruct (Hold a0 eq_refl) as [-> _].
    destruct Hkeyed as (_ & Hka & _). pose proof (Hka _ _ Hs) as Hk.
    injection Hk as -> ->. auto.
  - rewrite (Hnew eq_refl). auto.
Qed.

Lemma buildBlock_auctions (c : Chain) (auction : Auction) (allBids : list Bid)
    (mempool : list bytes) (maxBytes maxGas : Z) (errmsg : string) (now : Time)
    (s : Store) :
  auctions (fst (buildBlock c auction allBids mempool maxBytes maxGas errmsg now s))
  = auctions s.
Proof.
  unfold buildBlock.
  destruct (computeOrder c auction allBids mempool) as [[[w l] r]|e];
    [|reflexivity].
  unfold bind, write. simpl.
  destruct (flattenBundles _) as [[? ?] ?]. simpl. apply auctions_UpdateBids.
Qed.

Lemma ServiceBuild_Ok (c : Chain) (h : Z) (validatorAddr : string)
    (maxBytes maxGas : Z) (mempool : list bytes) (signature : bytes)
    (now : Time) (s s' : Store) (r : list bytes * (Z * string)) :
  ServiceBuild c h validatorAddr maxBytes maxGas mempool signature now s
  = (s', Ok r) ->
  exists (s1 : Store) (a : Auction) (v : Validator),
    verifyAuction c h 2 now s = (s1, Ok (a, v)) /\
    VerifySignature c (val_PubKeyType v) (val_PubKeyBytes v)
      (mekabuild_BuildBlockRequestSignBytes (ID c) h validatorAddr maxBytes
         maxGas (mekabuild_HashTxs mempool)) signature = None /\
    let s2 := fst (UpsertAuction s1 (auction_set_FinishedAt a now) now) in
    let a2 := snd (UpsertAuction s1 (auction_set_FinishedAt a now) now) in
    buildBlock c a2 (ListBids s2 (ID c) h) mempool maxBytes maxGas
      "compute winning bids" now s2 = (s', Ok r).
Proof.
  unfold ServiceBuild, Transact, bind, wrapErr, liftE, read, ret, fail.
  destruct (verifyAuction c h 2 now s) as [s1 [[a v]|e]]; [|discriminate].
  destruct (VerifySignature c _ _ _ signature) eqn:Hsig; [discriminate|].
  destruct (UpsertAuction s1 (auction_set_FinishedAt a now) now) as [s2 a2] eqn:Hu.
  simpl. case_bool_decide; simpl; [|discriminate].
  intros Hb. exists s1, a, v. split; [reflexivity|]. split; [exact Hsig|].
  cbv zeta. rewrite Hu. exact Hb.
Qed.

Lemma UpsertAuction_finishes (s : Store) (a : Auction) (now : Time) :
  now <> 0 ->
  finished (fst (UpsertAuction s (auction_set_FinishedAt a now) now))
    (ChainID a) (Height a).
Proof.
  intros Hnow. unfold finished, UpsertAuction. simpl.
  destruct (auctions s !! (ChainID a, Height a)) as [existing|]; simpl;
    rewrite lookup_insert_eq; eexists; (split; [reflexivity|]); simpl;
    unfold IsZero; apply Z.eqb_neq; exact Hnow.
Qed.

(** X5. A block is built for a height at most once. After a [Build]
    that succeeds at a time that is not the zero time, on a store whose rows
    are filed under their own keys, the auction of the height is stored with
    that time as [FinishedAt], and every later [Auction], [Bid], [Build] and
    [BuildV1] for the height fails. *)
Theorem Build_closes_the_auction (c : Chain) (h : Z) (validatorAddr : string)
    (maxBytes maxGas : Z) (mempool : list bytes) (signature : bytes)
    (now : Time) (s s' : Store) (r : list bytes * (Z * string)) :
  rowsKeyed s -> now <> 0 ->
  ServiceBuild c h validatorAddr maxBytes maxGas mempool signature now s
  = (s', Ok r) ->
  (exists a, SelectAuction s' (ID c) h = Ok a /\ FinishedAt a = now) /\
  forall (now' : Time) (kind validatorAddr' : string) (txbs mempool' : list bytes)
         (newV4 : result UUID) (maxBytes' maxGas' : Z) (signature' : bytes),
    is_Err (snd (ServiceAuction c h now' s')) = true /\
    is_Err (snd (ServiceBid c h kind txbs newV4 now' s')) = true /\
    is_Err (snd (ServiceBuild c h validatorAddr' maxBytes' maxGas' mempool'
                   signature' now' s')) = true /\
    is_Err (snd (ServiceBuildV1 c h validatorAddr' maxBytes' maxGas' mempool'
                   signature' now' s')) = true.
Proof.
  intros Hkeyed Hnow Hb.
  apply ServiceBuild_Ok in Hb as (s1 & a & v & Hv & _ & Hbb). cbv zeta in Hbb.
  destruct (verifyAuction_key _ _ _ _ _ _ _ _ Hkeyed Hv) as [Hcid Hh].
  pose proof (verifyAuction_frame _ _ _ _ _ _ _ _ Hv)
    as (_ & _ & _ & _ & Hlook & _).
  assert (Hsel : exists a', auctions s' !! (ID c, h) = Some a' /\ FinishedAt a' = now).
  { pose proof (buildBlock_auctions c
        (snd (UpsertAuction s1 (auction_set_FinishedAt a now) now))
        (ListBids (fst (UpsertAuction s1 (auction_set_FinishedAt a now) now))
           (ID c) h)
        mempool maxBytes maxGas "compute winning bids" now
        (fst (UpsertAuction s1 (auction_set_FinishedAt a now) now))) as Ha.
    rewrite Hbb in Ha. simpl in Ha. rewrite Ha.
    unfold UpsertAuction. simpl. rewrite Hcid, Hh, Hlook. simpl.
    rewrite lookup_insert_eq. eexists. split; reflexivity. }
  destruct Hsel as (a' & Ha' & Hfin).
  split.
  { exists a'. unfold SelectAuction. rewrite Ha'. auto. }
  assert (Hf : finished s' (ID c) h).
  { exists a'. split; [exact Ha'|]. rewrite Hfin. unfold IsZero.
    apply Z.eqb_neq. exact Hnow. }
  intros now' kind va' txbs mempool' newV4 mb' mg' sig'.
  split; [|split; [|split]].
  - destruct (verifyAuction_finished_fails c h 10 now' s' Hf) as (e & He).
    rewrite (ServiceAuction_verify_error _ _ _ _ _ _ He). reflexivity.
  - destruct (verifyAuction_finished_fails c h 10 now' s' Hf) as (e & He).
    rewrite (ServiceBid_verify_error _ _ _ _ _ _ _ _ _ He). reflexivity.
  - destruct (verifyAuction_finished_fails c h 2 now' s' Hf) as (e & He).
    rewrite (ServiceBuild_verify_error _ _ _ _ _ _ _ _ _ _ _ He). reflexivity.
  - apply ServiceBuildV1_finished_fails. exact Hf.
Qed.

(** X6. [Build] succeeds only if the chain reports a latest height
    and its validator set, the height is within two of the latest, the
    predicted proposer is a registered validator, and the signature verifies
    with the registered key over the sign bytes of the request. *)
Theorem Build_needs_the_proposers_signature (c : Chain) (h : Z)
    (validatorAddr : string) (maxBytes maxGas : Z) (mempool : list bytes)
    (signature : bytes) (now : Time) (s s' : Store)
    (r : list bytes * (Z * string)) :
  ServiceBuild c h validatorAddr maxBytes maxGas mempool signature now s
  = (s', Ok r) ->
  exists (L : Z) (vs : ValidatorSet) (p : ChainValidator) (v : Validator),
    LatestHeight c = Ok L /\ GetValidatorSet c L = Ok vs /\
    checkHeightWindow (ID c) L 2 h = None /\
    PredictProposer c vs h = Ok p /\
    SelectValidator s (ID c) (cv_Address p) = Ok v /\
    VerifySignature c (val_PubKeyType v) (val_PubKeyBytes v)
      (mekabuild_BuildBlockRequestSignBytes (ID c) h validatorAddr maxBytes
         maxGas (mekabuild_HashTxs mempool)) signature = None.
Proof.
  intros Hb. apply ServiceBuild_Ok in Hb as (s1 & a & v & Hv & Hsig & _).
  apply verifyAuction_Ok_iff in Hv
    as (ch & L & vs & p & _ & HL & Hvs & _ & Hw & Hp & Hval & _).
  exists L, vs, p, v. unfold SelectValidator. rewrite Hval. auto 10.
Qed.


(** ** Apply and Register *)

Lemma registerTx_cases (c : Chain) (vs : ValidatorSet) (ch : Challenge)
    (signature : bytes) (now : Time) (s : Store) :
  match VerifySignature c (ch_PubKeyType ch) (ch_PubKeyBytes ch)
          (mekabuild_RegisterChallengeSignBytes (ch_ChainID ch) (ch_Challenge ch))
          signature with
  | Some e => registerTx c vs ch signature now s = (s, Err e)
  | None =>
      match vs_Set vs !! ch_ValidatorAddress ch with
      | None =>
          registerTx c vs ch signature now s
          = (s, Err (Errorf "validator not present in validator set"))
      | Some cv =>
          let validator :=
            mkValidator (ch_ChainID ch) (ch_ValidatorAddress ch) (cv_Moniker cv)
              (ch_PubKeyBytes ch) (ch_PubKeyType ch) (ch_PaymentAddress ch) 0 0 in
          registerTx c vs ch signature now s
          = (UpsertValidator s validator now, Ok validator)
      end
  end.
Proof.
  unfold registerTx, bind, liftE, write, ret, fail.
  destruct (VerifySignature c _ _ _ signature); [reflexivity|].
  destruct (vs_Set vs !! ch_ValidatorAddress ch); reflexivity.
Qed.

Lemma ServiceRegister_unfold (c : Chain) (challengeID : string)
    (signature : bytes) (now : Time) (s : Store) (L : Z) (vs : ValidatorSet)
    (ch : Challenge) :
  LatestHeight c = Ok L -> GetValidatorSet c L = Ok vs ->
  challenges s !! challengeID = Some ch ->
  ServiceRegister c challengeID signature now s
  = (fst (DeleteChallenge (fst (registerTx c vs ch signature now s))
            (UUID_String (ch_ID ch))),
     snd (registerTx c vs ch signature now s)).
Proof.
  intros HL Hvs Hch.
  unfold ServiceRegister, Transact, bind, wrapErr, lift, readR, SelectChallenge.
  rewrite HL, Hvs, Hch.
  destruct (registerTx c vs ch signature now s) as [s1 r]. simpl.
  destruct (DeleteChallenge s1 _) as [s2 e]. reflexivity.
Qed.

Lemma validators_DeleteChallenge (s : Store) (id : string) :
  validators (fst (DeleteChallenge s id)) = validators s.
Proof. unfold DeleteChallenge. destruct (challenges s !! id); reflexivity. Qed.



Lemma UpsertValidator_lookup (s : Store) (v : Validator) (now : Time) :
  exists stored,
    validators (UpsertValidator s v now) !! (val_ChainID v, val_Address v)
    = Some stored /\
    val_PaymentAddress stored = val_PaymentAddress v /\
    val_Moniker stored = val_Moniker v.
Proof.
  unfold UpsertValidator.
  destruct (validators s !! (val_ChainID v, val_Address v)); simpl;
    rewrite lookup_insert_eq; eexists; repeat split; reflexivity.
Qed.

Lemma ServiceApply_Ok (c : Chain) (validatorAddr paymentAddr : string)
    (random32 : bytes) (newV4 : result UUID) (now : Time) (s s1 : Store)
    (ch : Challenge) :
  ServiceApply c validatorAddr paymentAddr random32 newV4 now s = (s1, Ok ch) ->
  exists (L : Z) (vs : ValidatorSet) (val : ChainValidator) (id : UUID),
    ValidatePaymentAddress c paymentAddr = None /\
    LatestHeight c = Ok L /\ GetValidatorSet c L = Ok vs /\
    vs_Set vs !! validatorAddr = Some val /\
    newV4 = Ok id /\
    ch = mkChallenge id (ID c) (cv_Address val) (cv_PubKeyBytes val)
           (cv_PubKeyType val) paymentAddr random32 now /\
    s1 = set_challenges s (<[UUID_String id := ch]> (challenges s)).
Proof.
  unfold ServiceApply, bind, wrapErr, liftE, lift, fail.
  destruct (ValidatePaymentAddress c paymentAddr) eqn:Hpay; [discriminate|].
  destruct (LatestHeight c) as [L|] eqn:HL; [|discriminate].
  destruct (GetValidatorSet c L) as [vs|] eqn:Hvs; [|discriminate].
  destruct (negb (vs_Height vs =? L)); [discriminate|].
  destruct (vs_Set vs !! validatorAddr) as [val|] eqn:Hval; [|discriminate].
  unfold InsertChallenge. destruct newV4 as [id|e]; [|discriminate].
  simpl. intros [= <- <-]. exists L, vs, val, id. auto 10.
Qed.

(** X8. Where the validator sets of the chain file each validator
    under its own address: after an [Apply] that succeeds the challenge is
    in the store under its identifier, with the random bytes of the call; a
    [Register] with that identifier and a signature that verifies over them
    returns and stores the validator with the payment address applied for,
    and the challenge is gone. *)
Theorem Apply_then_Register (c : Chain) (validatorAddr paymentAddr : string)
    (random32 signature : bytes) (newV4 : result UUID) (now now' : Time)
    (s s1 : Store) (ch : Challenge) :
  (forall L vs k cv, LatestHeight c = Ok L -> GetValidatorSet c L = Ok vs ->
     vs_Set vs !! k = Some cv -> cv_Address cv = k) ->
  ServiceApply c validatorAddr paymentAddr random32 newV4 now s = (s1, Ok ch) ->
  VerifySignature c (ch_PubKeyType ch) (ch_PubKeyBytes ch)
    (mekabuild_RegisterChallengeSignBytes (ID c) random32) signature = None ->
  let challengeID := UUID_String (ch_ID ch) in
  let s2 := fst (ServiceRegister c challengeID signature now' s1) in
  SelectChallenge s1 challengeID = Ok ch /\
  ch_Challenge ch = random32 /\
  (exists v stored,
     snd (ServiceRegister c challengeID signature now' s1) = Ok v /\
     val_ChainID v = ID c /\ val_Address v = validatorAddr /\
     val_PaymentAddress v = paymentAddr /\
     SelectValidator s2 (ID c) validatorAddr = Ok stored /\
     val_PaymentAddress stored = paymentAddr) /\
  SelectChallenge s2 challengeID = Err (Sentinel ErrNotFound).
Proof.
  intros Hset Happ Hsig.
  apply ServiceApply_Ok in Happ
    as (L & vs & val & id & _ & HL & Hvs & Hval & -> & -> & ->).
  pose proof (Hset _ _ _ _ HL Hvs Hval) as Haddr.
  simpl in Hsig. cbv zeta. simpl ch_ID. simpl ch_Challenge.
  set (ch := mkChallenge id (ID c) (cv_Address val) (cv_PubKeyBytes val)
               (cv_PubKeyType val) paymentAddr random32 now).
  set (s1 := set_challenges s (<[UUID_String id := ch]> (challenges s))).
  assert (Hlook : challenges s1 !! UUID_String id = Some ch).
  { apply lookup_insert_eq. }
  rewrite (ServiceRegister_unfold _ _ _ _ _ _ _ _ HL Hvs Hlook).
  pose proof (registerTx_cases c vs ch signature now' s1) as Hr.
  simpl in Hr. rewrite Hsig, Haddr, Hval in Hr.
  rewrite Hr. simpl fst. simpl snd.
  split; [unfold SelectChallenge; rewrite Hlook; reflexivity|].
  split; [reflexivity|].
  split.
  - match goal with
    | |- context [UpsertValidator s1 ?v now'] =>
        destruct (UpsertValidator_lookup s1 v now') as (stored & Hst & Hpay & _)
    end.
    simpl in Hst, Hpay.
    eexists _, stored. split; [reflexivity|]. simpl.
    split; [reflexivity|]. split; [reflexivity|]. split; [reflexivity|].
    unfold SelectValidator. rewrite validators_DeleteChallenge, Hst. auto.
  - unfold SelectChallenge, DeleteChallenge.
    match goal with
    | |- context [challenges (UpsertValidator s1 ?v now')] =>
        assert (Hc : challenges (UpsertValidator s1 v now')
                     = <[UUID_String id := ch]> (challenges s))
          by (unfold UpsertValidator; case_match; reflexivity)
    end.
    rewrite Hc. rewrite lookup_insert_eq. simpl.
    rewrite lookup_delete_eq. reflexivity.
Qed.

End Requests.

(** * Invariants of the store under the requests *)

Section Invariants.
Context {ext : External}.

Lemma keyedAfter_PreOrder : PreOrder keyedAfter.
Proof.
  split; [intros s Hs; exact Hs|intros s1 s2 s3 H12 H23 Hs; auto].
Qed.

Lemma sameTerms_refl (a : Auction) : sameTerms a a.
Proof. destruct a; reflexivity. Qed.

Lemma sameTerms_trans (a b c : Auction) :
  sameTerms a b -> sameTerms b c -> sameTerms a c.
Proof. unfold sameTerms. intros <- <-. destruct a; reflexivity. Qed.

Lemma termsKept_PreOrder : PreOrder termsKept.
Proof.
  split.
  - intros s k a Ha. exists a. split; [exact Ha|apply sameTerms_refl].
  - intros s1 s2 s3 H12 H23 k a Ha.
    destruct (H12 k a Ha) as (a2 & Ha2 & Ht2).
    destruct (H23 k a2 Ha2) as (a3 & Ha3 & Ht3).
    exists a3. split; [exact Ha3|eapply sameTerms_trans; eassumption].
Qed.

Lemma termsKept_same_auctions (s s' : Store) :
  auctions s' = auctions s -> termsKept s s'.
Proof.
  intros Heq k a Ha. rewrite Heq. exists a. split; [exact Ha|apply sameTerms_refl].
Qed.

Lemma termsKept_UpsertAuction (s : Store) (a : Auction) (now : Time) :
  termsKept s (fst (UpsertAuction s a now)).
Proof.
  intros k a0 Ha0. unfold UpsertAuction.
  destruct (auctions s !! (ChainID a, Height a)) as [existing|] eqn:Hex; simpl.
  - destruct (decide ((ChainID a, Height a) = k)) as [<-|Hne].
    + rewrite lookup_insert_eq. eexists. split; [reflexivity|].
      assert (existing = a0) by congruence. subst. reflexivity.
    + rewrite lookup_insert_ne by exact Hne. exists a0.
      split; [exact Ha0|apply sameTerms_refl].
  - destruct (decide ((ChainID a, Height a) = k)) as [<-|Hne]; [congruence|].
    rewrite lookup_insert_ne by exact Hne. exists a0.
    split; [exact Ha0|apply sameTerms_refl].
Qed.

(** X9. Every row of the store is filed under the key that its own
    fields spell. This holds of the new store, and [UpsertChain] and each
    request of the service keep it, whether the request succeeds or
    fails. *)
Theorem rows_stay_keyed :
  rowsKeyed NewStore /\
  forall s : Store, rowsKeyed s ->
    (forall (sc : StoreChain) (now : Time), rowsKeyed (UpsertChain s sc now)) /\
    forall (c : Chain) (h : Z) (now : Time) (kind : string) (txbs : list bytes)
           (newV4 : result UUID) (validatorAddr paymentAddr challengeID : string)
           (maxBytes maxGas : Z) (mempool : list bytes)
           (random32 signature : bytes),
      rowsKeyed (fst (ServiceAuction c h now s)) /\
      rowsKeyed (fst (ServiceBid c h kind txbs newV4 now s)) /\
      rowsKeyed (fst (ServiceApply c validatorAddr paymentAddr random32 newV4
                        now s)) /\
      rowsKeyed (fst (ServiceRegister c challengeID signature now s)) /\
      rowsKeyed (fst (ServiceBuild c h validatorAddr maxBytes maxGas mempool
                        signature now s)) /\
      rowsKeyed (fst (ServiceBuildV1 c h validatorAddr maxBytes maxGas mempool
                        signature now s)).
Proof.
  split; [apply rowsKeyed_NewStore|].
  intros s Hs. split; [intros sc now; apply rowsKeyed_UpsertChain, Hs|].
  intros c h now kind txbs newV4 va pa cid mb mg mempool r32 sig.
  pose proof keyedAfter_PreOrder as HP.
  assert (H1 : forall s b newV4 now, keyedAfter s (fst (InsertBid s b newV4 now)))
    by (intros; intros ?; apply rowsKeyed_InsertBid; assumption).
  assert (H2 : forall s bs now, keyedAfter s (UpdateBids s bs now))
    by (intros; intros ?; apply rowsKeyed_UpdateBids; assumption).
  assert (H3 : forall s a now, keyedAfter s (fst (UpsertAuction s a now)))
    by (intros; intros ?; apply rowsKeyed_UpsertAuction; assumption).
  assert (H4 : forall s c newV4 now,
             keyedAfter s (fst (InsertChallenge s c newV4 now)))
    by (intros; intros ?; apply rowsKeyed_InsertChallenge; assumption).
  assert (H5 : forall s id, keyedAfter s (fst (DeleteChallenge s id)))
    by (intros; intros ?; apply rowsKeyed_DeleteChallenge; assumption).
  assert (H6 : forall s v now, keyedAfter s (UpsertValidator s v now))
    by (intros; intros ?; apply rowsKeyed_UpsertValidator; assumption).
  split; [apply (keeps_ServiceAuction keyedAfter H3); exact Hs|].
  split; [apply (keeps_ServiceBid keyedAfter H1 H3); exact Hs|].
  split; [apply (keeps_ServiceApply keyedAfter H4); exact Hs|].
  split; [apply (keeps_ServiceRegister keyedAfter H5 H6); exact Hs|].
  split; [apply (keeps_ServiceBuild keyedAfter H2 H3); exact Hs|].
  apply (keeps_ServiceBuildV1 keyedAfter H2 H3 H6); exact Hs.
Qed.

(** X10. No request of the service removes an auction from the
    store or changes a field of it other than [FinishedAt]. *)
Theorem auction_terms_never_change (c : Chain) (h : Z) (now : Time)
    (kind : string) (txbs : list bytes) (newV4 : result UUID)
    (validatorAddr paymentAddr challengeID : string) (maxBytes maxGas : Z)
    (mempool : list bytes) (random32 signature : bytes) :
  keeps termsKept (ServiceAuction c h now) /\
  keeps termsKept (ServiceBid c h kind txbs newV4 now) /\
  keeps termsKept (ServiceApply c validatorAddr paymentAddr random32 newV4 now) /\
  keeps termsKept (ServiceRegister c challengeID signature now) /\
  keeps termsKept
    (ServiceBuild c h validatorAddr maxBytes maxGas mempool signature now) /\
  keeps termsKept
    (ServiceBuildV1 c h validatorAddr maxBytes maxGas mempool signature now).
Proof.
  pose proof termsKept_PreOrder as HP.
  assert (H1 : forall s b newV4 now, termsKept s (fst (InsertBid s b newV4 now))).
  { intros s0 b0 n0 t0. apply termsKept_same_auctions. unfold InsertBid.
    destruct n0; reflexivity. }
  assert (H2 : forall s bs now, termsKept s (UpdateBids s bs now)).
  { intros. apply termsKept_same_auctions, auctions_UpdateBids. }
  pose proof termsKept_UpsertAuction as H3.
  assert (H4 : forall s c newV4 now,
             termsKept s (fst (InsertChallenge s c newV4 now))).
  { intros s0 c0 n0 t0. apply termsKept_same_auctions. unfold InsertChallenge.
    destruct n0; reflexivity. }
  assert (H5 : forall s id, termsKept s (fst (DeleteChallenge s id))).
  { intros. apply termsKept_same_auctions. unfold DeleteChallenge.
    case_match; reflexivity. }
  assert (H6 : forall s v now, termsKept s (UpsertValidator s v now)).
  { intros. apply termsKept_same_auctions, auctions_UpsertValidator. }
  split; [apply (keeps_ServiceAuction termsKept H3)|].
  split; [apply (keeps_ServiceBid termsKept H1 H3)|].
  split; [apply (keeps_ServiceApply termsKept H4)|].
  split; [apply (keeps_ServiceRegister termsKept H5 H6)|].
  split; [apply (keeps_ServiceBuild termsKept H2 H3)|].
  apply (keeps_ServiceBuildV1 termsKept H2 H3 H6).
Qed.

End Invariants.

(** * The order of the bids *)

Section Order.
Context {ext : External}.

(** ** computeOrder *)

Lemma evaluateBid_ID (c : Chain) (a : Auction) (b : Bid) :
  bid_ID (fst (evaluateBid c a b)) = bid_ID b.
Proof.
  unfold evaluateBid. destruct (evalTxs c a (Txs b) payAcc0) as [txs' acc].
  repeat case_match; reflexivity.
Qed.

Lemma evaluateUnevaluated_IDs (c : Chain) (a : Auction) (bs ebs : list Bid) :
  evaluateUnevaluated c a bs = Ok ebs -> bid_ID <$> ebs = bid_ID <$> bs.
Proof.
  revert ebs. induction bs as [|b bs IH]; intros ebs; simpl.
  - intros [= <-]. reflexivity.
  - case_bool_decide.
    + destruct (evaluateBid c a b) as [b' [e|]] eqn:He; [discriminate|].
      destruct (evaluateUnevaluated c a bs) as [rest|]; [|discriminate].
      intros [= <-]. rewrite !fmap_cons, (IH rest eq_refl).
      f_equal. pose proof (evaluateBid_ID c a b) as Hid. rewrite He in Hid.
      exact Hid.
    + destruct (evaluateUnevaluated c a bs) as [rest|]; [|discriminate].
      intros [= <-]. rewrite !fmap_cons, (IH rest eq_refl). reflexivity.
Qed.

Lemma evaluateUnevaluated_evaluated (c : Chain) (a : Auction) (bs : list Bid) :
  Forall (fun b => State b <> BidStateUnset) bs ->
  evaluateUnevaluated c a bs = Ok bs.
Proof.
  induction 1 as [|b bs Hb Hbs IH]; simpl; [reflexivity|].
  rewrite bool_decide_eq_false_2 by exact Hb. rewrite IH. reflexivity.
Qed.

(** What a step of the walk does: the bid wins as it is, or loses and is
    marked. *)
Lemma walkStep_cases (st : walkState) (eb : Bid) :
  (winningBids (walkStep st eb) = winningBids st ++ [eb] /\
   rejectedBids (walkStep st eb) = rejectedBids st /\
   (winningBids st <> [] -> Kind eb = BidKindBlock) /\
   debit (senderBalances st) (Payments eb) = Some (senderBalances (walkStep st eb)))
  \/
  (winningBids (walkStep st eb) = winningBids st /\
   rejectedBids (walkStep st eb)
   = rejectedBids st ++ [bid_set_State eb BidStateRejected] /\
   senderBalances (walkStep st eb) = senderBalances st).
Proof.
  unfold walkStep.
  destruct (bool_decide (Kind eb = BidKindTop)
            && (0 <? Z.of_nat (length (winningBids st)))) eqn:Htop;
    [right; auto|].
  destruct (hasClaimedTransactions (claimedTxs st) (Txs eb)); [right; auto|].
  destruct (debit (senderBalances st) (Payments eb)) as [bal|] eqn:Hd;
    [|right; auto].
  left. simpl. repeat split; auto.
  intros Hne. apply andb_false_iff in Htop as [Hk|Hl].
  - apply bool_decide_eq_false in Hk. destruct (Kind eb); congruence.
  - apply Z.ltb_ge in Hl. destruct (winningBids st); [congruence|].
    simpl in Hl. lia.
Qed.

Lemma walk_partition (l : list Bid) (st : walkState) :
  let st' := fold_left walkStep l st in
  (exists W, winningBids st' = winningBids st ++ W /\ W `sublist_of` l) /\
  (exists X, rejectedBids st' = rejectedBids st ++ (markRejected <$> X) /\
             X `sublist_of` l) /\
  markRejected <$> (winningBids st' ++ rejectedBids st')
  ≡ₚ (markRejected <$> (winningBids st ++ rejectedBids st)) ++ (markRejected <$> l).
Proof.
  revert st. induction l as [|eb l IH]; intros st; simpl.
  - split; [exists []; rewrite app_nil_r; auto|].
    split; [exists []; rewrite app_nil_r; auto|].
    rewrite app_nil_r. reflexivity.
  - destruct (IH (walkStep st eb)) as ((W & HW & HWs) & (X & HX & HXs) & Hp).
    cbv zeta in *.
    destruct (walkStep_cases st eb) as [(Hw & Hr & _)|(Hw & Hr & _)].
    + split; [exists (eb :: W); rewrite HW, Hw, <- app_assoc; split;
               [reflexivity|constructor; exact HWs]|].
      split; [exists X; rewrite HX, Hr; split;
               [reflexivity|apply sublist_cons; exact HXs]|].
      rewrite Hp, Hw, Hr. rewrite !fmap_app, !fmap_cons. simpl.
      rewrite <- !app_assoc. apply Permutation_app_head.
      simpl. apply Permutation_middle.
    + split; [exists W; rewrite HW, Hw; split;
               [reflexivity|apply sublist_cons; exact HWs]|].
      split; [exists (eb :: X); rewrite HX, Hr, <- app_assoc; split;
               [reflexivity|constructor; exact HXs]|].
      rewrite Hp, Hw, Hr. rewrite !fmap_app, !fmap_cons. simpl.
      rewrite <- !app_assoc. do 2 apply Permutation_app_head.
      destruct eb; reflexivity.
Qed.


Lemma StronglySorted_sublist {A} (R : relation A) (l k : list A) :
  l `sublist_of` k -> StronglySorted R k -> StronglySorted R l.
Proof.
  induction 1 as [|x l k Hs IH|x l k Hs IH]; intros Hk.
  - constructor.
  - apply StronglySorted_inv in Hk as [Hk Hx]. constructor; [apply IH, Hk|].
    rewrite Forall_forall in Hx |- *. intros y Hy. apply Hx.
    eapply sublist_submseteq, submseteq_Permutation in Hs as (k' & Hs).
    rewrite Hs. apply elem_of_app. left. exact Hy.
  - apply StronglySorted_inv in Hk as [Hk _]. apply IH, Hk.
Qed.

Lemma bidLess_asym (x y : Bid) : bidLess x y = true -> bidLess y x = false.
Proof.
  unfold bidLess.
  destruct (Z.eqb_spec (Priority x) (Priority y)) as [He|Hne]; simpl.
  - rewrite He, Z.eqb_refl. simpl. intros Hlt. apply N.ltb_lt in Hlt.
    apply N.ltb_ge. lia.
  - destruct (Z.eqb_spec (Priority y) (Priority x)) as [He'|_]; [congruence|].
    simpl. intros Hgt. apply Z.gtb_lt in Hgt.
    destruct (Priority y >? Priority x) eqn:Hyx; [|reflexivity].
    apply Z.gtb_lt in Hyx. lia.
Qed.

Lemma bidLess_false (x y : Bid) :
  bidLess y x = false <->
  Priority y <= Priority x /\
  (Priority x = Priority y -> (bid_ID x <= bid_ID y)%N).
Proof.
  unfold bidLess.
  destruct (Z.eqb_spec (Priority y) (Priority x)) as [He|Hne]; simpl.
  - rewrite N.ltb_ge. split; [intros Hle; split; [lia|auto]|intros [_ H]; auto].
  - destruct (Priority y >? Priority x) eqn:Hyx.
    + apply Z.gtb_lt in Hyx. split; [discriminate|]. intros [Hle _]. lia.
    + assert (Hle : Priority y <= Priority x).
      { destruct (Z.gtb_spec (Priority y) (Priority x)); [discriminate|lia]. }
      split; [intros _; split; [exact Hle|intros; congruence]|reflexivity].
Qed.

Lemma bidLess_notAfter_trans (x y z : Bid) :
  notAfter bidLess x y -> notAfter bidLess y z -> notAfter bidLess x z.
Proof.
  unfold notAfter. rewrite !bidLess_false.
  intros [H1 H1'] [H2 H2']. split; [lia|].
  intros He. assert (Hxy : Priority x = Priority y) by lia.
  assert (Hyz : Priority y = Priority z) by lia.
  specialize (H1' Hxy). specialize (H2' Hyz). lia.
Qed.

Lemma walk_top_first (l : list Bid) (st : walkState) :
  Forall (fun b => Kind b = BidKindBlock) (drop 1 (winningBids st)) ->
  Forall (fun b => Kind b = BidKindBlock)
    (drop 1 (winningBids (fold_left walkStep l st))).
Proof.
  revert st. induction l as [|eb l IH]; intros st Hst; simpl; [exact Hst|].
  apply IH.
  destruct (walkStep_cases st eb) as [(Hw & _ & Hk & _)|(Hw & _)];
    rewrite Hw; [|exact Hst].
  destruct (winningBids st) as [|w ws] eqn:Hws; [constructor|].
  simpl in *. apply Forall_app. split; [exact Hst|].
  constructor; [apply Hk; discriminate|constructor].
Qed.

Lemma computeOrder_Ok (c : Chain) (a : Auction) (bs : list Bid)
    (mempool : list bytes) (w l : list Bid) (r : list bytes) :
  computeOrder c a bs mempool = Ok (w, l, r) ->
  exists ebs,
    evaluateUnevaluated c a bs = Ok ebs /\
    let st := fold_left walkStep (SliceStable bidLess ebs)
                (mkWalkState [] [] ∅ (querySenderBalances c a ebs)) in
    w = winningBids st /\ l = rejectedBids st /\
    r = remainingMempool (claimedTxs st) mempool.
Proof.
  unfold computeOrder.
  destruct (evaluateUnevaluated c a bs) as [ebs|]; [|discriminate].
  intros [= <- <- <-]. exists ebs. auto.
Qed.

Lemma remainingMempool_sublist (claimed : gset string) (mempool : list bytes) :
  remainingMempool claimed mempool `sublist_of` mempool.
Proof.
  revert claimed. induction mempool as [|tx rest IH]; intros claimed; simpl.
  - constructor.
  - case_bool_decide; [apply sublist_cons, IH|apply sublist_skip, IH].
Qed.

(** X11. Every bid wins or loses, once. When [computeOrder]
    succeeds, the identifiers of the winning and the losing bids together
    are those of the bids given, each as often; every losing bid is marked
    rejected; the transactions left of the mempool are some of the mempool,
    in its order; and when all the bids had been evaluated before, the
    winners are among the bids given, unchanged. *)
Theorem computeOrder_settles_every_bid (c : Chain) (a : Auction)
    (bs : list Bid) (mempool : list bytes) (w l : list Bid) (r : list bytes) :
  computeOrder c a bs mempool = Ok (w, l, r) ->
  bid_ID <$> (w ++ l) ≡ₚ bid_ID <$> bs /\
  Forall (fun b => State b = BidStateRejected) l /\
  (Forall (fun b => State b <> BidStateUnset) bs -> w ⊆+ bs) /\
  r `sublist_of` mempool.
Proof.
  intros Hc. apply computeOrder_Ok in Hc as (ebs & He & -> & -> & ->).
  set (st0 := mkWalkState [] [] ∅ (querySenderBalances c a ebs)).
  destruct (walk_partition (SliceStable bidLess ebs) st0)
    as ((W & HW & HWs) & (X & HX & HXs) & Hp).
  cbv zeta in *. simpl in HW, HX, Hp.
  split; [|split; [|split]].
  - rewrite <- (evaluateUnevaluated_IDs _ _ _ _ He).
    assert (Hid : forall k : list Bid, bid_ID <$> k = bid_ID <$> (markRejected <$> k)).
    { intros k. rewrite <- list_fmap_compose. apply list_fmap_ext.
      intros i [] _. reflexivity. }
    rewrite Hid.
    transitivity (bid_ID <$> (markRejected <$> SliceStable bidLess ebs)).
    { apply fmap_Permutation. exact Hp. }
    rewrite <- Hid. apply fmap_Permutation, SliceStable_Permutation.
  - rewrite HX. apply Forall_fmap, Forall_forall. intros b _. reflexivity.
  - intros Hev. rewrite (evaluateUnevaluated_evaluated _ _ _ Hev) in He.
    injection He as <-. rewrite HW.
    apply sublist_submseteq in HWs.
    rewrite HWs. rewrite (SliceStable_Permutation bidLess bs). reflexivity.
  - apply remainingMempool_sublist.
Qed.

(** X12. The winners stand in the order of their priority, the
    higher first and among equals the lower identifier first, and a top bid
    can only stand first. *)
Theorem computeOrder_ranks_the_winners (c : Chain) (a : Auction)
    (bs : list Bid) (mempool : list bytes) (w l : list Bid) (r : list bytes) :
  computeOrder c a bs mempool = Ok (w, l, r) ->
  StronglySorted
    (fun b1 b2 => Priority b2 <= Priority b1 /\
                  (Priority b1 = Priority b2 -> (bid_ID b1 <= bid_ID b2)%N)) w /\
  (forall (i : nat) (b : Bid),
     w !! i = Some b -> Kind b = BidKindTop -> i = 0%nat).
Proof.
  intros Hc. apply computeOrder_Ok in Hc as (ebs & He & -> & -> & ->).
  set (st0 := mkWalkState [] [] ∅ (querySenderBalances c a ebs)).
  split.
  - destruct (walk_partition (SliceStable bidLess ebs) st0)
      as ((W & HW & HWs) & _).
    cbv zeta in HW. simpl in HW. rewrite HW.
    apply (StronglySorted_sublist _ _ _ HWs).
    pose proof (SliceStable_sorted bidLess bidLess_asym bidLess_notAfter_trans ebs)
      as Hs.
    clear -Hs. induction Hs as [|x k Hk IH Hx]; constructor; [exact IH|].
    eapply Forall_impl; [exact Hx|]. intros y Hy. apply bidLess_false. exact Hy.
  - pose proof (walk_top_first (SliceStable bidLess ebs) st0) as Ht.
    assert (H0 : Forall (fun b => Kind b = BidKindBlock) (drop 1 (winningBids st0)))
      by constructor.
    specialize (Ht H0).
    intros i b Hi Hk. destruct i as [|i]; [reflexivity|].
    exfalso. rewrite Forall_forall in Ht.
    assert (Hin : b ∈ drop 1 (winningBids (fold_left walkStep
                                (SliceStable bidLess ebs) st0))).
    { apply list_elem_of_lookup. exists i. rewrite lookup_drop. exact Hi. }
    specialize (Ht b Hin). congruence.
Qed.


(** ** Balances *)

Lemma drawnFrom_app (addr : string) (ps qs : list Payment) :
  drawnFrom addr (ps ++ qs) = drawnFrom addr ps + drawnFrom addr qs.
Proof.
  unfold drawnFrom. induction ps as [|p ps IH]; simpl; [reflexivity|].
  rewrite IH. case_bool_decide; lia.
Qed.

Lemma debit_spec (ps : list Payment) (bal bal' : gmap string Z) :
  (forall addr, 0 <= default 0 (bal !! addr) <= max_int64) ->
  Forall (fun p => 0 <= pay_Amount p <= max_int64) ps ->
  debit bal ps = Some bal' ->
  forall addr,
    default 0 (bal' !! addr) = default 0 (bal !! addr) - drawnFrom addr ps /\
    0 <= default 0 (bal' !! addr) <= max_int64.
Proof.
  revert bal. induction ps as [|p ps IH]; intros bal Hbal Hps; simpl.
  - intros [= <-] addr. unfold drawnFrom. simpl. split; [lia|apply Hbal].
  - apply Forall_cons in Hps as [Hp Hps].
    destruct (sub64 (default 0 (bal !! pay_From p)) (pay_Amount p) <? 0) eqn:Hneg;
      [discriminate|].
    apply Z.ltb_ge in Hneg. intros Hd addr.
    assert (Hexact : sub64 (default 0 (bal !! pay_From p)) (pay_Amount p)
                     = default 0 (bal !! pay_From p) - pay_Amount p).
    { unfold sub64. apply wrap64_id. specialize (Hbal (pay_From p)).
      unfold in_int64, min_int64, max_int64 in *. lia. }
    rewrite Hexact in *.
    assert (Hbal1 : forall addr0,
              0 <= default 0 (<[pay_From p := default 0 (bal !! pay_From p)
                                               - pay_Amount p]> bal !! addr0)
              <= max_int64).
    { intros addr0. destruct (decide (pay_From p = addr0)) as [<-|Hne].
      - rewrite lookup_insert_eq. simpl. specialize (Hbal (pay_From p)). lia.
      - rewrite lookup_insert_ne by exact Hne. apply Hbal. }
    destruct (IH _ Hbal1 Hps Hd addr) as [Heq Hrange].
    split; [|exact Hrange]. rewrite Heq.
    unfold drawnFrom. simpl. fold (drawnFrom addr ps).
    destruct (decide (pay_From p = addr)) as [<-|Hne].
    + rewrite lookup_insert_eq, bool_decide_eq_true_2 by reflexivity. simpl. lia.
    + rewrite lookup_insert_ne by exact Hne.
      rewrite bool_decide_eq_false_2 by exact Hne. lia.
Qed.

Lemma walk_balances (init : gmap string Z) (l : list Bid) (st : walkState) :
  Forall (fun b => Forall (fun p => 0 <= pay_Amount p <= max_int64) (Payments b)) l ->
  (forall addr, 0 <= default 0 (senderBalances st !! addr) <= max_int64) ->
  (forall addr, default 0 (senderBalances st !! addr)
                = default 0 (init !! addr)
                  - drawnFrom addr (concat (Payments <$> winningBids st))) ->
  let st' := fold_left walkStep l st in
  forall addr,
    0 <= default 0 (senderBalances st' !! addr) /\
    default 0 (senderBalances st' !! addr)
    = default 0 (init !! addr)
      - drawnFrom addr (concat (Payments <$> winningBids st')).
Proof.
  revert st. induction l as [|eb l IH]; intros st Hl Hrange Heq; simpl.
  - intros addr. split; [apply Hrange|apply Heq].
  - apply Forall_cons in Hl as [Heb Hl]. apply IH; [exact Hl| |].
    + destruct (walkStep_cases st eb) as [(_ & _ & _ & Hd)|(_ & _ & Hb)].
      * intros addr. apply (debit_spec _ _ _ Hrange Heb Hd addr).
      * rewrite Hb. exact Hrange.
    + destruct (walkStep_cases st eb) as [(Hw & _ & _ & Hd)|(Hw & _ & Hb)].
      * intros addr.
        destruct (debit_spec _ _ _ Hrange Heb Hd addr) as [Hnew _].
        rewrite Hnew, Hw, fmap_app, concat_app, drawnFrom_app, Heq. simpl.
        rewrite app_nil_r. lia.
      * rewrite Hb, Hw. exact Heq.
Qed.

Lemma querySenderBalances_lookup (c : Chain) (a : Auction) (ebs : list Bid)
    (addr : string) (b : Z) :
  querySenderBalances c a ebs !! addr = Some b ->
  AccountBalance c (sub64 (Height a) 1) addr (PaymentDenom a) = Ok b.
Proof.
  unfold querySenderBalances.
  generalize (pay_From <$> concat (Payments <$> ebs)). intros addrs.
  assert (Hgen : forall (m : gmap string Z),
            (forall ad x, m !! ad = Some x ->
               AccountBalance c (sub64 (Height a) 1) ad (PaymentDenom a) = Ok x) ->
            forall ad x,
              fold_left
                (fun senderBalances addr =>
                   match AccountBalance c (sub64 (Height a) 1) addr
                           (PaymentDenom a) with
                   | Err _ => senderBalances
                   | Ok balance => <[addr := balance]> senderBalances
                   end) addrs m !! ad = Some x ->
              AccountBalance c (sub64 (Height a) 1) ad (PaymentDenom a) = Ok x).
  { induction addrs as [|ad0 addrs IH]; intros m Hm ad x; simpl; [apply Hm|].
    apply IH. intros ad1 x1.
    destruct (AccountBalance c (sub64 (Height a) 1) ad0 (PaymentDenom a))
      as [bal|] eqn:Hb; [|apply Hm].
    destruct (decide (ad0 = ad1)) as [<-|Hne].
    - rewrite lookup_insert_eq. intros [= <-]. exact Hb.
    - rewrite lookup_insert_ne by exact Hne. apply Hm. }
  apply Hgen. intros ad x Hl. rewrite lookup_empty in Hl. discriminate.
Qed.

(** X13. Where the balances that the chain reports and the amounts of
    the payments are [int64] values that are not negative, and the bids have
    been evaluated before: the payments of the winners together never draw
    more from an address than its balance at the height before the auction,
    in the denomination of the auction. *)
Theorem computeOrder_never_overdraws (c : Chain) (a : Auction)
    (bs : list Bid) (mempool : list bytes) (w l : list Bid) (r : list bytes) :
  (forall h addr denom b,
     AccountBalance c h addr denom = Ok b -> 0 <= b <= max_int64) ->
  Forall (fun b => State b <> BidStateUnset /\
                   Forall (fun p => 0 <= pay_Amount p <= max_int64) (Payments b))
    bs ->
  computeOrder c a bs mempool = Ok (w, l, r) ->
  forall addr : string,
    drawnFrom addr (concat (Payments <$> w))
    <= match AccountBalance c (sub64 (Height a) 1) addr (PaymentDenom a) with
       | Ok b => b
       | Err _ => 0
       end.
Proof.
  intros Hchain Hbs Hc addr.
  apply computeOrder_Ok in Hc as (ebs & He & -> & _ & _).
  rewrite evaluateUnevaluated_evaluated in He
    by (eapply Forall_impl; [exact Hbs|]; intros b [Hb _]; exact Hb).
  injection He as <-.
  set (init := querySenderBalances c a bs).
  assert (Hinit : forall ad, 0 <= default 0 (init !! ad) <= max_int64).
  { intros ad. destruct (init !! ad) as [x|] eqn:Hx; simpl.
    - apply querySenderBalances_lookup in Hx. eapply Hchain. exact Hx.
    - unfold max_int64. lia. }
  assert (Hsorted : Forall (fun b => Forall (fun p => 0 <= pay_Amount p <= max_int64)
                                       (Payments b)) (SliceStable bidLess bs)).
  { rewrite (SliceStable_Permutation bidLess bs).
    eapply Forall_impl; [exact Hbs|]. intros b [_ Hb]. exact Hb. }
  pose proof (walk_balances init (SliceStable bidLess bs)
                (mkWalkState [] [] ∅ init) Hsorted Hinit) as Hw.
  simpl in Hw.
  assert (H0 : forall ad, default 0 (init !! ad)
                         = default 0 (init !! ad) - drawnFrom ad []).
  { intros ad. unfold drawnFrom. simpl. lia. }
  destruct (Hw H0 addr) as [Hpos Heq].
  assert (Hle : default 0 (init !! addr)
                <= match AccountBalance c (sub64 (Height a) 1) addr
                           (PaymentDenom a) with
                   | Ok b => b
                   | Err _ => 0
                   end).
  { destruct (init !! addr) as [x|] eqn:Hx; simpl.
    - apply querySenderBalances_lookup in Hx. rewrite Hx. lia.
    - destruct (AccountBalance c _ addr _) as [b|] eqn:Hb; [|lia].
      apply Hchain in Hb. lia. }
  lia.
Qed.

End Order.

(** * The layout of the block *)

Section Packing.
Context {ext : External}.

Lemma selectBid_fold_layout (c : Chain) (mb mg : Z) (l : list Bid)
    (st : selectState) :
  let st' := fold_left (selectBid c mb mg) l st in
  exists A Rj : list Bid,
    A `sublist_of` l /\ Rj `sublist_of` l /\ A ++ Rj ≡ₚ l /\
    bundles st' = bundles st ++ (bidBundle <$> A) /\
    acceptedBids st' = acceptedBids st ++ (markAccepted <$> A) /\
    sel_rejectedBids st' = sel_rejectedBids st ++ (markRejected <$> Rj).
Proof.
  revert st. induction l as [|eb l IH]; intros st; simpl.
  - exists [], []. rewrite !app_nil_r. repeat split; constructor.
  - destruct (IH (selectBid c mb mg st eb))
      as (A & Rj & HA & HR & Hp & Hb & Hacc & Hrej).
    destruct (selectBid_cases c mb mg st eb)
      as [(Hb1 & Ha1 & _ & _ & Hr1)|(Hb1 & Ha1 & _ & _ & Hr1 & _)].
    + exists A, (eb :: Rj).
      split; [apply sublist_cons, HA|]. split; [apply sublist_skip, HR|].
      split; [rewrite <- Hp; symmetry; apply Permutation_middle|].
      rewrite Hb, Hacc, Hrej, Hb1, Ha1, Hr1, <- app_assoc. auto.
    + exists (eb :: A), Rj.
      split; [apply sublist_skip, HA|]. split; [apply sublist_cons, HR|].
      split; [simpl; rewrite Hp; reflexivity|].
      rewrite Hb, Hacc, Hrej, Hb1, Ha1, Hr1, <- !app_assoc. auto.
Qed.

Lemma selectMempoolTx_fold_layout (c : Chain) (mb mg : Z) (l : list bytes)
    (st : selectState) :
  let st' := fold_left (selectMempoolTx c mb mg) l st in
  exists M : list bytes,
    M `sublist_of` l /\
    bundles st' = bundles st ++ (mempoolBundle <$> M) /\
    acceptedBids st' = acceptedBids st /\
    sel_rejectedBids st' = sel_rejectedBids st.
Proof.
  revert st. induction l as [|tx l IH]; intros st; simpl.
  - exists []. rewrite app_nil_r. repeat split; constructor.
  - destruct (IH (selectMempoolTx c mb mg st tx)) as (M & HM & Hb & Ha & Hr).
    destruct (selectMempoolTx_cases c mb mg st tx)
      as [Hsame|(tb & tg & _ & _ & Hb1 & Ha1 & Hr1 & _)].
    + cbv zeta in Hsame. rewrite Hsame in *.
      exists M. split; [apply sublist_cons, HM|]. auto.
    + exists (tx :: M). split; [apply sublist_skip, HM|].
      rewrite Hb, Ha, Hr, Hb1, Ha1, Hr1, <- app_assoc. auto.
Qed.

Lemma wrap64_range (z : Z) : in_int64 (wrap64 z).
Proof.
  unfold wrap64, in_int64, min_int64, max_int64.
  pose proof (Z.mod_pos_bound (z + 2 ^ 63) (2 ^ 64)). lia.
Qed.

Lemma flattenBundles_fold (bs : list txBundle) (t : list bytes) (vp mp : Z) :
  fold_left
    (fun '(blockTxs, vp, mp) b =>
       (blockTxs ++ txs b, add64 vp (bundle_validatorPayment b),
        add64 mp (bundle_mekatekPayment b)))
    bs (t, vp, mp)
  = (t ++ concat (txs <$> bs),
     fold_left add64 (bundle_validatorPayment <$> bs) vp,
     fold_left add64 (bundle_mekatekPayment <$> bs) mp).
Proof.
  revert t vp mp. induction bs as [|b bs IH]; intros t vp mp; simpl.
  - rewrite app_nil_r. reflexivity.
  - rewrite IH, <- app_assoc. reflexivity.
Qed.

Lemma fold_add64_range (l : list Z) (z : Z) :
  in_int64 z -> in_int64 (fold_left add64 l z).
Proof.
  revert z. induction l as [|x l IH]; intros z Hz; simpl; [exact Hz|].
  apply IH, wrap64_range.
Qed.

Lemma fold_add64_zeros {A} (l : list A) (z : Z) :
  in_int64 z -> fold_left add64 ((fun _ => 0) <$> l) z = z.
Proof.
  intros Hz. induction l as [|x l IH]; simpl; [reflexivity|].
  unfold add64 at 2. rewrite Z.add_0_r, (wrap64_id z Hz). exact IH.
Qed.

(** X14. [selectTransactions] divides the winning bids into the
    accepted and the rejected, each in the order given and marked with its
    state. The block is the transactions of the accepted bids, bid by bid,
    and after them some of the mempool in its order; the two payments are
    the [int64] sums over the accepted bids. *)
Theorem selectTransactions_lays_out_the_block (c : Chain) (winning : list Bid)
    (mempool : list bytes) (maxBytes maxGas : Z) :
  let st := selectTransactions c winning mempool maxBytes maxGas in
  exists (A Rj : list Bid) (M : list bytes),
    A `sublist_of` winning /\ Rj `sublist_of` winning /\ A ++ Rj ≡ₚ winning /\
    M `sublist_of` mempool /\
    acceptedBids st = markAccepted <$> A /\
    sel_rejectedBids st = markRejected <$> Rj /\
    flattenBundles (bundles st)
    = (concat (Txs <$> A) ++ M,
       fold_left add64 (ValidatorPayment <$> A) 0,
       fold_left add64 (MekatekPayment <$> A) 0).
Proof.
  cbv zeta. unfold selectTransactions.
  set (mb := if maxBytes =? -1 then max_int64 else maxBytes).
  set (mg := if maxGas =? -1 then max_int64 else maxGas).
  destruct (selectBid_fold_layout c mb mg winning (mkSelectState [] [] [] 0 0))
    as (A & Rj & HA & HR & Hp & Hb & Hacc & Hrej).
  cbv zeta in *. simpl in Hb, Hacc, Hrej.
  destruct (selectMempoolTx_fold_layout c mb mg mempool
              (fold_left (selectBid c mb mg) winning (mkSelectState [] [] [] 0 0)))
    as (M & HM & Hb2 & Ha2 & Hr2).
  cbv zeta in *.
  exists A, Rj, M. rewrite Ha2, Hr2, Hacc, Hrej, Hb2, Hb.
  repeat (split; [assumption || reflexivity|]).
  unfold flattenBundles. rewrite flattenBundles_fold. simpl.
  rewrite !fmap_app, concat_app, !fold_left_app.
  assert (H0 : in_int64 0) by (unfold in_int64, min_int64, max_int64; lia).
  assert (H1 : concat (txs <$> (bidBundle <$> A)) = concat (Txs <$> A)).
  { rewrite <- list_fmap_compose. reflexivity. }
  assert (H2 : concat (txs <$> (mempoolBundle <$> M)) = M).
  { clear. induction M as [|tx M IH]; [reflexivity|].
    rewrite !fmap_cons. simpl. f_equal. exact IH. }
  assert (H3 : bundle_validatorPayment <$> (bidBundle <$> A)
               = ValidatorPayment <$> A).
  { rewrite <- list_fmap_compose. reflexivity. }
  assert (H4 : bundle_mekatekPayment <$> (bidBundle <$> A)
               = MekatekPayment <$> A).
  { rewrite <- list_fmap_compose. reflexivity. }
  assert (H5 : bundle_validatorPayment <$> (mempoolBundle <$> M)
               = (fun _ => 0) <$> M).
  { rewrite <- list_fmap_compose. reflexivity. }
  assert (H6 : bundle_mekatekPayment <$> (mempoolBundle <$> M)
               = (fun _ => 0) <$> M).
  { rewrite <- list_fmap_compose. reflexivity. }
  rewrite H1, H2, H3, H4, H5, H6.
  rewrite !fold_add64_zeros by (apply fold_add64_range, H0).
  reflexivity.
Qed.


Lemma sumGas_nonneg (c : Chain) (l : list bytes) :
  Forall (nonnegTx c) l -> 0 <= sumGas c l.
Proof. intros H. apply (sumBytes_nonneg c l H). Qed.

Lemma selectBid_fold_all (c : Chain) (mb mg : Z) (l : list Bid)
    (st : selectState) :
  Forall (sizedTx c) (concat (Txs <$> l)) ->
  Forall (nonnegTx c) (concat (Txs <$> l)) ->
  0 <= totalBytes st -> 0 <= totalGas st ->
  totalBytes st + sumBytes c (concat (Txs <$> l)) <= mb -> mb <= max_int64 ->
  totalGas st + sumGas c (concat (Txs <$> l)) <= mg -> mg <= max_int64 ->
  fold_left (selectBid c mb mg) l st
  = mkSelectState (bundles st ++ (bidBundle <$> l))
      (acceptedBids st ++ (markAccepted <$> l)) (sel_rejectedBids st)
      (totalBytes st + sumBytes c (concat (Txs <$> l)))
      (totalGas st + sumGas c (concat (Txs <$> l))).
Proof.
  revert st. induction l as [|eb l IH]; intros st Hs Hn HB HG Hb Hmb Hg Hmg.
  - simpl. rewrite !app_nil_r. change (sumBytes c []) with 0.
    change (sumGas c []) with 0. rewrite !Z.add_0_r. destruct st; reflexivity.
  - rewrite fmap_cons in Hs, Hn, Hb, Hg. simpl concat in Hs, Hn, Hb, Hg.
    apply Forall_app in Hs as [Hs1 Hs2]. apply Forall_app in Hn as [Hn1 Hn2].
    rewrite sumBytes_app in Hb. rewrite sumGas_app in Hg.
    pose proof (sumBytes_nonneg c _ Hn1) as [Hb1 Hg1].
    pose proof (sumBytes_nonneg c _ Hn2) as [Hb2 Hg2].
    assert (Hsize : bidSize c (Txs eb) = (sumBytes c (Txs eb), sumGas c (Txs eb))).
    { apply bidSize_exact; auto; lia. }
    assert (Hstep : selectBid c mb mg st eb
                    = mkSelectState (bundles st ++ [bidBundle eb])
                        (acceptedBids st ++ [markAccepted eb])
                        (sel_rejectedBids st)
                        (totalBytes st + sumBytes c (Txs eb))
                        (totalGas st + sumGas c (Txs eb))).
    { unfold selectBid. rewrite Hsize.
      rewrite (add64_exact (totalBytes st)), (add64_exact (totalGas st))
        by (auto; lia).
      assert (Hok1 : (totalBytes st + sumBytes c (Txs eb) >? mb) = false).
      { destruct (Z.gtb_spec (totalBytes st + sumBytes c (Txs eb)) mb);
          [lia|reflexivity]. }
      assert (Hok2 : (totalGas st + sumGas c (Txs eb) >? mg) = false).
      { destruct (Z.gtb_spec (totalGas st + sumGas c (Txs eb)) mg);
          [lia|reflexivity]. }
      rewrite Hok1, Hok2. reflexivity. }
    simpl fold_left. rewrite Hstep.
    rewrite IH;
      cbn [bundles acceptedBids sel_rejectedBids totalBytes totalGas];
      auto; try lia.
    rewrite !fmap_cons, <- !app_assoc. cbn [concat app].
    rewrite sumBytes_app, sumGas_app. f_equal; lia.
Qed.

Lemma selectMempoolTx_fold_all (c : Chain) (mb mg : Z) (l : list bytes)
    (st : selectState) :
  Forall (sizedTx c) l -> Forall (nonnegTx c) l ->
  0 <= totalBytes st -> 0 <= totalGas st ->
  totalBytes st + sumBytes c l <= mb -> mb <= max_int64 ->
  totalGas st + sumGas c l <= mg -> mg <= max_int64 ->
  fold_left (selectMempoolTx c mb mg) l st
  = mkSelectState (bundles st ++ (mempoolBundle <$> l))
      (acceptedBids st) (sel_rejectedBids st)
      (totalBytes st + sumBytes c l) (totalGas st + sumGas c l).
Proof.
  revert st. induction l as [|tx l IH]; intros st Hs Hn HB HG Hb Hmb Hg Hmg.
  - simpl. rewrite !app_nil_r. change (sumBytes c []) with 0.
    change (sumGas c []) with 0. rewrite !Z.add_0_r. destruct st; reflexivity.
  - apply Forall_cons in Hs as [[Hs1 Hs1'] Hs2].
    apply Forall_cons in Hn as [[Hn1 Hn1'] Hn2].
    pose proof (sumBytes_nonneg c _ Hn2) as [Hb2 Hg2].
    change (sumBytes c (tx :: l)) with (txBytesOf c tx + sumBytes c l) in *.
    change (sumGas c (tx :: l)) with (txGasOf c tx + sumGas c l) in *.
    assert (Hstep : selectMempoolTx c mb mg st tx
                    = mkSelectState (bundles st ++ [mempoolBundle tx])
                        (acceptedBids st) (sel_rejectedBids st)
                        (totalBytes st + txBytesOf c tx)
                        (totalGas st + txGasOf c tx)).
    { unfold selectMempoolTx, txBytesOf, txGasOf in *.
      destruct (getTxBytes c tx) as [n|]; [|discriminate].
      destruct (getTxGas c tx) as [g|]; [|discriminate].
      rewrite (add64_exact (totalBytes st)), (add64_exact (totalGas st))
        by (auto; lia).
      assert (Hok1 : (totalBytes st + n >? mb) = false).
      { destruct (Z.gtb_spec (totalBytes st + n) mb); [lia|reflexivity]. }
      assert (Hok2 : (totalGas st + g >? mg) = false).
      { destruct (Z.gtb_spec (totalGas st + g) mg); [lia|reflexivity]. }
      rewrite Hok1, Hok2. reflexivity. }
    simpl fold_left. rewrite Hstep.
    rewrite IH;
      cbn [bundles acceptedBids sel_rejectedBids totalBytes totalGas];
      auto; try lia.
    rewrite !fmap_cons, <- !app_assoc. cbn [app]. f_equal; lia.
Qed.

(** X15. What fits is taken whole. When both sizes of every
    transaction can be had and are not negative, and the bytes and the gas of
    all the candidates together are within the limits (a limit of -1 standing
    for the largest [int64]), every winning bid is accepted, the whole
    mempool follows, and the totals are the sums. *)
Theorem selectTransactions_takes_all_that_fits (c : Chain) (winning : list Bid)
    (mempool : list bytes) (maxBytes maxGas : Z) :
  let mb := if maxBytes =? -1 then max_int64 else maxBytes in
  let mg := if maxGas =? -1 then max_int64 else maxGas in
  let all := concat (Txs <$> winning) ++ mempool in
  Forall (sizedTx c) all -> Forall (nonnegTx c) all ->
  sumBytes c all <= mb -> mb <= max_int64 ->
  sumGas c all <= mg -> mg <= max_int64 ->
  let st := selectTransactions c winning mempool maxBytes maxGas in
  blockOf st = all /\
  acceptedBids st = markAccepted <$> winning /\
  sel_rejectedBids st = [] /\
  totalBytes st = sumBytes c all /\ totalGas st = sumGas c all.
Proof.
  intros mb mg all Hs Hn Hb Hmb Hg Hmg. unfold all in *. clear all.
  apply Forall_app in Hs as [Hs1 Hs2]. apply Forall_app in Hn as [Hn1 Hn2].
  rewrite sumBytes_app in Hb. rewrite sumGas_app in Hg.
  pose proof (sumBytes_nonneg c _ Hn1) as [Hb1 Hg1].
  pose proof (sumBytes_nonneg c _ Hn2) as [Hb2 Hg2].
  cbv zeta. unfold selectTransactions. fold mb. fold mg.
  rewrite selectBid_fold_all; simpl; auto; try lia.
  rewrite selectMempoolTx_fold_all; simpl; auto; try lia.
  unfold blockOf. simpl. rewrite fmap_app, concat_app.
  rewrite sumBytes_app, sumGas_app.
  repeat split; try lia.
  f_equal.
  - rewrite <- list_fmap_compose. reflexivity.
  - clear. induction mempool as [|tx M IH]; [reflexivity|].
    rewrite !fmap_cons. simpl. f_equal. exact IH.
Qed.

End Packing.

(** * What the caches remember *)

Section CacheMemo.

Context {K : Type} `{Countable K} {V : Type}.
Variable zeroval : V.

Local Abbreviation condCache := (@condCache K _ _ V).
Local Abbreviation ringCache := (@ringCache K _ _ V).

(** ** condCache: a miss *)

Lemma condCache_get_miss (c : condCache) (key : K) :
  condInv c -> 1 <= limit c -> cache c !! key = None ->
  snd (condCache_get zeroval c key) = (newCondItem zeroval, false) /\
  cache (fst (condCache_get zeroval c key)) !! key = Some (newCondItem zeroval).
Proof.
  intros Hinv Hlim Hmiss.
  split.
  { unfold condCache_get. rewrite Hmiss.
    destruct (seq_poke (limit c) (order c) key). reflexivity. }
  destruct (condCache_get_unfold zeroval c key) as [Hcache _].
  rewrite Hmiss in Hcache. cbv zeta in Hcache. rewrite Hcache.
  rewrite lookup_deleteAll.
  destruct Hinv as (Hnd & Hdom & Hlen).
  assert (Hnin : key ∉ order c).
  { intros Hin. apply Hdom in Hin as [x Hx]. congruence. }
  rewrite (removeFirst_not_in key (order c) Hnin).
  rewrite bool_decide_eq_false_2; [apply lookup_insert_eq|].
  rewrite length_app. simpl.
  rewrite take_app_le by lia.
  intros Hin. apply Hnin. apply elem_of_take in Hin as (i & Hi & _).
  eapply list_elem_of_lookup_2. exact Hi.
Qed.

(** X16. The condCache remembers what [fill] found and forgets a
    failure. For a key that is not cached, in a cache of limit 1 or more,
    [Get] returns what [fill] returns. If [fill] succeeded, the next [Get] of
    the key returns the same without asking its own [fill]; if it failed,
    the key is not cached and the next [Get] asks its [fill] again. *)
Theorem condCache_remembers_success_only (c : condCache) (key : K)
    (fill fill' : K -> V * option error) :
  condInv c -> 1 <= limit c -> cache c !! key = None ->
  let c' := fst (condCache_Get zeroval c key fill) in
  snd (condCache_Get zeroval c key fill) = Some (fill key) /\
  (snd (fill key) = None ->
   snd (condCache_Get zeroval c' key fill') = Some (fill key)) /\
  (is_Some (snd (fill key)) ->
   cache c' !! key = None /\
   snd (condCache_Get zeroval c' key fill') = Some (fill' key)).
Proof.
  intros Hinv Hlim Hmiss. cbv zeta.
  pose proof (condInv_Get zeroval c key fill Hinv) as Hinv'.
  pose proof (limit_condCache_Get zeroval c key fill) as Hlim'.
  destruct (condCache_get_miss c key Hinv Hlim Hmiss) as [Hres Hput].
  pose proof (condInv_get zeroval c key Hinv) as Hinv1.
  pose proof (limit_condCache_get zeroval c key) as Hlim1.
  unfold condCache_Get in *.
  destruct (condCache_get zeroval c key) as [c1 [item valid]].
  simpl in Hres, Hput, Hinv1, Hlim1. injection Hres as -> ->.
  destruct (fill key) as [val [e|]] eqn:Hfill; simpl in *.
  - split; [reflexivity|]. split; [discriminate|]. intros _.
    set (c3 := mkCondCache (limit c1)
                 (alter (fun x => condItem_set x val (Some e)) key
                    (delete key (cache c1)))
                 (seq_drop (order c1) key)) in *.
    assert (Hgone : cache c3 !! key = None).
    { simpl. rewrite lookup_alter_eq, lookup_delete_eq. reflexivity. }
    split; [exact Hgone|].
    assert (Hl3 : 1 <= limit c3) by (simpl; lia).
    destruct (condCache_get_miss c3 key Hinv' Hl3 Hgone) as [Hres3 _].
    destruct (condCache_get zeroval c3 key) as [c4 [item4 valid4]].
    simpl in Hres3. injection Hres3 as -> ->.
    destruct (fill' key) as [val' err']. reflexivity.
  - split; [reflexivity|]. split; [|intros [x Hx]; discriminate]. intros _.
    set (c3 := mkCondCache (limit c1)
                 (alter (fun x => condItem_set x val None) key (cache c1))
                 (order c1)) in *.
    assert (Hhit : cache c3 !! key
                   = Some (condItem_set (newCondItem zeroval) val None)).
    { simpl. rewrite lookup_alter_eq, Hput. reflexivity. }
    pose proof (condCache_get_hit zeroval c3 key _ Hinv' Hhit) as Hget.
    rewrite Hget. reflexivity.
Qed.


(** ** ringCache: a miss *)

Lemma ringCache_Get_miss (c : ringCache) (k : K) (fill : K -> V * option error)
    (old : option (@ringItem K V)) :
  index c !! k = None -> ring c !! head c = Some old ->
  let index1 := match old with
                | Some o => delete (ri_key o) (index c)
                | None => index c
                end in
  let ring2 := <[head c := Some (mkRingItem k (fst (fill k)) (snd (fill k)) true)]>
                 (ring c) in
  let head1 := ((head c + 1) mod length (ring c))%nat in
  ringCache_Get zeroval c k fill
  = Some (match snd (fill k) with
          | None => mkRingCache (<[k := head c]> index1) ring2 head1
          | Some _ => mkRingCache (delete k (<[k := head c]> index1))
                        (<[head c := None]> (ring c)) head1
          end, fill k).
Proof.
  intros Hmiss Hold. cbv zeta.
  unfold ringCache_Get, ringCache_item. rewrite Hmiss, Hold. simpl.
  destruct (fill k) as [v [e|]]; simpl.
  - unfold ringCache_del. simpl. rewrite lookup_insert_eq.
    rewrite !list_insert_insert_eq. reflexivity.
  - rewrite list_insert_insert_eq. reflexivity.
Qed.

(** X17. The ringCache remembers what [fill] found and forgets a
    failure. For a key that is not in the index, [Get] returns what [fill]
    returns. If [fill] succeeded, the next [Get] of the key returns the same
    and changes nothing; if it failed, the key is not in the index and the
    next [Get] asks its [fill] again. *)
Theorem ringCache_remembers_success_only (c : ringCache) (k : K)
    (fill fill' : K -> V * option error) :
  ringInv c -> index c !! k = None ->
  exists c' : ringCache,
    ringCache_Get zeroval c k fill = Some (c', fill k) /\
    (snd (fill k) = None ->
     ringCache_Get zeroval c' k fill' = Some (c', fill k)) /\
    (is_Some (snd (fill k)) ->
     index c' !! k = None /\
     exists c'' : ringCache, ringCache_Get zeroval c' k fill' = Some (c'', fill' k)).
Proof.
  intros Hinv Hmiss.
  destruct (ringInv_Get zeroval c k fill Hinv) as (c' & r & HGet & Hinv' & Hlen').
  pose proof Hinv as [_ Hhead].
  destruct (ring c !! head c) as [old|] eqn:Hold;
    [|apply lookup_ge_None in Hold; lia].
  pose proof (ringCache_Get_miss c k fill old Hmiss Hold) as Hm. cbv zeta in Hm.
  rewrite Hm in HGet. injection HGet as <- <-.
  eexists. split; [exact Hm|].
  destruct (fill k) as [v [e|]] eqn:Hfill; simpl in *.
  - split; [discriminate|]. intros _.
    assert (Hgone : index (mkRingCache
                       (delete k (<[k := head c]>
                          match old with
                          | Some o => delete (ri_key o) (index c)
                          | None => index c
                          end))
                       (<[head c := None]> (ring c))
                       ((head c + 1) mod length (ring c))%nat) !! k = None).
    { simpl. apply lookup_delete_eq. }
    split; [exact Hgone|].
    pose proof Hinv' as [_ Hhead'].
    match goal with
    | |- context [ringCache_Get zeroval ?c1 k fill'] =>
        destruct (ring c1 !! head c1) as [old'|] eqn:Hold';
          [|apply lookup_ge_None in Hold'; lia];
        pose proof (ringCache_Get_miss c1 k fill' old' Hgone Hold') as Hm'
    end.
    cbv zeta in Hm'. eexists. exact Hm'.
  - split; [|intros [x Hx]; discriminate]. intros _.
    apply (ringCache_Get_cached zeroval _ k (head c) (mkRingItem k v None true)).
    + simpl. apply lookup_insert_eq.
    + simpl. apply list_lookup_insert_eq. exact Hhead.
    + reflexivity.
Qed.

(** X18. A fill that fails still costs the oldest entry its place.
    In a ringCache whose slot under the head holds an item, a [Get] of a new
    key whose [fill] fails removes the key of that item from the index and
    leaves the slot empty: the cache holds one entry less and the failed key
    is not in it. *)
Theorem ringCache_failed_fill_evicts (c : ringCache) (k : K)
    (fill : K -> V * option error) (old : @ringItem K V) :
  ringInv c -> index c !! k = None ->
  ring c !! head c = Some (Some old) ->
  index c !! ri_key old = Some (head c) ->
  is_Some (snd (fill k)) ->
  exists c' : ringCache,
    ringCache_Get zeroval c k fill = Some (c', fill k) /\
    index c' = delete (ri_key old) (index c) /\
    ringCache_Len c' = ringCache_Len c - 1 /\
    ring c' !! head c = Some None.
Proof.
  intros Hinv Hmiss Hold Hlive [e He].
  pose proof Hinv as [_ Hhead].
  pose proof (ringCache_Get_miss c k fill (Some old) Hmiss Hold) as Hm.
  cbv zeta in Hm. rewrite He in Hm.
  eexists. split; [exact Hm|]. simpl.
  assert (Hidx : delete k (<[k := head c]> (delete (ri_key old) (index c)))
                 = delete (ri_key old) (index c)).
  { rewrite delete_insert_eq. apply delete_id.
    rewrite lookup_delete_None. right. exact Hmiss. }
  split; [exact Hidx|]. split.
  - unfold ringCache_Len. simpl. rewrite Hidx.
    rewrite map_size_delete, Hlive.
    assert (0 < size (index c))%nat.
    { destruct (decide (size (index c) = 0%nat)) as [Hz|]; [|lia].
      apply map_size_empty_inv in Hz. rewrite Hz, lookup_empty in Hlive.
      discriminate. }
    lia.
  - rewrite list_lookup_insert_eq; [reflexivity|exact Hhead].
Qed.

End CacheMemo.

(** * The cached chain *)

Section CachedChainProperties.

Context {ext : External}.

Lemma genuine_mono (hist hist' : list (Chain * Z))
    (c : @condCache Z _ _ (option ValidatorSet)) :
  hist ⊆ hist' -> genuine hist c -> genuine hist' c.
Proof.
  intros Hsub Hg k item Hk. destruct (Hg k item Hk) as (Hr & He & ch & Hin & Hf).
  repeat split; auto. exists ch. split; [apply Hsub, Hin|exact Hf].
Qed.

Lemma CachedChain_ValidatorSet_step (hist : list (Chain * Z))
    (c : @condCache Z _ _ (option ValidatorSet)) (chain : Chain) (h : Z) :
  condInv c -> 1 <= limit c -> genuine hist c ->
  let c' := fst (CachedChain_ValidatorSet c chain h) in
  condInv c' /\ limit c' = limit c /\ genuine ((chain, h) :: hist) c' /\
  exists v, snd (CachedChain_ValidatorSet c chain h) = Some v /\
    (v = validatorSetFill chain h \/
     (snd v = None /\
      exists chain0, (chain0, h) ∈ hist /\ validatorSetFill chain0 h = v)).
Proof.
  intros Hinv Hlim Hgen. cbv zeta. unfold CachedChain_ValidatorSet.
  split; [apply condInv_Get, Hinv|]. split; [apply limit_condCache_Get|].
  destruct (cache c !! h) as [item|] eqn:Hlook.
  - destruct (Hgen h item Hlook) as (Hready & Herr & ch & Hin & Hf).
    unfold condCache_Get.
    rewrite (condCache_get_hit None c h item Hinv Hlook), Hready. simpl.
    split.
    + intros k it Hk. simpl in Hk.
      destruct (Hgen k it Hk) as (Hr & He & ch' & Hin' & Hf').
      repeat split; auto. exists ch'. split; [right; exact Hin'|exact Hf'].
    + eexists. split; [reflexivity|]. right. rewrite Herr.
      split; [reflexivity|]. exists ch. split; [exact Hin|]. rewrite Hf.
      reflexivity.
  - destruct (condCache_get_miss None c h Hinv Hlim Hlook) as [Hres Hput].
    destruct (condCache_get_unfold None c h) as [Hcache _].
    rewrite Hlook in Hcache. cbv zeta in Hcache.
    unfold condCache_Get.
    destruct (condCache_get None c h) as [c1 [item valid]].
    simpl in Hres, Hput, Hcache. injection Hres as -> ->.
    assert (Hold : forall k it, k <> h -> cache c1 !! k = Some it ->
                     cache c !! k = Some it).
    { intros k it Hne. rewrite Hcache, lookup_deleteAll.
      case_bool_decide; [discriminate|].
      rewrite lookup_insert_ne by congruence. auto. }
    destruct (validatorSetFill chain h) as [val [e|]] eqn:Hfill; simpl.
    + split.
      * intros k it. simpl. destruct (decide (k = h)) as [->|Hne].
        -- rewrite lookup_alter_eq, lookup_delete_eq. discriminate.
        -- rewrite lookup_alter_ne, lookup_delete_ne by congruence. intros Hk.
           destruct (Hgen k it (Hold k it Hne Hk)) as (Hr & He & ch' & Hin' & Hf').
           repeat split; auto. exists ch'. split; [right; exact Hin'|exact Hf'].
      * eexists. split; [reflexivity|]. left. reflexivity.
    + split.
      * intros k it. simpl. destruct (decide (k = h)) as [->|Hne].
        -- rewrite lookup_alter_eq, Hput. simpl. intros [= <-]. simpl.
           repeat split; auto. exists chain. split; [left|exact Hfill].
        -- rewrite lookup_alter_ne by congruence. intros Hk.
           destruct (Hgen k it (Hold k it Hne Hk)) as (Hr & He & ch' & Hin' & Hf').
           repeat split; auto. exists ch'. split; [right; exact Hin'|exact Hf'].
      * eexists. split; [reflexivity|]. left. reflexivity.
Qed.

Lemma CachedChain_run_spec (calls : list (Chain * Z)) (hist : list (Chain * Z))
    (c : @condCache Z _ _ (option ValidatorSet)) :
  condInv c -> 1 <= limit c -> genuine hist c ->
  let c' := fst (CachedChain_run c calls) in
  let answers := snd (CachedChain_run c calls) in
  condInv c' /\ limit c' = limit c /\ length answers = length calls /\
  forall (i : nat) (chain : Chain) (h : Z),
    calls !! i = Some (chain, h) ->
    exists v, answers !! i = Some (Some v) /\
      (v = validatorSetFill chain h \/
       (snd v = None /\
        exists chain0,
          ((chain0, h) ∈ hist \/
           exists j, (j < i)%nat /\ calls !! j = Some (chain0, h)) /\
          validatorSetFill chain0 h = v)).
Proof.
  revert hist c. induction calls as [|[chain h] calls IH]; intros hist c Hinv Hlim Hgen.
  - simpl. split; [exact Hinv|]. split; [reflexivity|]. split; [reflexivity|].
    intros i ? ? Hi. rewrite lookup_nil in Hi. discriminate.
  - cbv zeta. simpl.
    destruct (CachedChain_ValidatorSet_step hist c chain h Hinv Hlim Hgen)
      as (Hinv1 & Hlim1 & Hgen1 & v & Hv & Hsrc).
    destruct (CachedChain_ValidatorSet c chain h) as [c1 r] eqn:Hstep.
    simpl in Hinv1, Hlim1, Hgen1, Hv. subst r.
    assert (Hl1 : 1 <= limit c1) by lia.
    destruct (IH ((chain, h) :: hist) c1 Hinv1 Hl1 Hgen1)
      as (Hinv2 & Hlim2 & Hlen & Hans).
    destruct (CachedChain_run c1 calls) as [c2 rs]. simpl in *.
    split; [exact Hinv2|]. split; [lia|]. split; [lia|].
    intros [|i] chain' h' Hi; simpl in Hi.
    + injection Hi as <- <-. exists v. split; [reflexivity|].
      destruct Hsrc as [Hs|(Hn & ch0 & Hin & Hf)]; [left; exact Hs|].
      right. split; [exact Hn|]. exists ch0. split; [left; exact Hin|exact Hf].
    + destruct (Hans i chain' h' Hi) as (v' & Hv' & Hsrc').
      exists v'. split; [exact Hv'|].
      destruct Hsrc' as [Hs|(Hn & ch0 & Hin & Hf)]; [left; exact Hs|].
      right. split; [exact Hn|]. exists ch0. split; [|exact Hf].
      destruct Hin as [Hin|(j & Hj & Hcj)].
      * apply elem_of_cons in Hin as [[= -> ->]|Hin]; [|left; exact Hin].
        right. exists 0%nat. split; [lia|reflexivity].
      * right. exists (S j). split; [lia|exact Hcj].
Qed.

(** X19. A chain behind the cache of [WithCondCache] answers as the
    chain did. Through any sequence of calls of [ValidatorSet] the cache
    holds at most 100 heights, and each call returns either what the chain
    returns to it, or the answer without error that the chain gave to an
    earlier call for the same height. *)
Theorem CachedChain_answers_as_the_chain_did (calls : list (Chain * Z)) :
  let cache := fst (CachedChain_run WithCondCache calls) in
  let answers := snd (CachedChain_run WithCondCache calls) in
  condCache_Len cache <= 100 /\
  length answers = length calls /\
  forall (i : nat) (chain : Chain) (h : Z),
    calls !! i = Some (chain, h) ->
    exists v, answers !! i = Some (Some v) /\
      (v = validatorSetFill chain h \/
       (snd v = None /\
        exists (j : nat) (chain0 : Chain),
          (j < i)%nat /\ calls !! j = Some (chain0, h) /\
          validatorSetFill chain0 h = v)).
Proof.
  assert (Hinv : condInv WithCondCache) by (apply condInv_new; lia).
  assert (Hgen : genuine [] WithCondCache).
  { intros k item Hk. unfold WithCondCache in Hk. simpl in Hk.
    rewrite lookup_empty in Hk. discriminate. }
  destruct (CachedChain_run_spec calls [] WithCondCache Hinv ltac:(simpl; lia) Hgen)
    as (Hinv' & Hlim & Hlen & Hans).
  cbv zeta in *. split; [|split; [exact Hlen|]].
  - pose proof (condInv_Len _ Hinv') as Hle. rewrite Hlim in Hle. exact Hle.
  - intros i chain h Hi. destruct (Hans i chain h Hi) as (v & Hv & Hsrc).
    exists v. split; [exact Hv|].
    destruct Hsrc as [Hs|(Hn & ch0 & [Hin|(j & Hj & Hcj)] & Hf)];
      [left; exact Hs| |].
    + apply elem_of_nil in Hin. contradiction.
    + right. split; [exact Hn|]. exists j, ch0. auto.
Qed.

End CachedChainProperties.

(** * Round trips through the store *)

Section StoreRoundTrips.
Context {ext : External}.

Lemma updateFirst_other (b : Bid) (now : Time) (os : list Bid) :
  Forall2 (fun o o' => bid_ID o <> bid_ID b -> o = o') os (updateFirst b now os).
Proof.
  induction os as [|o os IH]; simpl; [constructor|].
  case_bool_decide as Hid.
  - constructor; [intros Hne; congruence|].
    apply Forall2_same_length_lookup_2; [reflexivity|].
    intros i x y Hx Hy _. congruence.
  - constructor; [auto|exact IH].
Qed.

Lemma ListBids_UpdateBids_other (s : Store) (bs : list Bid) (now : Time)
    (cid : string) (h : Z) :
  Forall2 (fun o o' => bid_ID o ∉ bid_ID <$> bs -> o = o')
    (ListBids s cid h) (ListBids (UpdateBids s bs now) cid h).
Proof.
  unfold UpdateBids. revert s.
  induction bs as [|b bs IH]; intros s; simpl.
  - apply Forall2_same_length_lookup_2; [reflexivity|].
    intros i x y Hx Hy _. congruence.
  - specialize (IH (set_bids s (alter (updateFirst b now)
                                 (bid_ChainID b, bid_Height b) (bids s)))).
    assert (Hfirst : Forall2 (fun o o' => bid_ID o <> bid_ID b -> o = o')
                       (ListBids s cid h)
                       (ListBids (set_bids s (alter (updateFirst b now)
                                    (bid_ChainID b, bid_Height b) (bids s))) cid h)).
    { unfold ListBids. simpl.
      destruct (decide ((bid_ChainID b, bid_Height b) = (cid, h))) as [Hk|Hk].
      - rewrite Hk, lookup_alter_eq.
        destruct (bids s !! (cid, h)) as [l|]; simpl; [|constructor].
        apply updateFirst_other.
      - rewrite lookup_alter_ne by exact Hk.
        apply Forall2_same_length_lookup_2; [reflexivity|].
        intros i x y Hx Hy _. congruence. }
    revert Hfirst IH.
    generalize (ListBids s cid h).
    generalize (ListBids (set_bids s (alter (updateFirst b now)
                            (bid_ChainID b, bid_Height b) (bids s))) cid h).
    generalize (ListBids (fold_left
         (fun s0 b0 => set_bids s0 (alter (updateFirst b0 now)
                                      (bid_ChainID b0, bid_Height b0) (bids s0)))
         bs (set_bids s (alter (updateFirst b now)
                           (bid_ChainID b, bid_Height b) (bids s)))) cid h).
    intros l3 l2 l1 H12. revert l3.
    induction H12 as [|x y l1 l2 Hxy H12 IH12]; intros l3 H23;
      inversion H23; subst; constructor.
    + intros Hnin. rewrite not_elem_of_cons in Hnin. destruct Hnin as [Hne Hnin].
      assert (Hid : sameBidButState x y -> bid_ID y = bid_ID x)
        by (unfold sameBidButState; intros <-; reflexivity).
      rewrite (Hxy Hne) in *. auto.
    + apply IH12. assumption.
Qed.

(** X20. [InsertBid] puts the bid, with its new identifier and its
    time, at the end of the bids of its chain and height and leaves the
    other lists alone; when no identifier can be generated it changes
    nothing. [UpdateBids] keeps the number and the order of the stored bids
    and changes only the state and the time of update, and only of bids
    whose identifier is among those given. *)
Theorem bids_are_kept_as_placed (s : Store) (cid : string) (h : Z) :
  (forall (b : Bid) (id : UUID) (now : Time),
     ListBids (fst (InsertBid s b (Ok id) now)) cid h
     = if bool_decide ((cid, h) = (bid_ChainID b, bid_Height b))
       then ListBids s cid h ++ [bid_set_ID_CreatedAt b id now]
       else ListBids s cid h) /\
  (forall (b : Bid) (e : error) (now : Time),
     InsertBid s b (Err e) now = (s, Err (Wrapf "generate bid ID" e))) /\
  (forall (bs : list Bid) (now : Time),
     Forall2 (fun o o' => sameBidButState o o' /\
                          (bid_ID o ∉ bid_ID <$> bs -> o = o'))
       (ListBids s cid h) (ListBids (UpdateBids s bs now) cid h)).
Proof.
  split; [intros; apply ListBids_InsertBid|]. split; [reflexivity|].
  intros bs now.
  pose proof (ListBids_UpdateBids s bs now cid h) as H1.
  pose proof (ListBids_UpdateBids_other s bs now cid h) as H2.
  revert H1 H2. generalize (ListBids s cid h) (ListBids (UpdateBids s bs now) cid h).
  intros l1 l2 H1. induction H1; intros H2; inversion H2; subst; constructor; auto.
Qed.

(** X21. The life of a challenge in the store. An inserted challenge
    is read back under the text of its identifier, as stored; it is deleted
    once, after which reading and deleting it both report ErrNotFound. The
    other challenges and the other tables are as they were. *)
Theorem challenge_life_cycle (s : Store) (c : Challenge) (id : UUID) (now : Time) :
  let key := UUID_String id in
  let stored := challenge_set_ID_CreatedAt c id now in
  let s1 := fst (InsertChallenge s c (Ok id) now) in
  let s2 := fst (DeleteChallenge s1 key) in
  snd (InsertChallenge s c (Ok id) now) = Ok stored /\
  SelectChallenge s1 key = Ok stored /\
  snd (DeleteChallenge s1 key) = None /\
  SelectChallenge s2 key = Err (Sentinel ErrNotFound) /\
  DeleteChallenge s2 key = (s2, Some (Sentinel ErrNotFound)) /\
  (forall k, k <> key ->
     SelectChallenge s1 k = SelectChallenge s k /\
     SelectChallenge s2 k = SelectChallenge s k) /\
  bids s2 = bids s /\ auctions s2 = auctions s /\
  validators s2 = validators s /\ chains s2 = chains s.
Proof.
  cbv zeta. unfold InsertChallenge, DeleteChallenge, SelectChallenge. simpl.
  rewrite lookup_insert_eq. simpl. rewrite lookup_delete_eq.
  repeat split; auto.
  - rewrite lookup_insert_ne by congruence. reflexivity.
  - rewrite lookup_delete_ne, lookup_insert_ne by congruence. reflexivity.
Qed.


Lemma elem_of_ListChains (s : Store) (sc : StoreChain) :
  sc ∈ ListChains s <-> exists k, chains s !! k = Some sc.
Proof.
  unfold ListChains, ListChainsIn.
  rewrite (SliceStable_Permutation _ _), list_elem_of_fmap. split.
  - intros ([k x] & -> & Hin). exists k. apply elem_of_map_to_list in Hin.
    exact Hin.
  - intros (k & Hk). exists (k, sc). split; [reflexivity|].
    apply elem_of_map_to_list. exact Hk.
Qed.

(** X22. In a store whose rows are filed under their own keys,
    [ListChains] gives the same list whatever the order in which the loop
    meets the rows of the map; the list holds exactly the chains that
    [SelectChain] finds, and their identifiers increase strictly. *)
Theorem ListChains_sorted_complete (s : Store) (ranged : list StoreChain) :
  rowsKeyed s ->
  ranged ≡ₚ snd <$> map_to_list (chains s) ->
  ListChainsIn ranged = ListChains s /\
  (forall sc, sc ∈ ListChains s <-> SelectChain s (sc_ID sc) = Ok sc) /\
  StronglySorted (fun c1 c2 => String.ltb (sc_ID c1) (sc_ID c2) = true)
    (ListChains s).
Proof.
  intros (_ & _ & _ & _ & Hkeyed) Hperm.
  pose proof (keyed_values_NoDup (chains s) sc_ID Hkeyed) as Hnd.
  split; [|split].
  - unfold ListChains, ListChainsIn.
    apply (SliceStable_by_key_unique sc_ID); [rewrite Hperm; exact Hnd|exact Hperm].
  - intros sc. rewrite elem_of_ListChains. unfold SelectChain. split.
    + intros (k & Hk). rewrite (Hkeyed _ _ Hk), Hk. reflexivity.
    + destruct (chains s !! sc_ID sc) as [x|] eqn:Hx; [|discriminate].
      intros [= ->]. eauto.
  - apply (SliceStable_by_key_sorted sc_ID). exact Hnd.
Qed.

(** X23. An upserted chain is the row that is read back, with the
    time of the call as [UpdatedAt]; [CreatedAt] is that time when the chain
    is new, and the value of the caller, not the stored one, when the chain
    was there. The other chains are as they were, and [ListChains] lists the
    new row and the other rows. *)
Theorem UpsertChain_then_SelectChain (s : Store) (c : StoreChain) (now : Time) :
  let s' := UpsertChain s c now in
  SelectChain s' (sc_ID c)
  = Ok (mkStoreChain (sc_ID c) (sc_Network c) (sc_PaymentDenom c)
          (sc_MekatekPaymentAddress c)
          (match SelectChain s (sc_ID c) with
           | Ok _ => sc_CreatedAt c
           | Err _ => now
           end) now) /\
  (forall id, id <> sc_ID c -> SelectChain s' id = SelectChain s id) /\
  (forall sc, sc ∈ ListChains s' <->
              SelectChain s' (sc_ID c) = Ok sc \/
              (sc ∈ ListChains s /\ exists k, k <> sc_ID c /\ chains s !! k = Some sc)).
Proof.
  cbv zeta. unfold UpsertChain, SelectChain.
  destruct (chains s !! sc_ID c) as [existing|] eqn:Hex; simpl;
    rewrite lookup_insert_eq.
  all: split; [reflexivity|].
  all: split; [intros id Hne; rewrite lookup_insert_ne by congruence; reflexivity|].
  all: intros sc; rewrite !elem_of_ListChains; simpl; split.
  all: try (intros (k & Hk); destruct (decide (sc_ID c = k)) as [<-|Hne];
            [rewrite lookup_insert_eq in Hk; left; congruence
            |rewrite lookup_insert_ne in Hk by exact Hne; right; eauto 6]).
  all: intros [[= <-]|(_ & k & Hne & Hk)];
    [exists (sc_ID c); apply lookup_insert_eq
    |exists k; rewrite lookup_insert_ne by congruence; exact Hk].
Qed.

End StoreRoundTrips.

(** * The service manager *)

Section ManagerProperties.
Context {ext : External}.

Lemma convertAllowed_Ok (fs : managerFuncs) (l : list StoreChain)
    (ccs : list Chain) :
  convertAllowed fs l = Ok ccs ->
  forall cc, cc ∈ ccs <->
             exists sc, sc ∈ l /\ allow fs sc = true /\ convert fs sc = Ok cc.
Proof.
  revert ccs. induction l as [|sc l IH]; intros ccs; simpl.
  - intros [= <-] cc. split.
    + intros Hin. apply elem_of_nil in Hin. contradiction.
    + intros (sc & Hin & _). apply elem_of_nil in Hin. contradiction.
  - destruct (allow fs sc) eqn:Hallow; simpl.
    + destruct (convert fs sc) as [cc0|e] eqn:Hconv; [|discriminate].
      destruct (convertAllowed fs l) as [rest|e]; [|discriminate].
      intros [= <-] cc. rewrite elem_of_cons, (IH rest eq_refl cc). split.
      * intros [->|(sc' & Hin & Ha & Hc)].
        -- exists sc. split; [left|]; auto.
        -- exists sc'. split; [right|]; auto.
      * intros (sc' & Hin & Ha & Hc).
        apply elem_of_cons in Hin as [->|Hin]; [left; congruence|].
        right. exists sc'. auto.
    + intros Hrest cc. rewrite (IH ccs Hrest cc). split.
      * intros (sc' & Hin & Ha & Hc). exists sc'. split; [right|]; auto.
      * intros (sc' & Hin & Ha & Hc).
        apply elem_of_cons in Hin as [->|Hin]; [congruence|].
        exists sc'. auto.
Qed.

Lemma nextgen_fold_lookup (fs : managerFuncs) (ccs : list Chain)
    (acc : gmap string Service) (id : string) :
  (forall sv,
     fold_left (fun nextgen cc => <[ID cc := create fs cc]> nextgen) ccs acc
     !! id = Some sv ->
     acc !! id = Some sv \/
     exists cc, cc ∈ ccs /\ ID cc = id /\ sv = create fs cc) /\
  ((is_Some (acc !! id) \/ exists cc, cc ∈ ccs /\ ID cc = id) ->
   is_Some (fold_left (fun nextgen cc => <[ID cc := create fs cc]> nextgen)
              ccs acc !! id)).
Proof.
  revert acc. induction ccs as [|cc ccs IH]; intros acc; simpl.
  - split; [auto|]. intros [Hs|(cc & Hin & _)]; [exact Hs|].
    apply elem_of_nil in Hin. contradiction.
  - destruct (IH (<[ID cc := create fs cc]> acc)) as [IH1 IH2]. split.
    + intros sv Hsv. destruct (IH1 sv Hsv) as [Hacc|(cc' & Hin & Hid & Hcr)].
      * destruct (decide (ID cc = id)) as [Heq|Hne].
        -- rewrite Heq, lookup_insert_eq in Hacc. injection Hacc as <-.
           right. exists cc. split; [left|]; auto.
        -- rewrite lookup_insert_ne in Hacc by exact Hne. left. exact Hacc.
      * right. exists cc'. split; [right|]; auto.
    + intros Hor. apply IH2.
      destruct (decide (ID cc = id)) as [Heq|Hne].
      * left. rewrite Heq, lookup_insert_eq. eauto.
      * rewrite lookup_insert_ne by exact Hne.
        destruct Hor as [Hs|(cc' & Hin & Hid)]; [left; exact Hs|].
        apply elem_of_cons in Hin as [->|Hin]; [congruence|].
        right. exists cc'. auto.
Qed.

(** X24. After a [Refresh] that succeeds the manager serves the
    chains that the store lists, the manager allows and [convert] accepts,
    each with the service created from its converted chain, and no other. A
    [Refresh] that fails leaves the manager as it was, and that of a static
    manager always fails. *)
Theorem Refresh_manages_what_the_store_lists (m : ServiceManager) (s : Store) :
  let m' := fst (Refresh m s) in
  (snd (Refresh m s) = None ->
   exists fs, sm_store m = Some fs /\ sm_store m' = Some fs /\
     forall id : string,
       (forall sv, GetService m' id = Some sv ->
          exists sc cc, sc ∈ ListChains s /\ allow fs sc = true /\
                        convert fs sc = Ok cc /\ ID cc = id /\
                        sv = create fs cc) /\
       (forall sc cc, sc ∈ ListChains s -> allow fs sc = true ->
          convert fs sc = Ok cc -> ID cc = id ->
          is_Some (GetService m' id))) /\
  (is_Some (snd (Refresh m s)) -> m' = m) /\
  (sm_store m = None -> is_Some (snd (Refresh m s))).
Proof.
  cbv zeta. unfold Refresh.
  destruct (sm_store m) as [fs|] eqn:Hfs; simpl;
    [|split; [discriminate|split; [reflexivity|eauto]]].
  destruct (convertAllowed fs (ListChains s)) as [ccs|e] eqn:Hconv; simpl;
    [|split; [discriminate|split; [reflexivity|discriminate]]].
  split; [|split; [intros [x Hx]; discriminate|discriminate]].
  intros _. exists fs. split; [reflexivity|]. split; [reflexivity|].
  intros id. unfold GetService, nextgen. simpl.
  destruct (nextgen_fold_lookup fs ccs ∅ id) as [H1 H2]. split.
  - intros sv Hsv. destruct (H1 sv Hsv) as [He|(cc & Hin & Hid & Hcr)].
    + rewrite lookup_empty in He. discriminate.
    + apply (convertAllowed_Ok _ _ _ Hconv) in Hin as (sc & Hsc & Ha & Hc).
      exists sc, cc. auto 6.
  - intros sc cc Hsc Ha Hc Hid. apply H2. right. exists cc. split; [|exact Hid].
    apply (convertAllowed_Ok _ _ _ Hconv). exists sc. auto.
Qed.

End ManagerProperties.

(** * The handlers *)

Section ApiProperties.
Context {ext : External}.

Lemma yield_addIf_true (m : multiError) (err : error) :
  is_Some (yield (addIf m true err)).
Proof.
  unfold addIf, yield. destruct (default [] m ++ [err]) eqn:He; [|eauto].
  apply app_eq_nil in He as [_ He]. discriminate.
Qed.

Lemma yield_addIf_keep (m : multiError) (b : bool) (err : error) :
  is_Some (yield m) -> is_Some (yield (addIf m b err)).
Proof.
  intros [errs Hm]. destruct b; [apply yield_addIf_true|]. simpl. eauto.
Qed.

Lemma bidRequest_validate_bad (req : bidRequest) :
  br_ChainID req = ""%string \/ br_Height req <= 0 ->
  is_Some (bidRequest_validate req).
Proof.
  unfold bidRequest_validate. intros [Hc|Hh].
  - apply yield_addIf_keep. rewrite bool_decide_eq_true_2 by exact Hc.
    apply yield_addIf_true.
  - apply Z.leb_le in Hh. rewrite Hh. apply yield_addIf_true.
Qed.

Lemma auctionRequest_validate_bad (req : auctionRequest) :
  ar_ChainID req = ""%string \/ ar_Height req <= 0 ->
  is_Some (auctionRequest_validate req).
Proof.
  unfold auctionRequest_validate. intros [Hc|Hh].
  - apply yield_addIf_keep. rewrite bool_decide_eq_true_2 by exact Hc.
    apply yield_addIf_true.
  - apply Z.leb_le in Hh. rewrite Hh. apply yield_addIf_true.
Qed.

Lemma validateBuildBlockRequest_bad (req : BuildBlockRequest) :
  bb_ChainID req = ""%string \/ bb_Height req <= 0 \/
  bb_Signature req = [] \/ bb_ValidatorAddress req = ""%string ->
  is_Some (validateBuildBlockRequest req).
Proof.
  unfold validateBuildBlockRequest. intros [Hc|[Hh|[Hs|Hv]]].
  - do 3 apply yield_addIf_keep. rewrite bool_decide_eq_true_2 by exact Hc.
    apply yield_addIf_true.
  - do 2 apply yield_addIf_keep. apply Z.leb_le in Hh. rewrite Hh.
    apply yield_addIf_true.
  - apply yield_addIf_keep. rewrite Hs. simpl. apply yield_addIf_true.
  - rewrite (bool_decide_eq_true_2 _ Hv). apply yield_addIf_true.
Qed.

(** X25. A decoded request to the auction, bid or build handlers
    that names no chain or a height that is not positive (for a build also:
    no signature or no validator address), or a chain that the manager does
    not serve, is answered with status 400 as a true error, and the store
    is as it was. *)
Theorem handlers_turn_bad_requests_away (manager : ServiceManager) (s : Store)
    (now : Time) (newV4 : result UUID) :
  (forall req : auctionRequest,
     ar_ChainID req = ""%string \/ ar_Height req <= 0 \/
     GetService manager (ar_ChainID req) = None ->
     exists err, handleGetAuctionV0 manager (Ok req) now s
                 = (s, respondedError StatusBadRequest true err)) /\
  (forall req : bidRequest,
     br_ChainID req = ""%string \/ br_Height req <= 0 \/
     GetService manager (br_ChainID req) = None ->
     exists err, handlePostBidV0 manager (Ok req) newV4 now s
                 = (s, respondedError StatusBadRequest true err)) /\
  (forall req : BuildBlockRequest,
     bb_ChainID req = ""%string \/ bb_Height req <= 0 \/
     bb_Signature req = [] \/ bb_ValidatorAddress req = ""%string \/
     GetService manager (bb_ChainID req) = None ->
     exists err err1,
       handlePostBuildV0 manager (Ok req) now s
       = (s, respondedError StatusBadRequest true err) /\
       handlePostBuildV1 manager (Ok req) now s
       = (s, respondedError StatusBadRequest true err1)).
Proof.
  split; [|split].
  - intros req Hbad. unfold handleGetAuctionV0, parseAuctionRequest.
    destruct (auctionRequest_validate req) as [errs|] eqn:Hv.
    + eexists. reflexivity.
    + destruct Hbad as [Hc|[Hh|Hg]].
      * destruct (auctionRequest_validate_bad req (or_introl Hc)) as [x Hx].
        congruence.
      * destruct (auctionRequest_validate_bad req (or_intror Hh)) as [x Hx].
        congruence.
      * rewrite Hg. eexists. reflexivity.
  - intros req Hbad. unfold handlePostBidV0.
    destruct (bidRequest_validate req) as [errs|] eqn:Hv.
    + eexists. reflexivity.
    + destruct Hbad as [Hc|[Hh|Hg]].
      * destruct (bidRequest_validate_bad req (or_introl Hc)) as [x Hx].
        congruence.
      * destruct (bidRequest_validate_bad req (or_intror Hh)) as [x Hx].
        congruence.
      * rewrite Hg. eexists. reflexivity.
  - intros req Hbad. unfold handlePostBuildV0, handlePostBuildV1.
    destruct (validateBuildBlockRequest req) as [errs|] eqn:Hv.
    + eexists _, _. split; reflexivity.
    + assert (Hg : GetService manager (bb_ChainID req) = None).
      { destruct Hbad as [Hc|[Hh|[Hs|[Hva|Hg]]]]; [| | | |exact Hg].
        all: exfalso.
        all: match goal with
             | H : _ |- _ =>
                 first
                   [ destruct (validateBuildBlockRequest_bad req (or_introl H))
                       as [x Hx]
                   | destruct (validateBuildBlockRequest_bad req
                                 (or_intror (or_introl H))) as [x Hx]
                   | destruct (validateBuildBlockRequest_bad req
                                 (or_intror (or_intror (or_introl H)))) as [x Hx]
                   | destruct (validateBuildBlockRequest_bad req
                                 (or_intror (or_intror (or_intror H)))) as [x Hx] ];
                 congruence
             end. }
      rewrite Hg. eexists _, _. split; reflexivity.
Qed.

Lemma validate_good_auction (id : string) (h : Z) :
  id <> ""%string -> 0 < h ->
  auctionRequest_validate (mkAuctionRequest id h) = None.
Proof.
  intros Hid Hh. unfold auctionRequest_validate. simpl.
  rewrite bool_decide_eq_false_2 by exact Hid.
  destruct (Z.leb_spec h 0); [lia|reflexivity].
Qed.

Lemma validate_good_bid (id : string) (h : Z) (kind : string)
    (txbs : list bytes) :
  id <> ""%string -> 0 < h ->
  bidRequest_validate (mkBidRequest id h kind txbs) = None.
Proof.
  intros Hid Hh. unfold bidRequest_validate. simpl.
  rewrite bool_decide_eq_false_2 by exact Hid.
  destruct (Z.leb_spec h 0); [lia|reflexivity].
Qed.

Lemma validate_good_build (id : string) (h : Z) (validatorAddr : string)
    (maxBytes maxGas : Z) (mempool : list bytes) (signature : bytes) :
  id <> ""%string -> 0 < h -> validatorAddr <> ""%string -> signature <> [] ->
  validateBuildBlockRequest
    (mkBuildBlockRequest id h validatorAddr maxBytes maxGas mempool signature)
  = None.
Proof.
  intros Hid Hh Hv Hs. unfold validateBuildBlockRequest. simpl.
  rewrite bool_decide_eq_false_2 by exact Hid.
  rewrite bool_decide_eq_false_2 by exact Hv.
  destruct (Z.leb_spec h 0); [lia|].
  destruct signature; [congruence|]. reflexivity.
Qed.

(** X26. With the chain served by its core service and answering
    with latest height [L]: a well-formed request for a height below [L] is
    answered 410 Gone by all four handlers; one for a height above [L + 10]
    is answered 425 Too Early by the auction and bid handlers, one above
    [L + 2] by both build handlers. None counts as a true error, and the
    store is as it was. *)
Theorem handlers_answer_out_of_window_requests (manager : ServiceManager)
    (c : Chain) (s : Store) (L h : Z) (now : Time) (kind : string)
    (txbs : list bytes) (newV4 : result UUID) (validatorAddr : string)
    (maxBytes maxGas : Z) (mempool : list bytes) (signature : bytes) :
  GetService manager (ID c) = Some (NewCoreService c) ->
  chainReady c s L -> in_int64 L -> in_int64 h ->
  ID c <> ""%string -> 0 < h -> validatorAddr <> ""%string -> signature <> [] ->
  let auction :=
    handleGetAuctionV0 manager (Ok (mkAuctionRequest (ID c) h)) now s in
  let bid :=
    handlePostBidV0 manager (Ok (mkBidRequest (ID c) h kind txbs)) newV4 now s in
  let req :=
    mkBuildBlockRequest (ID c) h validatorAddr maxBytes maxGas mempool signature in
  let build := handlePostBuildV0 manager (Ok req) now s in
  let buildV1 := handlePostBuildV1 manager (Ok req) now s in
  (h < L ->
     (exists e, auction = (s, respondedError StatusGone false e)) /\
     (exists e, bid = (s, respondedError StatusGone false e)) /\
     (exists e, build = (s, respondedError StatusGone false e)) /\
     (exists e, buildV1 = (s, respondedError StatusGone false e))) /\
  (h > L + 10 ->
     (exists e, auction = (s, respondedError StatusTooEarly false e)) /\
     (exists e, bid = (s, respondedError StatusTooEarly false e))) /\
  (h > L + 2 ->
     (exists e, build = (s, respondedError StatusTooEarly false e)) /\
     (exists e, buildV1 = (s, respondedError StatusTooEarly false e))).
Proof.
  intros Hsv Hready HL Hh Hid Hpos Hva Hsig. cbv zeta.
  unfold handleGetAuctionV0, handlePostBidV0, handlePostBuildV0,
    handlePostBuildV1, parseAuctionRequest.
  rewrite (validate_good_auction _ _ Hid Hpos),
    (validate_good_bid _ _ kind txbs Hid Hpos),
    (validate_good_build _ _ _ maxBytes maxGas mempool _ Hid Hpos Hva Hsig).
  cbn [ar_ChainID ar_Height br_ChainID br_Height br_Kind br_Txs bb_ChainID
       bb_Height bb_ValidatorAddress bb_MaxBytes bb_MaxGas bb_Txs bb_Signature].
  rewrite Hsv.
  cbn [NewCoreService svc_Auction svc_Bid svc_Build svc_BuildV1].
  split; [|split].
  - intros Hlt.
    pose proof (checkHeightWindow_too_old (ID c) L 10 h Hlt) as H10.
    pose proof (checkHeightWindow_too_old (ID c) L 2 h Hlt) as H2.
    rewrite (ServiceAuction_verify_error _ _ _ _ _ _
               (verifyAuction_window_error _ _ _ _ _ now _ Hready H10)).
    rewrite (ServiceBid_verify_error _ _ _ _ kind txbs newV4 _ _
               (verifyAuction_window_error _ _ _ _ _ now _ Hready H10)).
    rewrite (ServiceBuild_verify_error _ _ _ _ validatorAddr maxBytes maxGas
               mempool signature _ _
               (verifyAuction_window_error _ _ _ _ _ now _ Hready H2)).
    rewrite (ServiceBuildV1_window_error _ _ _ _ validatorAddr maxBytes maxGas
               mempool signature now _ Hready H2).
    repeat split; eexists; reflexivity.
  - intros Hgt.
    assert (H10 : checkHeightWindow (ID c) L 10 h
                  = Some (Wrapf (ID c) (Sentinel ErrAuctionTooNew)))
      by (apply checkHeightWindow_too_new; try assumption; lia).
    rewrite (ServiceAuction_verify_error _ _ _ _ _ _
               (verifyAuction_window_error _ _ _ _ _ now _ Hready H10)).
    rewrite (ServiceBid_verify_error _ _ _ _ kind txbs newV4 _ _
               (verifyAuction_window_error _ _ _ _ _ now _ Hready H10)).
    split; eexists; reflexivity.
  - intros Hgt.
    assert (H2 : checkHeightWindow (ID c) L 2 h
                 = Some (Wrapf (ID c) (Sentinel ErrAuctionTooNew)))
      by (apply checkHeightWindow_too_new; try assumption; lia).
    rewrite (ServiceBuild_verify_error _ _ _ _ validatorAddr maxBytes maxGas
               mempool signature _ _
               (verifyAuction_window_error _ _ _ _ _ now _ Hready H2)).
    rewrite (ServiceBuildV1_window_error _ _ _ _ validatorAddr maxBytes maxGas
               mempool signature now _ Hready H2).
    split; eexists; reflexivity.
Qed.

End ApiProperties.

(** * The media type of a request *)

Section MediaType.

Variable mime_ParseMediaType : string -> result string.

Lemma find_index_None (slice l : list string) :
  find (fun mediaType : string =>
          bool_decide (mediaType ∈ (list_to_set slice : gset string))) l = None ->
  forall t, t ∈ l -> t ∉ slice.
Proof.
  induction l as [|x l IH]; simpl; intros Hf t Ht.
  - inversion Ht.
  - destruct (bool_decide_reflect (x ∈ (list_to_set slice : gset string)))
      as [Hx|Hx]; [discriminate|].
    apply elem_of_cons in Ht as [->|Ht].
    + intros Hin. apply Hx. apply elem_of_list_to_set. exact Hin.
    + apply IH; assumption.
Qed.

Lemma find_index_Some (slice l : list string) (t : string) :
  find (fun mediaType : string =>
          bool_decide (mediaType ∈ (list_to_set slice : gset string))) l = Some t ->
  exists l1 l2, l = l1 ++ t :: l2 /\ t ∈ slice /\ forall u, u ∈ l1 -> u ∉ slice.
Proof.
  induction l as [|x l IH]; simpl; intros Hf; [discriminate|].
  destruct (bool_decide_reflect (x ∈ (list_to_set slice : gset string)))
    as [Hx|Hx].
  - injection Hf as ->. exists [], l. split; [reflexivity|]. split.
    + apply elem_of_list_to_set in Hx. exact Hx.
    + intros u Hu. inversion Hu.
  - destruct (IH Hf) as (l1 & l2 & -> & Ht & Hl1).
    exists (x :: l1), l2. split; [reflexivity|]. split; [exact Ht|].
    intros u Hu. apply elem_of_cons in Hu as [->|Hu]; [|auto].
    intros Hin. apply Hx. apply elem_of_list_to_set. exact Hin.
Qed.

(** X27. The media type chosen for a request. Without a header value
    it is the empty string. With header values the function panics exactly
    when none of them parses; otherwise it returns one of the types they
    parse to: the first of the prioritized types that is among them, or the
    first of them when none of the prioritized is. *)
Theorem getBestMediaType_picks_by_priority
    (inputValues prioritizedValues : list string) :
  let best := getBestMediaType mime_ParseMediaType inputValues prioritizedValues in
  let have := parsedTypes mime_ParseMediaType inputValues in
  let want := parsedTypes mime_ParseMediaType prioritizedValues in
  (inputValues = [] -> best = Some ""%string) /\
  (inputValues <> [] ->
     (best = None <-> have = []) /\
     (forall t, best = Some t ->
        t ∈ have /\
        ((exists w1 w2, want = w1 ++ t :: w2 /\ forall u, u ∈ w1 -> u ∉ have) \/
         (have !! 0%nat = Some t /\ forall u, u ∈ want -> u ∉ have)))).
Proof.
  cbv zeta. unfold getBestMediaType. split.
  - intros ->. reflexivity.
  - intros Hne.
    destruct (Z.leb_spec (Z.of_nat (length inputValues)) 0) as [Hlen|_].
    { destruct inputValues; [congruence|simpl in Hlen; lia]. }
    set (have := parsedTypes mime_ParseMediaType inputValues).
    set (want := parsedTypes mime_ParseMediaType prioritizedValues).
    destruct (find _ want) as [t0|] eqn:Hf.
    + apply find_index_Some in Hf as (w1 & w2 & Hw & Ht0 & Hw1). split.
      * split; [discriminate|]. intros Hnil. rewrite Hnil in Ht0.
        inversion Ht0.
      * intros t [= <-]. split; [exact Ht0|]. left. eauto.
    + pose proof (find_index_None _ _ Hf) as Hnone. split.
      * destruct have; simpl; split; congruence.
      * intros t Ht. split; [eapply list_elem_of_lookup_2; exact Ht|].
        right. split; [exact Ht|exact Hnone].
Qed.

End MediaType.

(** * The register handler *)

Section RegisterHandler.
Context {ext : External}.

Lemma validate_good_register (req : registerRequest) :
  rr_ChallengeID req <> ""%string -> rr_Signature req <> [] ->
  registerRequest_validate req = None /\
  isApplyRequest req = false /\ isRegisterRequest req = true.
Proof.
  intros Hid Hsig. unfold registerRequest_validate, isRegisterRequest, isApplyRequest.
  rewrite bool_decide_eq_false_2 by exact Hid. simpl.
  destruct (rr_Signature req); [congruence|]. auto.
Qed.

(** X28. A register request names no chain, and the handler finds
    it through the challenge in the store. An unknown challenge is answered
    404 and the challenge of a chain that is not served 400, the store as it
    was. With the chain served by its core service and answering, the
    challenge filed under its identifier and a signature that verifies, the
    answer is success, the validator is stored with the payment address of
    the challenge, and the challenge is gone. *)
Theorem register_request_finds_its_chain (manager : ServiceManager)
    (req : registerRequest) (random32 : bytes) (newV4 : result UUID)
    (now : Time) (s : Store) :
  rr_ChainID req = ""%string -> rr_ChallengeID req <> ""%string ->
  rr_Signature req <> [] ->
  let answer := handlePostRegisterV0 manager (Ok req) random32 newV4 now s in
  (challenges s !! rr_ChallengeID req = None ->
   answer = (s, respondedError StatusNotFound true
                  (Wrapf "look up challenge" (Sentinel ErrNotFound)))) /\
  (forall ch, challenges s !! rr_ChallengeID req = Some ch ->
     GetService manager (ch_ChainID ch) = None ->
     answer = (s, respondedError StatusBadRequest true
                    (Wrapf (ch_ChainID ch) ErrUnknownChainID))) /\
  (forall ch c L vs cv,
     challenges s !! rr_ChallengeID req = Some ch ->
     UUID_String (ch_ID ch) = rr_ChallengeID req ->
     GetService manager (ch_ChainID ch) = Some (NewCoreService c) ->
     LatestHeight c = Ok L -> GetValidatorSet c L = Ok vs ->
     vs_Set vs !! ch_ValidatorAddress ch = Some cv ->
     VerifySignature c (ch_PubKeyType ch) (ch_PubKeyBytes ch)
       (mekabuild_RegisterChallengeSignBytes (ch_ChainID ch) (ch_Challenge ch))
       (rr_Signature req) = None ->
     snd answer = respondOK (mkRegisterResponse "" [] "success") /\
     (exists stored,
        SelectValidator (fst answer) (ch_ChainID ch) (ch_ValidatorAddress ch)
        = Ok stored /\
        val_PaymentAddress stored = ch_PaymentAddress ch) /\
     SelectChallenge (fst answer) (rr_ChallengeID req)
     = Err (Sentinel ErrNotFound)).
Proof.
  intros Hcid Hid Hsig. cbv zeta.
  destruct (validate_good_register req Hid Hsig) as (Hv & Happly & Hreg).
  assert (Hans : handlePostRegisterV0 manager (Ok req) random32 newV4 now s
    = match challenges s !! rr_ChallengeID req with
      | None => (s, respondedError StatusNotFound true
                      (Wrapf "look up challenge" (Sentinel ErrNotFound)))
      | Some ch =>
          match GetService manager (ch_ChainID ch) with
          | None => (s, respondedError StatusBadRequest true
                          (Wrapf (ch_ChainID ch) ErrUnknownChainID))
          | Some sv =>
              match svc_Register sv (rr_ChallengeID req) (rr_Signature req)
                      now s with
              | (s', Err err) =>
                  (s', respondError (Wrapf "register" err)
                         StatusInternalServerError)
              | (s', Ok _) =>
                  (s', respondOK (mkRegisterResponse "" [] "success"))
              end
          end
      end).
  { unfold handlePostRegisterV0. rewrite Hv, Hreg, Happly.
    rewrite (bool_decide_eq_true_2 _ Hcid). cbn [andb].
    unfold SelectChallenge.
    destruct (challenges s !! rr_ChallengeID req) as [ch|]; [|reflexivity].
    destruct (GetService manager (ch_ChainID ch)); reflexivity. }
  rewrite Hans. clear Hans.
  split; [|split].
  - intros Hnone. rewrite Hnone. reflexivity.
  - intros ch Hch Hg. rewrite Hch, Hg. reflexivity.
  - intros ch c L vs cv Hch Hkey Hg HL Hvs Hcv Hver.
    rewrite Hch, Hg. cbn [NewCoreService svc_Register].
    rewrite (ServiceRegister_unfold _ _ _ _ _ _ _ _ HL Hvs Hch).
    pose proof (registerTx_cases c vs ch (rr_Signature req) now s) as Hr.
    cbv zeta in Hr. rewrite Hver, Hcv in Hr. rewrite Hr. cbn [fst snd].
    split; [reflexivity|]. split.
    + match goal with
      | |- context [UpsertValidator s ?v now] =>
          destruct (UpsertValidator_lookup s v now) as (stored & Hst & Hpay & _)
      end.
      cbn [val_ChainID val_Address val_PaymentAddress] in Hst, Hpay.
      exists stored. unfold SelectValidator.
      rewrite validators_DeleteChallenge, Hst. auto.
    + rewrite Hkey. unfold SelectChallenge, DeleteChallenge.
      match goal with
      | |- context [challenges (UpsertValidator s ?v now)] =>
          assert (Hc : challenges (UpsertValidator s v now) = challenges s)
            by (unfold UpsertValidator; case_match; reflexivity)
      end.
      rewrite Hc, Hch. cbn [fst set_challenges challenges].
      rewrite lookup_delete_eq. reflexivity.
Qed.

End RegisterHandler.

(** * BuildV1 *)

Section BuildV1.
Context {ext : External}.

Lemma validators_UpdateBids (s : Store) (bs : list Bid) (now : Time) :
  validators (UpdateBids s bs now) = validators s.
Proof.
  unfold UpdateBids. revert s.
  induction bs as [|b bs IH]; intros s; simpl; [reflexivity|].
  rewrite IH. reflexivity.
Qed.

Lemma buildBlock_validators (c : Chain) (auction : Auction) (allBids : list Bid)
    (mempool : list bytes) (maxBytes maxGas : Z) (errmsg : string) (now : Time)
    (s : Store) :
  validators (fst (buildBlock c auction allBids mempool maxBytes maxGas errmsg
                     now s))
  = validators s.
Proof.
  unfold buildBlock.
  destruct (computeOrder c auction allBids mempool) as [[[w l] r]|e];
    [|reflexivity].
  unfold bind, write. simpl.
  destruct (flattenBundles _) as [[? ?] ?]. simpl. apply validators_UpdateBids.
Qed.

(** What a successful [BuildV1] has gone through. *)
Lemma ServiceBuildV1_Ok (c : Chain) (h : Z) (validatorAddr : string)
    (maxBytes maxGas : Z) (mempool : list bytes) (signature : bytes)
    (now : Time) (s s' : Store) (r : list bytes * (Z * string)) :
  ServiceBuildV1 c h validatorAddr maxBytes maxGas mempool signature now s
  = (s', Ok r) ->
  exists (ch : StoreChain) (L : Z) (vs : ValidatorSet) (p : ChainValidator)
         (s2 : Store) (a : Auction),
    chains s !! ID c = Some ch /\
    LatestHeight c = Ok L /\ GetValidatorSet c L = Ok vs /\
    checkHeightWindow (ID c) L 2 h = None /\
    PredictProposer c vs h = Ok p /\ cv_Address p = validatorAddr /\
    VerifySignature c (cv_PubKeyType p) (cv_PubKeyBytes p)
      (mekabuild_BuildBlockRequestSignBytes (ID c) h validatorAddr maxBytes
         maxGas (mekabuild_HashTxs mempool)) signature = None /\
    let s1 := UpsertValidator s
                (mkValidator (ID c) (cv_Address p) (cv_Moniker p)
                   (cv_PubKeyBytes p) (cv_PubKeyType p) (cv_PaymentAddress p)
                   0 0) now in
    findOrCreateAuction (ID c) h vs (cv_Address p) (cv_PaymentAddress p)
      (sc_MekatekPaymentAddress ch) (sc_PaymentDenom ch) now s1 = (s2, Ok a) /\
    IsZero (FinishedAt a) = true /\ cv_Address p = ValidatorAddress a /\
    let s3 := fst (UpsertAuction s2 (auction_set_FinishedAt a now) now) in
    let a3 := snd (UpsertAuction s2 (auction_set_FinishedAt a now) now) in
    buildBlock c a3 (ListBids s3 (ID c) h) mempool maxBytes maxGas
      "compute block order" now s3 = (s', Ok r).
Proof.
  unfold ServiceBuildV1, Transact, bind, wrapErr, readR, lift, liftE, fail,
    ret, write, read, SelectChain.
  destruct (chains s !! ID c) as [ch|] eqn:Hch; [|discriminate].
  destruct (LatestHeight c) as [L|e] eqn:HL; [|discriminate].
  destruct (GetValidatorSet c L) as [vs|e] eqn:Hvs; [|discriminate].
  destruct (negb (vs_Height vs =? L)); [discriminate|].
  destruct (checkHeightWindow (ID c) L 2 h) eqn:Hw; [discriminate|].
  destruct (PredictProposer c vs h) as [p|e] eqn:Hp; [|discriminate].
  destruct (bool_decide_reflect (cv_Address p = validatorAddr)) as [Hpa|Hpa];
    [|discriminate].
  cbn [negb]. cbv beta iota.
  destruct (VerifySignature c _ _ _ signature) eqn:Hsig; [discriminate|].
  cbv beta iota.
  set (s1 := UpsertValidator s
               (mkValidator (ID c) (cv_Address p) (cv_Moniker p)
                  (cv_PubKeyBytes p) (cv_PubKeyType p) (cv_PaymentAddress p)
                  0 0) now).
  destruct (findOrCreateAuction (ID c) h vs (cv_Address p) (cv_PaymentAddress p)
              (sc_MekatekPaymentAddress ch) (sc_PaymentDenom ch) now s1)
    as [s2 [a|e]] eqn:Hf; [|discriminate].
  destruct (IsZero (FinishedAt a)) eqn:Hz; [|discriminate].
  cbn [negb]. cbv beta iota.
  destruct (bool_decide_reflect (cv_Address p = ValidatorAddress a)) as [Hva|Hva];
    [|discriminate].
  cbn [negb]. cbv beta iota.
  destruct (UpsertAuction s2 (auction_set_FinishedAt a now) now) as [s3 a3] eqn:Hu.
  simpl. intros Hb.
  exists ch, L, vs, p, s2, a.
  do 5 (split; [first [reflexivity|assumption]|]). split; [exact Hpa|].
  split; [exact Hsig|]. cbv zeta. fold s1.
  split; [exact Hf|]. split; [exact Hz|]. split; [exact Hva|].
  rewrite Hu. exact Hb.
Qed.

(** X29. [BuildV1] asks for no registration and makes one. On a
    store whose rows are filed under their own keys, at a time that is not
    the zero time, a [BuildV1] that succeeds was asked in the name of the
    predicted proposer of the height, for a height within two of the
    latest, with a signature that verifies with the key that the validator
    set gives the proposer. It leaves the proposer stored as a validator,
    with the payment address and the moniker of the validator set, and the
    auction stored with the time of the call as [FinishedAt] and the
    proposer as its validator; every later [Auction], [Bid], [Build] and
    [BuildV1] for the height fails. *)
Theorem BuildV1_registers_the_proposer (c : Chain) (h : Z)
    (validatorAddr : string) (maxBytes maxGas : Z) (mempool : list bytes)
    (signature : bytes) (now : Time) (s s' : Store)
    (r : list bytes * (Z * string)) :
  rowsKeyed s -> now <> 0 ->
  ServiceBuildV1 c h validatorAddr maxBytes maxGas mempool signature now s
  = (s', Ok r) ->
  exists (L : Z) (vs : ValidatorSet) (p : ChainValidator),
    LatestHeight c = Ok L /\ GetValidatorSet c L = Ok vs /\
    checkHeightWindow (ID c) L 2 h = None /\
    PredictProposer c vs h = Ok p /\ cv_Address p = validatorAddr /\
    VerifySignature c (cv_PubKeyType p) (cv_PubKeyBytes p)
      (mekabuild_BuildBlockRequestSignBytes (ID c) h validatorAddr maxBytes
         maxGas (mekabuild_HashTxs mempool)) signature = None /\
    (exists v, SelectValidator s' (ID c) validatorAddr = Ok v /\
               val_PaymentAddress v = cv_PaymentAddress p /\
               val_Moniker v = cv_Moniker p) /\
    (exists a, SelectAuction s' (ID c) h = Ok a /\ FinishedAt a = now /\
               ValidatorAddress a = validatorAddr) /\
    forall (now' : Time) (kind validatorAddr' : string)
           (txbs mempool' : list bytes) (newV4 : result UUID)
           (maxBytes' maxGas' : Z) (signature' : bytes),
      is_Err (snd (ServiceAuction c h now' s')) = true /\
      is_Err (snd (ServiceBid c h kind txbs newV4 now' s')) = true /\
      is_Err (snd (ServiceBuild c h validatorAddr' maxBytes' maxGas' mempool'
                     signature' now' s')) = true /\
      is_Err (snd (ServiceBuildV1 c h validatorAddr' maxBytes' maxGas' mempool'
                     signature' now' s')) = true.
Proof.
  intros Hkeyed Hnow Hb.
  apply ServiceBuildV1_Ok in Hb
    as (ch & L & vs & p & s2 & a & Hch & HL & Hvs & Hw & Hp & Hpa & Hsig & Hrest).
  cbv zeta in Hrest. destruct Hrest as (Hf & Hz & Hva & Hbb).
  exists L, vs, p.
  split; [exact HL|]. split; [exact Hvs|]. split; [exact Hw|].
  split; [exact Hp|]. split; [exact Hpa|]. split; [exact Hsig|].
  set (v0 := mkValidator (ID c) (cv_Address p) (cv_Moniker p) (cv_PubKeyBytes p)
               (cv_PubKeyType p) (cv_PaymentAddress p) 0 0) in *.
  set (s1 := UpsertValidator s v0 now) in *.
  assert (Hkeyed1 : rowsKeyed s1) by (apply rowsKeyed_UpsertValidator, Hkeyed).
  pose proof (findOrCreateAuction_frame _ _ _ _ _ _ _ _ _ _ _ Hf)
    as (_ & _ & Hval2 & _ & Hlook & _ & Hnew & Hold).
  assert (Hkey : ChainID a = ID c /\ Height a = h).
  { destruct (auctions s1 !! (ID c, h)) as [a0|] eqn:Hs.
    - destruct (Hold a0 eq_refl) as [-> _].
      destruct Hkeyed1 as (_ & Hka & _). pose proof (Hka _ _ Hs) as Hk.
      injection Hk as -> ->. auto.
    - rewrite (Hnew eq_refl). auto. }
  destruct Hkey as [Hcid Hh].
  set (s3 := fst (UpsertAuction s2 (auction_set_FinishedAt a now) now)) in *.
  set (a3 := snd (UpsertAuction s2 (auction_set_FinishedAt a now) now)) in *.
  assert (Hs' : s' = fst (buildBlock c a3 (ListBids s3 (ID c) h) mempool maxBytes
                            maxGas "compute block order" now s3))
    by (rewrite Hbb; reflexivity).
  assert (Ha3 : exists a', auctions s' !! (ID c, h) = Some a' /\
                           FinishedAt a' = now /\
                           ValidatorAddress a' = ValidatorAddress a).
  { rewrite Hs', buildBlock_auctions.
    unfold s3, UpsertAuction. simpl. rewrite Hcid, Hh, Hlook. simpl.
    rewrite lookup_insert_eq. eexists. repeat split; reflexivity. }
  destruct Ha3 as (a' & Ha' & Hfin & Haddr).
  split; [|split].
  - destruct (UpsertValidator_lookup s v0 now) as (stored & Hst & Hpay & Hmon).
    exists stored. unfold SelectValidator.
    rewrite Hs', buildBlock_validators.
    assert (Hv3 : validators s3 = validators s1).
    { unfold s3, UpsertAuction. case_match; simpl; exact Hval2. }
    rewrite Hv3. fold s1 in Hst. simpl in Hst. rewrite <- Hpa, Hst. auto.
  - exists a'. unfold SelectAuction. rewrite Ha'.
    split; [reflexivity|]. split; [exact Hfin|]. congruence.
  - assert (Hfd : finished s' (ID c) h).
    { exists a'. split; [exact Ha'|]. rewrite Hfin. unfold IsZero.
      apply Z.eqb_neq. exact Hnow. }
    intros now' kind va' txbs mempool' newV4 mb' mg' sig'.
    split; [|split; [|split]].
    + destruct (verifyAuction_finished_fails c h 10 now' s' Hfd) as (e & He).
      rewrite (ServiceAuction_verify_error _ _ _ _ _ _ He). reflexivity.
    + destruct (verifyAuction_finished_fails c h 10 now' s' Hfd) as (e & He).
      rewrite (ServiceBid_verify_error _ _ _ _ _ _ _ _ _ He). reflexivity.
    + destruct (verifyAuction_finished_fails c h 2 now' s' Hfd) as (e & He).
      rewrite (ServiceBuild_verify_error _ _ _ _ _ _ _ _ _ _ _ He). reflexivity.
    + apply ServiceBuildV1_finished_fails. exact Hfd.
Qed.

End BuildV1.

(** * The properties at work on the examples *)

Section Examples.

Import Example.


(** A store with one challenge, as [Apply] leaves it. *)
Lemma Register_deletes_challenge_once_witness :
  let s := fst (ServiceApply (chainAt 5) "val1" "val-pay" [Byte.x2a] (Ok 77%N) 7
                  store0) in
  let badSig : bytes := [] in
  is_Some (challenges s !! "77"%string) /\
  is_Err (snd (ServiceRegister (chainAt 5) "77" badSig 8 s)) = true /\
  challenges (fst (ServiceRegister (chainAt 5) "77" badSig 8 s)) = ∅ /\
  fails_with
    (snd (ServiceRegister (chainAt 6) "77" goodSig 9
            (fst (ServiceRegister (chainAt 5) "77" badSig 8 s))))
    ErrNotFound = true.
Proof.
  cbv zeta.
  set (s := fst (ServiceApply (chainAt 5) "val1" "val-pay" [Byte.x2a] (Ok 77%N) 7
                   store0)).
  assert (Hkeyed : challengesKeyed s).
  { apply ServiceApply_challengesKeyed. intros k x Hk.
    simpl in Hk. rewrite lookup_empty in Hk. discriminate. }
  assert (Hch : challenges s !! "77"%string
                = Some (mkChallenge 77%N "zenith-1" "val1" [Byte.x01] "secp256k1"
                          "val-pay" [Byte.x2a] 7)) by reflexivity.
  destruct (Register_deletes_challenge_once (chainAt 5) (chainAt 6) "77" []
              goodSig 8 9 s _ 5 6 (valset 5) (valset 6)
              Hkeyed eq_refl eq_refl eq_refl eq_refl Hch)
    as (Hdel & Hres & Hchs & Hsecond).
  split; [eexists; exact Hch|].
  split; [rewrite Hres; reflexivity|].
  split; [rewrite Hchs; apply map_eq; intros k; reflexivity|].
  rewrite Hsecond. reflexivity.
Defined.

(** C4 as stated fails: the auction of height 5 is finished and the chain
    has moved on to height 6; the request fails, as it must, but with
    AuctionTooOld, not AuctionFinished. *)
Lemma finished_auction_reports_too_old :
  let s := set_auctions store0 {[("zenith-1"%string, 5) := auctionAt 5 9]} in
  finished s "zenith-1" 5 /\
  snd (ServiceAuction (chainAt 6) 5 10 s)
  = Err (Wrapf "zenith-1" (Sentinel ErrAuctionTooOld)) /\
  fails_with (snd (ServiceAuction (chainAt 6) 5 10 s)) ErrAuctionFinished = false /\
  fails_with (snd (ServiceBuild (chainAt 6) 5 "val1" (-1) (-1) [] goodSig 10 s))
    ErrAuctionFinished = false.
Proof.
  cbv zeta. split; [eexists; split; reflexivity|].
  split; [reflexivity|]. split; reflexivity.
Defined.

Lemma finished_auction_stays_closed_witness :
  let s := set_auctions store0 {[("zenith-1"%string, 5) := auctionAt 5 9]} in
  fails_with (snd (ServiceAuction (chainAt 5) 5 10 s)) ErrAuctionFinished = true /\
  fails_with (snd (ServiceBuild (chainAt 5) 5 "val1" (-1) (-1) [] goodSig 10 s))
    ErrAuctionFinished = true /\
  finished (fst (ServiceBuildV1 (chainAt 5) 5 "val1" (-1) (-1) [] goodSig 10 s))
    "zenith-1" 5.
Proof.
  cbv zeta.
  set (s := set_auctions store0 {[("zenith-1"%string, 5) := auctionAt 5 9]}).
  assert (Hfin : finished s "zenith-1" 5) by (eexists; split; reflexivity).
  assert (Hready : chainReady (chainAt 5) s 5).
  { split; [eexists; reflexivity|].
    split; [reflexivity|]. eexists; split; reflexivity. }
  assert (Hreach : forall off, (off = 10 \/ off = 2) ->
                               reachesAuction (chainAt 5) s 5 off).
  { intros off Hoff. exists 5, (valset 5), val1.
    split; [exact Hready|]. split; [reflexivity|].
    split; [destruct Hoff as [->| ->]; reflexivity|].
    split; [reflexivity|]. eexists; reflexivity. }
  pose proof (finished_auction_stays_closed (chainAt 5) s 5 10 "" [] (Ok 0%N)
                "val1" "val-pay" "77" (-1) (-1) [] [] goodSig Hfin
                ltac:(discriminate)) as (_ & H10 & H2 & _ & Hkeep).
  split; [apply (H10 (Hreach 10 (or_introl eq_refl)))|].
  split; [apply (H2 (Hreach 2 (or_intror eq_refl)))|].
  destruct Hkeep as (_ & _ & _ & HkeepV1 & _). apply HkeepV1. exact Hfin.
Defined.

(** C9 as stated fails for a transaction that decodes and does not encode
    again: [evaluateBid] passes over it, the bid is accepted, and
    [selectTransactions] counts its 60 bytes and 6 gas on top of the 100 and
    10 of the other transaction. *)
Lemma reencode_failure_still_counts :
  let bid := bidOf 1%N BidKindBlock [tx97; txNoEncode] BidStatePending in
  let eb := fst (evaluateBid (chainAt 5) (auctionAt 5 0) bid) in
  unusable (chainAt 5) txNoEncode /\
  snd (evaluateBid (chainAt 5) (auctionAt 5 0) bid) = None /\
  Txs eb = [tx97; txNoEncode] /\
  bidSize (chainAt 5) [tx97] = (100, 10) /\
  bidSize (chainAt 5) (Txs eb) = (160, 16) /\
  totalBytes (selectTransactions (chainAt 5) [eb] [] 1000 1000) = 160 /\
  totalGas (selectTransactions (chainAt 5) [eb] [] 1000 1000) = 16.
Proof. cbv zeta. repeat split; vm_compute; reflexivity. Defined.

Lemma unusable_tx_is_passed_over_witness :
  let bid := bidOf 1%N BidKindBlock [txGarbage; tx97] BidStatePending in
  let eb := fst (evaluateBid (chainAt 5) (auctionAt 5 0) bid) in
  snd (evaluateBid (chainAt 5) (auctionAt 5 0) bid) = None /\
  Txs eb !! 0%nat = Some txGarbage /\
  bidSize (chainAt 5) (Txs eb) = (100, 10).
Proof.
  cbv zeta.
  destruct (unusable_tx_is_passed_over (chainAt 5) (auctionAt 5 0)
              (bidOf 1%N BidKindBlock [txGarbage; tx97] BidStatePending)
              [] [tx97] txGarbage eq_refl I)
    as (_ & Hverdict & Hstay & _ & Hsize & _).
  split; [rewrite Hverdict; reflexivity|].
  split; [exact Hstay|].
  rewrite (Hsize eq_refl). reflexivity.
Defined.

(** C7 as stated fails for the ringCache: with two slots, after keys 1 and 2
    have come in and key 1 has been read again, key 3 drives out key 1, the
    most recently used one, and key 2 stays. The condCache keeps key 1 and
    drops key 2. *)
Lemma ringCache_evicts_recently_used :
  let calls : list (@cacheCall Z Z) :=
    [CallGet 1 (10, None); CallGet 2 (20, None); CallGet 1 (10, None);
     CallGet 3 (30, None)] in
  (exists c', ringCache_run 0 (newRingCache 2) calls = Some c' /\
              index c' !! 1 = None /\ index c' !! 2 = Some 1%nat /\
              index c' !! 3 = Some 0%nat) /\
  cache (condCache_run 0 (newCondCache 2) calls) !! 1
  = Some (mkCondItem 10 None true) /\
  cache (condCache_run 0 (newCondCache 2) calls) !! 2 = None.
Proof.
  cbv zeta. split; [eexists; split; [reflexivity|]|]; repeat split; reflexivity.
Defined.

Lemma caches_stay_within_capacity_witness :
  let calls : list (@cacheCall Z Z) :=
    [CallGet 1 (10, None); CallGet 2 (20, None); CallLen;
     CallGet 3 (0, Some (Errorf "boom")); CallGet 4 (40, None)] in
  condCache_Len (condCache_run 0 (newCondCache 2) calls) <= 2 /\
  exists c', ringCache_run 0 (newRingCache 2) calls = Some c' /\
             ringCache_Len c' <= 2.
Proof.
  cbv zeta.
  destruct (caches_stay_within_capacity 0 2
              [CallGet 1 (10, None); CallGet 2 (20, None); CallLen;
               CallGet 3 (0, Some (Errorf "boom")); CallGet 4 (40, None)]
              ltac:(lia)) as (Hcond & Hring & _).
  split; [exact Hcond|exact Hring].
Defined.

(** C2 fails on the code: a bid that lists the same transaction twice is
    accepted, wins and is packed as it is, so the block of either build holds
    the transaction, and its hash, twice. *)
Lemma Build_block_repeats_transaction :
  let s := fst (ServiceBid (chainAt 5) 5 "block" [tx97; tx97] (Ok 9%N) 7 store0) in
  snd (ServiceBuild (chainAt 5) 5 "val1" (-1) (-1) [] goodSig 8 s)
  = Ok ([tx97; tx97], (194, "uzen"%string)) /\
  snd (ServiceBuildV1 (chainAt 5) 5 "val1" (-1) (-1) [] goodSig 8 s)
  = Ok ([tx97; tx97], (194, "uzen"%string)) /\
  ~ NoDup (HashTx <$> [tx97; tx97]).
Proof.
  cbv zeta. split; [vm_compute; reflexivity|]. split; [vm_compute; reflexivity|].
  intros Hnd. apply NoDup_cons in Hnd as [Hnin _]. apply Hnin.
  apply elem_of_cons. left. reflexivity.
Defined.

(** C3 fails on the code: the one transaction of the bid has 100 bytes and no
    gas amount; the bid is counted as 0 bytes, accepted under a limit of 50
    bytes, and the block of either build holds its 100 bytes. *)
Lemma Build_block_exceeds_maxBytes :
  let s := fst (ServiceBid (chainAt 5) 5 "block" [txNoGas] (Ok 9%N) 7 store0) in
  snd (ServiceBuild (chainAt 5) 5 "val1" 50 (-1) [] goodSig 8 s)
  = Ok ([txNoGas], (97, "uzen"%string)) /\
  snd (ServiceBuildV1 (chainAt 5) 5 "val1" 50 (-1) [] goodSig 8 s)
  = Ok ([txNoGas], (97, "uzen"%string)) /\
  getTxBytes (chainAt 5) txNoGas = Ok 100 /\
  is_Err (getTxGas (chainAt 5) txNoGas) = true /\
  sumBytes (chainAt 5) [txNoGas] = 100.
Proof. cbv zeta. repeat split; vm_compute; reflexivity. Defined.

Lemma ServiceBid_kind_top_unless_block_witness :
  match ServiceBid (chainAt 5) 5 "" [tx97] (Ok 9%N) 7 store0 with
  | (_, Ok bid) => Kind bid = BidKindTop
  | (_, Err _) => False
  end.
Proof.
  destruct (ServiceBid (chainAt 5) 5 "" [tx97] (Ok 9%N) 7 store0)
    as [s' [bid|e]] eqn:Hrun.
  - apply (ServiceBid_kind_top_unless_block _ _ _ _ _ _ _ _ _ Hrun).
    vm_compute. discriminate.
  - vm_compute in Hrun. discriminate.
Defined.

Lemma height_window_witness :
  fails_with (snd (ServiceAuction (chainAt 5) 4 7 store0)) ErrAuctionTooOld = true /\
  fails_with (snd (ServiceBuild (chainAt 5) 8 "val1" (-1) (-1) [] goodSig 7 store0))
    ErrAuctionTooNew = true /\
  checkHeightWindow "zenith-1" 5 10 15 = None.
Proof.
  assert (Hready : chainReady (chainAt 5) store0 5).
  { split; [eexists; reflexivity|].
    split; [reflexivity|]. eexists; split; reflexivity. }
  assert (H5 : in_int64 5) by (unfold in_int64, min_int64, max_int64; lia).
  split; [|split].
  - apply (height_window (chainAt 5) store0 5 4 7 "" [] (Ok 0%N) "val1" (-1) (-1)
             [] goodSig Hready H5);
      [unfold in_int64, min_int64, max_int64; lia|lia].
  - apply (height_window (chainAt 5) store0 5 8 7 "" [] (Ok 0%N) "val1" (-1) (-1)
             [] goodSig Hready H5);
      [unfold in_int64, min_int64, max_int64; lia|lia].
  - apply (height_window (chainAt 5) store0 5 15 7 "" [] (Ok 0%N) "val1" (-1) (-1)
             [] goodSig Hready H5);
      [unfold in_int64, min_int64, max_int64; lia
      |unfold max_int64; lia|lia].
Defined.

End Examples.

(** * The further properties at work on the examples *)

Section MoreExamples.

Import Example ExampleBids.

Lemma rowsKeyed_store0 : rowsKeyed store0.
Proof.
  split; [|split; [|split; [|split]]].
  - intros k l Hk. simpl in Hk. rewrite lookup_empty in Hk. discriminate.
  - intros k a Hk. simpl in Hk. rewrite lookup_empty in Hk. discriminate.
  - intros k x Hk. simpl in Hk. rewrite lookup_empty in Hk. discriminate.
  - intros k v Hk. simpl in Hk.
    apply lookup_singleton_Some in Hk as [<- <-]. reflexivity.
  - intros k c Hk. simpl in Hk.
    apply lookup_singleton_Some in Hk as [<- <-]. reflexivity.
Qed.

Lemma chainReady_store0 : chainReady (chainAt 5) store0 5.
Proof.
  split; [eexists; reflexivity|].
  split; [reflexivity|]. eexists; split; reflexivity.
Qed.

Lemma ListValidators_sorted_complete_witness :
  ListValidatorsIn [storeVal1] "zenith-1" = [storeVal1] /\
  storeVal1 ∈ ListValidators store0 "zenith-1".
Proof.
  destruct (ListValidators_sorted_complete store0 "zenith-1" [storeVal1]
              rowsKeyed_store0 ltac:(reflexivity)) as (Hsame & Hin & _).
  split; [reflexivity|]. apply Hin. reflexivity.
Defined.

Lemma ListChains_sorted_complete_witness :
  ListChainsIn [storeChain] = ListChains store0 /\
  storeChain ∈ ListChains store0.
Proof.
  destruct (ListChains_sorted_complete store0 [storeChain]
              rowsKeyed_store0 ltac:(reflexivity)) as (Hsame & Hin & _).
  split; [exact Hsame|]. apply Hin. reflexivity.
Defined.


Lemma ServiceBid_without_payment_witness :
  fails_with (snd (ServiceBid (chainAt 5) 5 "block" [txGarbage; txNoEncode]
                     (Ok 9%N) 7 store0)) ErrInvalidRequest = true.
Proof.
  destruct (ServiceAuction (chainAt 5) 5 7 store0) as [s1 [a|e]] eqn:Hrun.
  - assert (Hun : Forall (unusable (chainAt 5)) [txGarbage; txNoEncode]).
    { repeat constructor. }
    destruct (ServiceBid_without_payment (chainAt 5) 5 "block"
                [txGarbage; txNoEncode] (Ok 9%N) 7 store0 s1 a Hrun Hun)
      as [Hbid _].
    rewrite Hbid. reflexivity.
  - vm_compute in Hrun. discriminate.
Defined.

Lemma ServiceBid_stores_pending_bid_witness :
  match ServiceBid (chainAt 5) 5 "block" [tx97] (Ok 9%N) 7 store0 with
  | (s', Ok bid) => ListBids s' "zenith-1" 5 = [bid] /\ State bid = BidStatePending
  | (_, Err _) => False
  end.
Proof.
  destruct (ServiceBid (chainAt 5) 5 "block" [tx97] (Ok 9%N) 7 store0)
    as [s' [bid|e]] eqn:Hrun.
  - destruct (ServiceBid_stores_pending_bid (chainAt 5) 5 "block" [tx97]
                (Ok 9%N) 7 store0 s' bid rowsKeyed_store0 Hrun)
      as (Hlist & _ & _ & _ & _ & _ & Hstate & _).
    split; [exact Hlist|exact Hstate].
  - vm_compute in Hrun. discriminate.
Defined.

Lemma Build_closes_the_auction_witness :
  let s' := fst (ServiceBuild (chainAt 5) 5 "val1" (-1) (-1) [txPlain] goodSig 8
                   store0) in
  is_Err (snd (ServiceBid (chainAt 5) 5 "block" [tx97] (Ok 9%N) 9 s')) = true /\
  is_Err (snd (ServiceBuildV1 (chainAt 5) 5 "val1" (-1) (-1) [] goodSig 9 s'))
  = true.
Proof.
  cbv zeta.
  destruct (ServiceBuild (chainAt 5) 5 "val1" (-1) (-1) [txPlain] goodSig 8 store0)
    as [s' [r|e]] eqn:Hrun.
  - destruct (Build_closes_the_auction (chainAt 5) 5 "val1" (-1) (-1) [txPlain]
                goodSig 8 store0 s' r rowsKeyed_store0 ltac:(discriminate) Hrun)
      as [_ Hclosed].
    destruct (Hclosed 9 "block"%string "val1"%string [tx97] [] (Ok 9%N) (-1) (-1)
                goodSig) as (_ & Hbid & _ & HV1).
    split; [exact Hbid|exact HV1].
  - vm_compute in Hrun. discriminate.
Defined.

Lemma Build_needs_the_proposers_signature_witness :
  exists v : Validator,
    SelectValidator store0 "zenith-1" "val1" = Ok v /\
    VerifySignature (chainAt 5) (val_PubKeyType v) (val_PubKeyBytes v)
      (mekabuild_BuildBlockRequestSignBytes "zenith-1" 5 "val1" (-1) (-1)
         (mekabuild_HashTxs [txPlain])) goodSig = None.
Proof.
  destruct (ServiceBuild (chainAt 5) 5 "val1" (-1) (-1) [txPlain] goodSig 8 store0)
    as [s' [r|e]] eqn:Hrun.
  - destruct (Build_needs_the_proposers_signature (chainAt 5) 5 "val1" (-1) (-1)
                [txPlain] goodSig 8 store0 s' r Hrun)
      as (L & vs & p & v & _ & _ & _ & Hp & Hv & Hsig).
    injection Hp as <-. exists v. split; [exact Hv|exact Hsig].
  - vm_compute in Hrun. discriminate.
Defined.

Lemma BuildV1_registers_the_proposer_witness :
  let s := set_validators store0 ∅ in
  match ServiceBuildV1 (chainAt 5) 5 "val1" (-1) (-1) [txPlain] goodSig 8 s with
  | (s', Ok r) =>
      SelectValidator s "zenith-1" "val1" = Err (Sentinel ErrNotFound) /\
      (exists v, SelectValidator s' "zenith-1" "val1" = Ok v /\
                 val_PaymentAddress v = "val-pay"%string) /\
      is_Err (snd (ServiceBuildV1 (chainAt 5) 5 "val1" (-1) (-1) [] goodSig 9 s'))
      = true
  | (_, Err _) => False
  end.
Proof.
  cbv zeta.
  assert (Hkeyed : rowsKeyed (set_validators store0 ∅)).
  { destruct rowsKeyed_store0 as (Hb & Ha & Hc & _ & Hch).
    split; [exact Hb|]. split; [exact Ha|]. split; [exact Hc|].
    split; [|exact Hch]. intros k v Hk. simpl in Hk.
    rewrite lookup_empty in Hk. discriminate. }
  destruct (ServiceBuildV1 (chainAt 5) 5 "val1" (-1) (-1) [txPlain] goodSig 8
              (set_validators store0 ∅)) as [s' [r|e]] eqn:Hrun.
  - destruct (BuildV1_registers_the_proposer (chainAt 5) 5 "val1" (-1) (-1)
                [txPlain] goodSig 8 _ s' r Hkeyed ltac:(discriminate) Hrun)
      as (L & vs & p & _ & _ & _ & Hp & _ & _ & (v & Hv & Hpay & _) & _ & Hclosed).
    injection Hp as <-.
    split; [reflexivity|]. split; [exists v; split; [exact Hv|exact Hpay]|].
    destruct (Hclosed 9 ""%string "val1"%string [] [] (Ok 0%N) (-1) (-1) goodSig)
      as (_ & _ & _ & HV1).
    exact HV1.
  - vm_compute in Hrun. discriminate.
Defined.

Lemma Apply_then_Register_witness :
  match ServiceApply (chainAt 5) "val1" "other-pay" [Byte.x2a] (Ok 77%N) 7 store0 with
  | (s1, Ok ch) =>
      exists stored,
        SelectValidator (fst (ServiceRegister (chainAt 5) "77" goodSig 8 s1))
          "zenith-1" "val1" = Ok stored /\
        val_PaymentAddress stored = "other-pay"%string
  | (_, Err _) => False
  end.
Proof.
  destruct (ServiceApply (chainAt 5) "val1" "other-pay" [Byte.x2a] (Ok 77%N) 7
              store0) as [s1 [ch|e]] eqn:Hrun.
  - assert (Hset : forall L vs k cv,
              LatestHeight (chainAt 5) = Ok L ->
              GetValidatorSet (chainAt 5) L = Ok vs ->
              vs_Set vs !! k = Some cv -> cv_Address cv = k).
    { intros L vs k cv _ Hvs Hk. simpl in Hvs. injection Hvs as <-.
      simpl in Hk. apply lookup_singleton_Some in Hk as [<- <-]. reflexivity. }
    assert (Hid : UUID_String (ch_ID ch) = "77"%string).
    { vm_compute in Hrun. injection Hrun as _ <-. reflexivity. }
    destruct (Apply_then_Register (chainAt 5) "val1" "other-pay" [Byte.x2a]
                goodSig (Ok 77%N) 7 8 store0 s1 ch Hset Hrun eq_refl)
      as (_ & _ & (v & stored & _ & _ & _ & _ & Hsel & Hpay) & _).
    rewrite Hid in Hsel. exists stored. split; [exact Hsel|exact Hpay].
  - vm_compute in Hrun. discriminate.
Defined.

Lemma computeOrder_settles_every_bid_witness :
  let bs := [evaluated 1%N BidKindBlock [tx97]; evaluated 2%N BidKindTop [txBig];
             evaluated 3%N BidKindBlock [tx97]] in
  match computeOrder (chainAt 5) (auctionAt 5 0) bs [txPlain; tx97] with
  | Ok (w, l, r) =>
      bid_ID <$> (w ++ l) ≡ₚ [1%N; 2%N; 3%N] /\ w ⊆+ bs /\
      r `sublist_of` [txPlain; tx97]
  | Err _ => False
  end.
Proof.
  cbv zeta.
  destruct (computeOrder (chainAt 5) (auctionAt 5 0)
              [evaluated 1%N BidKindBlock [tx97]; evaluated 2%N BidKindTop [txBig];
               evaluated 3%N BidKindBlock [tx97]] [txPlain; tx97])
    as [[[w l] r]|e] eqn:Hrun.
  - destruct (computeOrder_settles_every_bid _ _ _ _ _ _ _ Hrun)
      as (Hids & _ & Hw & Hr).
    split; [exact Hids|]. split; [|exact Hr].
    apply Hw. repeat constructor; discriminate.
  - vm_compute in Hrun. discriminate.
Defined.

Lemma computeOrder_ranks_the_winners_witness :
  let bs := [evaluated 1%N BidKindBlock [tx97]; evaluated 2%N BidKindTop [txBig]] in
  match computeOrder (chainAt 5) (auctionAt 5 0) bs [] with
  | Ok (w, l, r) =>
      forall (i : nat) (b : Bid),
        w !! i = Some b -> Kind b = BidKindTop -> i = 0%nat
  | Err _ => False
  end.
Proof.
  cbv zeta.
  destruct (computeOrder (chainAt 5) (auctionAt 5 0)
              [evaluated 1%N BidKindBlock [tx97]; evaluated 2%N BidKindTop [txBig]] [])
    as [[[w l] r]|e] eqn:Hrun.
  - destruct (computeOrder_ranks_the_winners _ _ _ _ _ _ _ Hrun) as [_ Htop].
    exact Htop.
  - vm_compute in Hrun. discriminate.
Defined.

Lemma computeOrder_never_overdraws_witness :
  let bs := [evaluated 1%N BidKindBlock [tx97]; evaluated 2%N BidKindTop [txBig]] in
  match computeOrder (chainAt 5) (auctionAt 5 0) bs [] with
  | Ok (w, l, r) => drawnFrom "alice" (concat (Payments <$> w)) <= 100000
  | Err _ => False
  end.
Proof.
  cbv zeta.
  destruct (computeOrder (chainAt 5) (auctionAt 5 0)
              [evaluated 1%N BidKindBlock [tx97]; evaluated 2%N BidKindTop [txBig]] [])
    as [[[w l] r]|e] eqn:Hrun.
  - assert (Hbal : forall h addr denom b,
              AccountBalance (chainAt 5) h addr denom = Ok b ->
              0 <= b <= max_int64).
    { intros h addr denom b [= <-]. unfold max_int64. lia. }
    assert (Hbs : Forall (fun b => State b <> BidStateUnset /\
                Forall (fun p => 0 <= pay_Amount p <= max_int64) (Payments b))
              [evaluated 1%N BidKindBlock [tx97]; evaluated 2%N BidKindTop [txBig]]).
    { repeat constructor; try discriminate; vm_compute; discriminate. }
    apply (computeOrder_never_overdraws _ _ _ _ _ _ _ Hbal Hbs Hrun "alice"%string).
  - vm_compute in Hrun. discriminate.
Defined.

Lemma selectTransactions_takes_all_that_fits_witness :
  blockOf (selectTransactions (chainAt 5) [evaluated 1%N BidKindBlock [tx97]]
             [txPlain] 140 (-1))
  = [tx97; txPlain].
Proof.
  apply (selectTransactions_takes_all_that_fits (chainAt 5)
           [evaluated 1%N BidKindBlock [tx97]] [txPlain] 140 (-1)).
  - repeat constructor.
  - repeat constructor; vm_compute; discriminate.
  - vm_compute. discriminate.
  - vm_compute. discriminate.
  - vm_compute. discriminate.
  - vm_compute. discriminate.
Defined.

Lemma condCache_remembers_success_only_witness :
  let c : @condCache Z _ _ Z := newCondCache 2 in
  let found := fun _ : Z => (10, @None error) in
  let failed := fun _ : Z => (0, Some (Errorf "boom")) in
  snd (condCache_Get 0 (fst (condCache_Get 0 c 1 found)) 1 failed)
  = Some (10, None) /\
  snd (condCache_Get 0 (fst (condCache_Get 0 c 1 failed)) 1 found)
  = Some (10, None).
Proof.
  cbv zeta. split.
  - apply (condCache_remembers_success_only 0 (newCondCache 2) 1
             (fun _ => (10, None)) (fun _ => (0, Some (Errorf "boom")))
             (@condInv_new Z _ _ Z 2 ltac:(lia)) ltac:(simpl; lia) eq_refl).
    reflexivity.
  - apply (condCache_remembers_success_only 0 (newCondCache 2) 1
             (fun _ => (0, Some (Errorf "boom"))) (fun _ => (10, None))
             (@condInv_new Z _ _ Z 2 ltac:(lia)) ltac:(simpl; lia) eq_refl).
    eexists. reflexivity.
Defined.

Lemma ringCache_remembers_success_only_witness :
  let c : @ringCache Z _ _ Z := newRingCache 2 in
  exists c', ringCache_Get 0 c 1 (fun _ => (10, None)) = Some (c', (10, None)) /\
             ringCache_Get 0 c' 1 (fun _ => (0, Some (Errorf "boom")))
             = Some (c', (10, None)).
Proof.
  cbv zeta.
  destruct (ringCache_remembers_success_only 0 (newRingCache 2) 1
              (fun _ => (10, None)) (fun _ => (0, Some (Errorf "boom")))
              (@ringInv_new Z _ _ Z 2 ltac:(lia)) eq_refl)
    as (c' & Hfirst & Hkept & _).
  exists c'. split; [exact Hfirst|]. apply Hkept. reflexivity.
Defined.

Lemma ringCache_failed_fill_evicts_witness :
  let full : @ringCache Z _ _ Z :=
    mkRingCache {[1 := 0%nat]} [Some (mkRingItem 1 10 None true)] 0 in
  exists c',
    ringCache_Get 0 full 2 (fun _ => (0, Some (Errorf "boom")))
    = Some (c', (0, Some (Errorf "boom"))) /\
    ringCache_Len c' = 0.
Proof.
  cbv zeta.
  set (full := mkRingCache {[1 := 0%nat]} [Some (mkRingItem 1 10 None true)] 0
               : @ringCache Z _ _ Z).
  assert (Hinv : ringInv full).
  { split; [|simpl; lia]. intros k pos Hk. simpl in Hk.
    apply lookup_singleton_Some in Hk as [<- <-]. eexists. split; reflexivity. }
  destruct (ringCache_failed_fill_evicts 0 full 2
              (fun _ => (0, Some (Errorf "boom"))) (mkRingItem 1 10 None true)
              Hinv eq_refl eq_refl eq_refl ltac:(eexists; reflexivity))
    as (c' & HGet & _ & HLen & _).
  exists c'. split; [exact HGet|]. rewrite HLen. reflexivity.
Defined.

Lemma handlers_answer_out_of_window_requests_witness :
  let manager := NewStaticServiceManager [NewCoreService (chainAt 5)] in
  (exists e, handleGetAuctionV0 manager (Ok (mkAuctionRequest "zenith-1" 4)) 7 store0
             = (store0, respondedError StatusGone false e)) /\
  (exists e, handlePostBuildV1 manager
               (Ok (mkBuildBlockRequest "zenith-1" 8 "val1" (-1) (-1) [] goodSig))
               7 store0
             = (store0, respondedError StatusTooEarly false e)).
Proof.
  cbv zeta.
  assert (H5 : forall z, -10 <= z <= 10 -> in_int64 z)
    by (intros z Hz; unfold in_int64, min_int64, max_int64; lia).
  split.
  - apply (handlers_answer_out_of_window_requests
             (NewStaticServiceManager [NewCoreService (chainAt 5)]) (chainAt 5)
             store0 5 4 7 "" [] (Ok 0%N) "val1" (-1) (-1) [] goodSig eq_refl
             chainReady_store0 (H5 5 ltac:(lia)) (H5 4 ltac:(lia))
             ltac:(discriminate) ltac:(lia) ltac:(discriminate)
             ltac:(discriminate)).
    lia.
  - apply (handlers_answer_out_of_window_requests
             (NewStaticServiceManager [NewCoreService (chainAt 5)]) (chainAt 5)
             store0 5 8 7 "" [] (Ok 0%N) "val1" (-1) (-1) [] goodSig eq_refl
             chainReady_store0 (H5 5 ltac:(lia)) (H5 8 ltac:(lia))
             ltac:(discriminate) ltac:(lia) ltac:(discriminate)
             ltac:(discriminate)).
    lia.
Defined.

Lemma register_request_finds_its_chain_witness :
  let manager := NewStaticServiceManager [NewCoreService (chainAt 5)] in
  let req := mkRegisterRequest "" "" "" "77" goodSig in
  let s := fst (ServiceApply (chainAt 5) "val1" "other-pay" [Byte.x2a] (Ok 77%N)
                  7 store0) in
  handlePostRegisterV0 manager (Ok req) [] (Ok 0%N) 8 store0
  = (store0, respondedError StatusNotFound true
               (Wrapf "look up challenge" (Sentinel ErrNotFound))) /\
  snd (handlePostRegisterV0 manager (Ok req) [] (Ok 0%N) 8 s)
  = respondOK (mkRegisterResponse "" [] "success").
Proof.
  cbv zeta. split.
  - apply (register_request_finds_its_chain
             (NewStaticServiceManager [NewCoreService (chainAt 5)])
             (mkRegisterRequest "" "" "" "77" goodSig) [] (Ok 0%N) 8 store0
             eq_refl ltac:(discriminate) ltac:(discriminate)).
    reflexivity.
  - apply (register_request_finds_its_chain
             (NewStaticServiceManager [NewCoreService (chainAt 5)])
             (mkRegisterRequest "" "" "" "77" goodSig) [] (Ok 0%N) 8
             (fst (ServiceApply (chainAt 5) "val1" "other-pay" [Byte.x2a]
                     (Ok 77%N) 7 store0))
             eq_refl ltac:(discriminate) ltac:(discriminate))
      with (c := chainAt 5) (L := 5) (vs := valset 5) (cv := val1)
           (ch := mkChallenge 77%N "zenith-1" "val1" [Byte.x01] "secp256k1"
                    "other-pay" [Byte.x2a] 7);
      reflexivity.
Defined.

End MoreExamples.
